(** * RAG chat front end: state stores, job polling and ranged upload

    A shallow embedding of the client-side orchestration layer of the
    RAG chat application:

    - [Types]      the data model of [types/index.ts];
    - [ChatStore]  the conversation store of [store/chat-store.ts];
    - [AuthStore]  the session store of [store/auth-store.ts];
    - [Api]        [pollJobUntilComplete], [sendMessageAndWait] and the
                   uploads of [documentApi] of [lib/api.ts];
    - [ApiProvider] the interceptors of the API client and the getter
                   [components/providers/api-provider.tsx] registers;
    - [UseChat]    what the callbacks of [hooks/use-chat.ts] do to the
                   conversation store.

    Instants are milliseconds since the epoch ([Z], what [Date.now()] and
    [Date.getTime()] give).  JavaScript numbers that may carry a fraction
    (poll intervals, token life times) are rationals ([Q]): every value
    the default options produce is dyadic and is represented exactly by
    a double, so no rounding is lost.  Whatever the code obtains from its
    surroundings ([generateId()], [new Date()], [Date.now()], the replies
    of the backend) is an explicit argument of the embedded function. *)

From Stdlib Require Import ZArith QArith Qpower Qminmax Lia Lqa.
From Stdlib Require Import DecimalString DecimalZ.
From stdpp Require Import base option list strings gmap.

Local Open Scope string_scope.
Local Open Scope list_scope.
Local Open Scope Z_scope.

(** ** JavaScript truthiness *)

(** [s] used as a condition: the empty string is falsy. *)
Definition truthy (s : string) : bool := negb (String.eqb s "").

(** [o] used as a condition, for [string | null | undefined]. *)
Definition truthy_opt (o : option string) : bool :=
  match o with
  | Some s => truthy s
  | None => false
  end.

(** [a || b] on strings. *)
Definition or_else (a b : string) : string := if truthy a then a else b.

(** ** Data model ([types/index.ts]) *)

Module Types.

Inductive MessageRole := user | assistant | system.

Inductive MessageStatus := sending | sent | error.

(** A value of a [Record<string, unknown>] bag. *)
Inductive JsValue :=
| JsNull
| JsBool (b : bool)
| JsNum (n : Q)
| JsStr (s : string).

Definition Metadata := gmap string JsValue.

Module Message.
Record t := mk {
  id : string;
  role : MessageRole;
  content : string;
  timestamp : Z;
  status : option MessageStatus;
  metadata : option Metadata
}.
End Message.

(** [Partial<Message>]: [Some v] is a key that is present. *)
Module MessageUpdates.
Record t := mk {
  id : option string;
  role : option MessageRole;
  content : option string;
  timestamp : option Z;
  status : option (option MessageStatus);
  metadata : option (option Metadata)
}.
End MessageUpdates.

Module Conversation.
Record t := mk {
  id : string;
  title : string;
  userId : string;
  messages : list Message.t;
  createdAt : Z;
  updatedAt : Z
}.
End Conversation.

Module PendingJob.
Record t := mk {
  jobId : string;
  messageId : string;
  conversationId : string;
  query : string;
  startedAt : Z;
  pollCount : Z
}.
End PendingJob.

(** [Partial<PendingJob>]. *)
Module PendingJobUpdates.
Record t := mk {
  jobId : option string;
  messageId : option string;
  conversationId : option string;
  query : option string;
  startedAt : option Z;
  pollCount : option Z
}.
End PendingJobUpdates.

Inductive Theme := light | dark | system_theme.

Module AppSettings.
Record t := mk {
  userId : string;
  theme : Theme;
  pollIntervalMs : Z;
  maxPollAttempts : Z;
  autoScroll : bool;
  soundEnabled : bool
}.
End AppSettings.

Definition DEFAULT_SETTINGS : AppSettings.t :=
  AppSettings.mk "" system_theme 1000 120 true false.

Module UserResponse.
Record t := mk {
  user_id : string;
  username : string;
  email : string;
  full_name : option string;
  created_at : string
}.
End UserResponse.

Module TokenResponse.
Record t := mk {
  access_token : string;
  token_type : string;
  expires_in : Q;
  user : UserResponse.t
}.
End TokenResponse.

Inductive JobStatusType :=
| queued | started | deferred | finished | stopped | scheduled | failed
| not_found.

Module JobStatusResponse.
Record t := mk {
  status : JobStatusType;
  result : option string;
  error : option string
}.
End JobStatusResponse.

Inductive DocumentType :=
| pdf | excel | word | csv | text | markdown | html | unknown.

(** The [status] of an ingest response: ["success"] or ["error"]. *)
Inductive IngestStatus := success | ingest_error.

Module IngestDocumentResponse.
Record t := mk {
  status : IngestStatus;
  filename : string;
  document_type : DocumentType;
  total_pages : Z;
  chunks_total : Z;
  chunks_ingested : Z;
  user_id : string;
  metadata : option Metadata;
  error : option string
}.
End IngestDocumentResponse.

(** [class ChatError extends Error]: the message of the error, and the
    [code], [status] and [details] the constructor is given. *)
Module ChatError.
Record t := mk {
  message : string;
  code : option string;
  status : option Z;
  details : option Metadata
}.
End ChatError.

#[global] Instance MessageRole_eq_dec : EqDecision MessageRole.
Proof. solve_decision. Defined.

#[global] Instance MessageStatus_eq_dec : EqDecision MessageStatus.
Proof. solve_decision. Defined.

#[global] Instance JobStatusType_eq_dec : EqDecision JobStatusType.
Proof. solve_decision. Defined.

#[global] Instance IngestStatus_eq_dec : EqDecision IngestStatus.
Proof. solve_decision. Defined.

(** The response to [POST /chat]; its [status] is always ["queued"]. *)
Module ChatResponse.
Record t := mk {
  job_id : string;
  job_status : JobStatusType;
  user_id : string
}.
End ChatResponse.

End Types.

Import Types.

(** ** The conversation store ([store/chat-store.ts]) *)

Module ChatStore.

Module ChatState.
Record t := mk {
  conversations : list Conversation.t;
  activeConversationId : option string;
  isLoading : bool;
  isSending : bool;
  error : option string;
  pendingJobs : gmap string PendingJob.t;
  settings : AppSettings.t;
  sidebarOpen : bool;
  uploadModalOpen : bool
}.
End ChatState.
Import ChatState.

Definition initialState : ChatState.t :=
  ChatState.mk [] None false false None ∅ DEFAULT_SETTINGS true false.

(** The assignments of an immer draft, one field at a time. *)
Definition set_conversations (cs : list Conversation.t) (s : ChatState.t) :=
  ChatState.mk cs (activeConversationId s) (isLoading s) (isSending s)
    (error s) (pendingJobs s) (settings s) (sidebarOpen s)
    (uploadModalOpen s).

Definition set_activeConversationId (a : option string) (s : ChatState.t) :=
  ChatState.mk (conversations s) a (isLoading s) (isSending s)
    (error s) (pendingJobs s) (settings s) (sidebarOpen s)
    (uploadModalOpen s).

Definition set_error (e : option string) (s : ChatState.t) :=
  ChatState.mk (conversations s) (activeConversationId s) (isLoading s)
    (isSending s) e (pendingJobs s) (settings s) (sidebarOpen s)
    (uploadModalOpen s).

Definition set_pendingJobs (p : gmap string PendingJob.t) (s : ChatState.t) :=
  ChatState.mk (conversations s) (activeConversationId s) (isLoading s)
    (isSending s) (error s) p (settings s) (sidebarOpen s)
    (uploadModalOpen s).

(** [conversations.find((c) => c.id === id)], with the index of the
    conversation found: the draft is then mutated at that index. *)
Definition find_conversation (id : string) (cs : list Conversation.t)
  : option (nat * Conversation.t) :=
  list_find (λ c, Conversation.id c = id) cs.

(** [messages.find((m) => m.id === id)] and
    [messages.findIndex((m) => m.id === id)]. *)
Definition find_message (id : string) (ms : list Message.t)
  : option (nat * Message.t) :=
  list_find (λ m, Message.id m = id) ms.

(** *** Conversation actions *)

(** [createConversation]: [id] is the value of [generateId()], [now] of
    [new Date()], [authUser] the user of the session store. *)
Definition createConversation (id : string) (now : Z)
    (authUser : option UserResponse.t) (s : ChatState.t) : ChatState.t :=
  let userId :=
    or_else (from_option UserResponse.user_id "" authUser)
      (or_else (AppSettings.userId (settings s)) "anonymous") in
  let newConversation :=
    Conversation.mk id "New Conversation" userId [] now now in
  set_error None
    (set_activeConversationId (Some id)
       (set_conversations (newConversation :: conversations s) s)).

Definition deleteConversation (id : string) (s : ChatState.t) : ChatState.t :=
  let cs :=
    match find_conversation id (conversations s) with
    | Some (index, _) => delete index (conversations s)
    | None => conversations s
    end in
  let s' := set_conversations cs s in
  if decide (activeConversationId s = Some id)
  then set_activeConversationId (Conversation.id <$> head cs) s'
  else s'.

Definition setActiveConversation (id : option string) (s : ChatState.t)
  : ChatState.t :=
  set_error None (set_activeConversationId id s).

Definition updateConversationTitle (now : Z) (id title : string)
    (s : ChatState.t) : ChatState.t :=
  match find_conversation id (conversations s) with
  | Some (i, conversation) =>
      let conversation' :=
        Conversation.mk (Conversation.id conversation) title
          (Conversation.userId conversation)
          (Conversation.messages conversation)
          (Conversation.createdAt conversation) now in
      set_conversations (<[i := conversation']> (conversations s)) s
  | None => s
  end.

Definition clearConversations (s : ChatState.t) : ChatState.t :=
  set_pendingJobs ∅
    (set_activeConversationId None (set_conversations [] s)).

(** *** Message actions *)

Definition is_user (m : Message.t) : bool :=
  bool_decide (Message.role m = user).

(** The message object [addMessage] builds. *)
Definition newMessage (messageId : string) (now : Z) (role : MessageRole)
    (content : string) (metadata : option Metadata) : Message.t :=
  Message.mk messageId role content now
    (if decide (role = user) then Some sent else None) metadata.

Section WithTitle.

(** [extractConversationTitle] of [lib/utils], which [src/] does not
    hold: a pure function of the message text. *)
Variable extractConversationTitle : string → string.

(** [addMessage]: [messageId] is the value of [generateId()] (and the
    value the action returns), [now] of [new Date()]. *)
Definition addMessage (messageId : string) (now : Z)
    (conversationId : string) (role : MessageRole) (content : string)
    (metadata : option Metadata) (s : ChatState.t) : ChatState.t :=
  let newMessage := newMessage messageId now role content metadata in
  match find_conversation conversationId (conversations s) with
  | Some (i, conversation) =>
      let messages :=
        (Conversation.messages conversation ++ [newMessage])%list in
      let title :=
        if bool_decide (role = user)
           && (length (filter is_user messages) =? 1)%nat
        then extractConversationTitle content
        else Conversation.title conversation in
      let conversation' :=
        Conversation.mk (Conversation.id conversation) title
          (Conversation.userId conversation) messages
          (Conversation.createdAt conversation) now in
      set_conversations (<[i := conversation']> (conversations s)) s
  | None => s
  end.

End WithTitle.

(** [Object.assign(message, updates)]. *)
Definition assign_message (message : Message.t) (updates : MessageUpdates.t)
  : Message.t :=
  Message.mk
    (default (Message.id message) (MessageUpdates.id updates))
    (default (Message.role message) (MessageUpdates.role updates))
    (default (Message.content message) (MessageUpdates.content updates))
    (default (Message.timestamp message) (MessageUpdates.timestamp updates))
    (default (Message.status message) (MessageUpdates.status updates))
    (default (Message.metadata message) (MessageUpdates.metadata updates)).

Definition updateMessage (now : Z) (conversationId messageId : string)
    (updates : MessageUpdates.t) (s : ChatState.t) : ChatState.t :=
  match find_conversation conversationId (conversations s) with
  | Some (i, conversation) =>
      match find_message messageId (Conversation.messages conversation) with
      | Some (j, message) =>
          let conversation' :=
            Conversation.mk (Conversation.id conversation)
              (Conversation.title conversation)
              (Conversation.userId conversation)
              (<[j := assign_message message updates]>
                 (Conversation.messages conversation))
              (Conversation.createdAt conversation) now in
          set_conversations (<[i := conversation']> (conversations s)) s
      | None => s
      end
  | None => s
  end.

Definition updateMessageStatus (now : Z) (conversationId messageId : string)
    (status : MessageStatus) (s : ChatState.t) : ChatState.t :=
  updateMessage now conversationId messageId
    (MessageUpdates.mk None None None None (Some (Some status)) None) s.

Definition deleteMessage (now : Z) (conversationId messageId : string)
    (s : ChatState.t) : ChatState.t :=
  match find_conversation conversationId (conversations s) with
  | Some (i, conversation) =>
      match find_message messageId (Conversation.messages conversation) with
      | Some (index, _) =>
          let conversation' :=
            Conversation.mk (Conversation.id conversation)
              (Conversation.title conversation)
              (Conversation.userId conversation)
              (delete index (Conversation.messages conversation))
              (Conversation.createdAt conversation) now in
          set_conversations (<[i := conversation']> (conversations s)) s
      | None => s
      end
  | None => s
  end.

(** *** Job tracking actions *)

Definition addPendingJob (job : PendingJob.t) (s : ChatState.t) : ChatState.t :=
  set_pendingJobs (<[PendingJob.jobId job := job]> (pendingJobs s)) s.

Definition removePendingJob (jobId : string) (s : ChatState.t) : ChatState.t :=
  set_pendingJobs (delete jobId (pendingJobs s)) s.

(** [Object.assign(job, updates)]. *)
Definition assign_job (job : PendingJob.t) (updates : PendingJobUpdates.t)
  : PendingJob.t :=
  PendingJob.mk
    (default (PendingJob.jobId job) (PendingJobUpdates.jobId updates))
    (default (PendingJob.messageId job) (PendingJobUpdates.messageId updates))
    (default (PendingJob.conversationId job)
       (PendingJobUpdates.conversationId updates))
    (default (PendingJob.query job) (PendingJobUpdates.query updates))
    (default (PendingJob.startedAt job) (PendingJobUpdates.startedAt updates))
    (default (PendingJob.pollCount job) (PendingJobUpdates.pollCount updates)).

Definition updatePendingJob (jobId : string) (updates : PendingJobUpdates.t)
    (s : ChatState.t) : ChatState.t :=
  match pendingJobs s !! jobId with
  | Some job =>
      set_pendingJobs (<[jobId := assign_job job updates]> (pendingJobs s)) s
  | None => s
  end.

Definition getPendingJob (jobId : string) (s : ChatState.t)
  : option PendingJob.t :=
  pendingJobs s !! jobId.

(** *** Accessors *)

Definition getConversation (id : string) (s : ChatState.t)
  : option Conversation.t :=
  snd <$> find_conversation id (conversations s).

Definition getActiveConversation (s : ChatState.t) : option Conversation.t :=
  match activeConversationId s with
  | Some a => if truthy a then getConversation a s else None
  | None => None
  end.

Definition getMessages (conversationId : string) (s : ChatState.t)
  : list Message.t :=
  from_option Conversation.messages [] (getConversation conversationId s).

(** *** Loading, error, settings and UI actions *)

Definition setLoading (loading : bool) (s : ChatState.t) : ChatState.t :=
  ChatState.mk (conversations s) (activeConversationId s) loading
    (isSending s) (error s) (pendingJobs s) (settings s) (sidebarOpen s)
    (uploadModalOpen s).

Definition setSending (sending : bool) (s : ChatState.t) : ChatState.t :=
  ChatState.mk (conversations s) (activeConversationId s) (isLoading s)
    sending (error s) (pendingJobs s) (settings s) (sidebarOpen s)
    (uploadModalOpen s).

Definition setError (e : option string) (s : ChatState.t) : ChatState.t :=
  set_error e s.

Definition clearError (s : ChatState.t) : ChatState.t := set_error None s.

(** [Partial<AppSettings>]. *)
Module SettingsUpdates.
Record t := mk {
  userId : option string;
  theme : option Theme;
  pollIntervalMs : option Z;
  maxPollAttempts : option Z;
  autoScroll : option bool;
  soundEnabled : option bool
}.
End SettingsUpdates.

Definition set_settings (a : AppSettings.t) (s : ChatState.t) : ChatState.t :=
  ChatState.mk (conversations s) (activeConversationId s) (isLoading s)
    (isSending s) (error s) (pendingJobs s) a (sidebarOpen s)
    (uploadModalOpen s).

Definition updateSettings (u : SettingsUpdates.t) (s : ChatState.t)
  : ChatState.t :=
  let a := settings s in
  set_settings
    (AppSettings.mk
       (default (AppSettings.userId a) (SettingsUpdates.userId u))
       (default (AppSettings.theme a) (SettingsUpdates.theme u))
       (default (AppSettings.pollIntervalMs a)
          (SettingsUpdates.pollIntervalMs u))
       (default (AppSettings.maxPollAttempts a)
          (SettingsUpdates.maxPollAttempts u))
       (default (AppSettings.autoScroll a) (SettingsUpdates.autoScroll u))
       (default (AppSettings.soundEnabled a)
          (SettingsUpdates.soundEnabled u))) s.

Definition resetSettings (s : ChatState.t) : ChatState.t :=
  set_settings DEFAULT_SETTINGS s.

Definition setSidebarOpen (open : bool) (s : ChatState.t) : ChatState.t :=
  ChatState.mk (conversations s) (activeConversationId s) (isLoading s)
    (isSending s) (error s) (pendingJobs s) (settings s) open
    (uploadModalOpen s).

Definition toggleSidebar (s : ChatState.t) : ChatState.t :=
  setSidebarOpen (negb (sidebarOpen s)) s.

Definition setUploadModalOpen (open : bool) (s : ChatState.t) : ChatState.t :=
  ChatState.mk (conversations s) (activeConversationId s) (isLoading s)
    (isSending s) (error s) (pendingJobs s) (settings s) (sidebarOpen s)
    open.

(** *** Calls to the store

    One constructor per action of [ChatActions] that changes the state;
    a call carries what the action reads from its surroundings. *)

Inductive Call :=
| CreateConversation (id : string) (authUser : option UserResponse.t)
| DeleteConversation (id : string)
| SetActiveConversation (id : option string)
| UpdateConversationTitle (id title : string)
| ClearConversations
| AddMessage (messageId conversationId : string) (role : MessageRole)
    (content : string) (metadata : option Metadata)
| UpdateMessage (conversationId messageId : string)
    (updates : MessageUpdates.t)
| UpdateMessageStatus (conversationId messageId : string)
    (status : MessageStatus)
| DeleteMessage (conversationId messageId : string)
| AddPendingJob (job : PendingJob.t)
| RemovePendingJob (jobId : string)
| UpdatePendingJob (jobId : string) (updates : PendingJobUpdates.t)
| SetLoading (loading : bool)
| SetSending (sending : bool)
| SetError (e : option string)
| ClearError
| UpdateSettings (u : SettingsUpdates.t)
| ResetSettings
| ToggleSidebar
| SetSidebarOpen (open : bool)
| SetUploadModalOpen (open : bool).

Section Calls.

Variable extractConversationTitle : string → string.

(** The call [c] made when the clock reads [now]. *)
Definition dispatch (now : Z) (c : Call) (s : ChatState.t) : ChatState.t :=
  match c with
  | CreateConversation id authUser => createConversation id now authUser s
  | DeleteConversation id => deleteConversation id s
  | SetActiveConversation id => setActiveConversation id s
  | UpdateConversationTitle id title => updateConversationTitle now id title s
  | ClearConversations => clearConversations s
  | AddMessage messageId conversationId role content metadata =>
      addMessage extractConversationTitle messageId now conversationId
        role content metadata s
  | UpdateMessage conversationId messageId updates =>
      updateMessage now conversationId messageId updates s
  | UpdateMessageStatus conversationId messageId status =>
      updateMessageStatus now conversationId messageId status s
  | DeleteMessage conversationId messageId =>
      deleteMessage now conversationId messageId s
  | AddPendingJob job => addPendingJob job s
  | RemovePendingJob jobId => removePendingJob jobId s
  | UpdatePendingJob jobId updates => updatePendingJob jobId updates s
  | SetLoading loading => setLoading loading s
  | SetSending flag => setSending flag s
  | SetError e => setError e s
  | ClearError => clearError s
  | UpdateSettings u => updateSettings u s
  | ResetSettings => resetSettings s
  | ToggleSidebar => toggleSidebar s
  | SetSidebarOpen open => setSidebarOpen open s
  | SetUploadModalOpen open => setUploadModalOpen open s
  end.

(** A sequence of calls, each with the clock reading it is made at. *)
Fixpoint run (calls : list (Z * Call)) (s : ChatState.t) : ChatState.t :=
  match calls with
  | [] => s
  | (now, c) :: calls => run calls (dispatch now c s)
  end.

End Calls.

(** *** Rehydration ([onRehydrateStorage] of the persist configuration)

    The record read back from storage holds its dates in serialized
    form; [Date_parse s] is the instant of [new Date(s)]. *)

Module StoredMessage.
Record t := mk {
  id : string;
  role : MessageRole;
  content : string;
  timestamp : string;
  status : option MessageStatus;
  metadata : option Metadata
}.
End StoredMessage.

Module StoredConversation.
Record t := mk {
  id : string;
  title : string;
  userId : string;
  messages : list StoredMessage.t;
  createdAt : string;
  updatedAt : string
}.
End StoredConversation.

(** The two fields of the hydrated state that the callback reads, and
    the two it assigns; it touches no other field. *)
Module Hydrated.
Record t := mk {
  conversations : list StoredConversation.t;
  activeConversationId : option string
}.
End Hydrated.

Module Rehydrated.
Record t := mk {
  conversations : list Conversation.t;
  activeConversationId : option string
}.
End Rehydrated.

Section Rehydrate.

Variable Date_parse : string → Z.

Definition revive_message (msg : StoredMessage.t) : Message.t :=
  Message.mk (StoredMessage.id msg) (StoredMessage.role msg)
    (StoredMessage.content msg) (Date_parse (StoredMessage.timestamp msg))
    (StoredMessage.status msg) (StoredMessage.metadata msg).

Definition revive_conversation (conv : StoredConversation.t)
  : Conversation.t :=
  Conversation.mk (StoredConversation.id conv)
    (StoredConversation.title conv) (StoredConversation.userId conv)
    (revive_message <$> StoredConversation.messages conv)
    (Date_parse (StoredConversation.createdAt conv))
    (Date_parse (StoredConversation.updatedAt conv)).

(** [conv.userId === currentUserId || conv.userId === 'anonymous']. *)
Definition owned_by (currentUserId : string) (conv : Conversation.t)
  : Prop :=
  Conversation.userId conv = currentUserId
  ∨ Conversation.userId conv = "anonymous".

(** The callback, for a hydrated [state] that is present; [authUser]
    is [useAuthStore.getState().user]. *)
Definition onRehydrateStorage (authUser : option UserResponse.t)
    (state : Hydrated.t) : Rehydrated.t :=
  let currentUserId := UserResponse.user_id <$> authUser in
  let conversations :=
    revive_conversation <$> Hydrated.conversations state in
  let conversations :=
    match currentUserId with
    | Some uid =>
        if truthy uid
        then filter (owned_by uid) conversations
        else []
    | None => []
    end in
  let activeConversationId :=
    match Hydrated.activeConversationId state with
    | Some a =>
        if truthy a
        then match find_conversation a conversations with
             | Some _ => Some a
             | None => None
             end
        else Some a
    | None => None
    end in
  Rehydrated.mk conversations activeConversationId.

End Rehydrate.

(** *** What is persisted ([partialize] and the JSON storage)

    [Date_toJSON t] is what [JSON.stringify] writes for the [Date] of
    instant [t]. *)

Section Persist.

Variable Date_toJSON : Z → string.

Definition store_message (msg : Message.t) : StoredMessage.t :=
  StoredMessage.mk (Message.id msg) (Message.role msg) (Message.content msg)
    (Date_toJSON (Message.timestamp msg)) (Message.status msg)
    (Message.metadata msg).

Definition store_conversation (conv : Conversation.t) : StoredConversation.t :=
  StoredConversation.mk (Conversation.id conv) (Conversation.title conv)
    (Conversation.userId conv)
    (store_message <$> Conversation.messages conv)
    (Date_toJSON (Conversation.createdAt conv))
    (Date_toJSON (Conversation.updatedAt conv)).

(** The conversations and the active id of [partialize (state)], as they
    are read back from the storage. *)
Definition partialize (s : ChatState.t) : Hydrated.t :=
  Hydrated.mk (store_conversation <$> conversations s)
    (activeConversationId s).

End Persist.

(** [useUserId] of the store: the id of the signed-in user, else the id
    of the settings, else [null]. *)
Definition useUserId (authUser : option UserResponse.t) (s : ChatState.t)
  : option string :=
  let authUserId := from_option UserResponse.user_id "" authUser in
  let settingsUserId := AppSettings.userId (settings s) in
  if truthy authUserId then Some authUserId
  else if truthy settingsUserId then Some settingsUserId
  else None.

End ChatStore.

(** ** The session store ([store/auth-store.ts]) *)

Module AuthStore.

Module AuthStoreState.
Record t := mk {
  isAuthenticated : bool;
  user : option UserResponse.t;
  token : option string;
  expiresAt : option Q;
  isLoading : bool;
  isInitialized : bool;
  error : option string
}.
End AuthStoreState.
Import AuthStoreState.

Definition initialState : AuthStoreState.t :=
  AuthStoreState.mk false None None None false false None.

(** The names of the two persisted records. *)
Definition CHAT_STORAGE : string := "rag-chat-storage".
Definition AUTH_STORAGE : string := "rag-auth-storage".

(** What an action does to its surroundings, in the order it does it. *)
Inductive Effect :=
| RemoveItem (key : string)
| SetState (s : AuthStoreState.t)
| SetItem (key value : string).

(** The store together with [localStorage] and the effects so far
    (oldest first). *)
Module World.
Record t := mk {
  state : AuthStoreState.t;
  localStorage : gmap string string;
  effects : list Effect
}.
End World.
Import World.

(** [Date.now() >= x] and [x] used as a condition, for a number. *)
Definition Qge_bool (a b : Q) : bool := Qle_bool b a.
Definition truthy_num (x : Q) : bool := negb (Qeq_bool x 0).

(** [isTokenExpired], [now] being the value of [Date.now()]. *)
Definition isTokenExpired (now : Z) (s : AuthStoreState.t) : bool :=
  match token s, expiresAt s with
  | Some token, Some expiresAt =>
      if negb (truthy token) || negb (truthy_num expiresAt)
      then true
      else Qge_bool (inject_Z now) (expiresAt - 30000)
  | _, _ => true
  end.

Definition getAuthHeader (now : Z) (s : AuthStoreState.t)
  : option (string * string) :=
  let isExpired := isTokenExpired now s in
  match token s with
  | Some token =>
      if negb (isAuthenticated s) || negb (truthy token) || isExpired
      then None
      else Some ("Authorization", ("Bearer " ++ token)%string)
  | None => None
  end.

Section Persisted.

(** [JSON.stringify] of the record [partialize] selects from a state
    (authentication flag, user, token, expiry). *)
Variable serialize : AuthStoreState.t → string.

Definition removeItem (key : string) (w : World.t) : World.t :=
  World.mk (state w) (delete key (localStorage w))
    (effects w ++ [RemoveItem key]).

(** [set] of the persisted store: the draft is committed, then the
    persist middleware writes the session record. *)
Definition set (f : AuthStoreState.t → AuthStoreState.t) (w : World.t)
  : World.t :=
  let s := f (state w) in
  World.mk s (<[AUTH_STORAGE := serialize s]> (localStorage w))
    (effects w ++ [SetState s; SetItem AUTH_STORAGE (serialize s)]).

(** [login], [now] being the value of [Date.now()]. *)
Definition login (now : Z) (response : TokenResponse.t) (w : World.t)
  : World.t :=
  let expiresAt := (inject_Z now + TokenResponse.expires_in response * 1000)%Q in
  let previousUserId := UserResponse.user_id <$> user (state w) in
  let newUserId := UserResponse.user_id (TokenResponse.user response) in
  let w :=
    if truthy_opt previousUserId
       && negb (bool_decide (previousUserId = Some newUserId))
    then removeItem CHAT_STORAGE w
    else w in
  set (λ s,
       AuthStoreState.mk true (Some (TokenResponse.user response))
         (Some (TokenResponse.access_token response)) (Some expiresAt)
         false (isInitialized s) None) w.

Definition logout (w : World.t) : World.t :=
  let w :=
    if truthy_opt (localStorage w !! CHAT_STORAGE)
    then removeItem CHAT_STORAGE w
    else w in
  set (λ s,
       AuthStoreState.mk false None None None (isLoading s)
         (isInitialized s) None) w.

Definition initialize (now : Z) (w : World.t) : World.t :=
  set (λ s,
       match token s, expiresAt s with
       | Some token, Some expiresAt =>
           if truthy token && truthy_num expiresAt
              && Qge_bool (inject_Z now) expiresAt
           then AuthStoreState.mk false None None None (isLoading s)
                  true (error s)
           else AuthStoreState.mk (isAuthenticated s) (user s)
                  (AuthStoreState.token s) (AuthStoreState.expiresAt s)
                  (isLoading s) true (error s)
       | _, _ =>
           AuthStoreState.mk (isAuthenticated s) (user s)
             (AuthStoreState.token s) (AuthStoreState.expiresAt s)
             (isLoading s) true (error s)
       end) w.

Definition setUser (u : UserResponse.t) (w : World.t) : World.t :=
  set (λ s,
       AuthStoreState.mk (isAuthenticated s) (Some u) (token s)
         (expiresAt s) (isLoading s) (isInitialized s) (error s)) w.

(** [setToken], [now] being the value of [Date.now()]. *)
Definition setToken (now : Z) (new_token : string) (expiresIn : Q)
    (w : World.t) : World.t :=
  let expiresAt := (inject_Z now + expiresIn * 1000)%Q in
  set (λ s,
       AuthStoreState.mk true (user s) (Some new_token) (Some expiresAt)
         (isLoading s) (isInitialized s) (error s)) w.

End Persisted.

(** [onRehydrateStorage] of the session store, for a hydrated [state]
    that is present: the callback assigns to the state it is given. *)
Definition onRehydrateStorage (now : Z) (state : AuthStoreState.t)
  : AuthStoreState.t :=
  match token state, expiresAt state with
  | Some t, Some e =>
      if truthy t && truthy_num e
      then
        if Qge_bool (inject_Z now) e
        then AuthStoreState.mk false None None None (isLoading state) true
               (error state)
        else AuthStoreState.mk (isAuthenticated state) (user state)
               (token state) (expiresAt state) (isLoading state) true
               (error state)
      else AuthStoreState.mk (isAuthenticated state) (user state)
             (token state) (expiresAt state) (isLoading state) true
             (error state)
  | _, _ =>
      AuthStoreState.mk (isAuthenticated state) (user state) (token state)
        (expiresAt state) (isLoading state) true (error state)
  end.

End AuthStore.

(** ** Job polling and ranged upload ([lib/api.ts]) *)

Module Api.

(** What is thrown, and what an [async] function settles to. *)
Inductive Thrown :=
| ThrowChatError (e : ChatError.t)
| ThrowError (message : string).

Inductive Settled (A : Type) :=
| Returned (value : A)
| Threw (e : Thrown).
Arguments Returned {A} value.
Arguments Threw {A} e.

(** *** [pollJobUntilComplete] *)

(** The numbers of [PollOptions]; the calls of [onPoll] are recorded in
    the run. *)
Module PollOptions.
Record t := mk {
  initialInterval : option Q;
  maxInterval : option Q;
  timeout : option Q
}.
End PollOptions.

Definition defaultOptions : PollOptions.t := PollOptions.mk None None None.

(** The surroundings of one polling loop: [Date_now k] is the value of
    the [k]-th reading of [Date.now()] the loop makes ([Date_now 0] is
    [startTime], [Date_now n] the reading of the [n]-th loop test);
    [getJobStatus jobId n] is what the [n]-th status request for
    [jobId] settles to (a rejection or a response). *)
Module PollEnv.
Record t := mk {
  Date_now : nat → Z;
  getJobStatus : string → nat → ChatError.t + JobStatusResponse.t
}.
End PollEnv.

(** What the loop has done: how it settled ([None] while it is still
    running), the value of [attempt], the calls of [onPoll] and the
    delays handed to [setTimeout], oldest first. *)
Module PollRun.
Record t := mk {
  outcome : option (Settled JobStatusResponse.t);
  attempt : nat;
  polled : list (nat * JobStatusResponse.t);
  delays : list Q
}.
End PollRun.

(** [a < b] on numbers. *)
Definition Qlt_bool (a b : Q) : bool := negb (Qle_bool b a).

(** [status.error || "Job processing failed"]. *)
Definition failure_message (e : option string) : string :=
  or_else (default "" e) "Job processing failed".

Definition JOB_FAILED (e : option string) : Thrown :=
  ThrowChatError
    (ChatError.mk (failure_message e) (Some "JOB_FAILED") None None).

Definition JOB_NOT_FOUND : Thrown :=
  ThrowChatError
    (ChatError.mk "Job not found. It may have expired."
       (Some "JOB_NOT_FOUND") None None).

Definition POLL_TIMEOUT : Thrown :=
  ThrowChatError
    (ChatError.mk "Job polling timed out. Please try again."
       (Some "POLL_TIMEOUT") None None).

Section Poll.

Variable env : PollEnv.t.
Variable jobId : string.

(** The [while] loop, run for at most [fuel] iterations. *)
Fixpoint poll_loop (fuel : nat) (startTime : Z) (timeout maxInterval : Q)
    (attempt : nat) (interval : Q)
    (polled : list (nat * JobStatusResponse.t)) (delays : list Q)
  : PollRun.t :=
  match fuel with
  | O => PollRun.mk None attempt polled delays
  | S fuel =>
      if Qlt_bool (inject_Z (PollEnv.Date_now env (S attempt) - startTime))
           timeout
      then
        let attempt := S attempt in
        match PollEnv.getJobStatus env jobId attempt with
        | inl e =>
            PollRun.mk (Some (Threw (ThrowChatError e))) attempt polled
              delays
        | inr status =>
            let polled := (polled ++ [(attempt, status)])%list in
            match JobStatusResponse.status status with
            | finished =>
                PollRun.mk (Some (Returned status)) attempt polled delays
            | failed =>
                PollRun.mk
                  (Some (Threw (JOB_FAILED (JobStatusResponse.error status))))
                  attempt polled delays
            | not_found =>
                PollRun.mk (Some (Threw JOB_NOT_FOUND)) attempt polled
                  delays
            | _ =>
                poll_loop fuel startTime timeout maxInterval attempt
                  (Qmin (interval * (3 # 2)) maxInterval) polled
                  (delays ++ [interval])%list
            end
        end
      else PollRun.mk (Some (Threw POLL_TIMEOUT)) attempt polled delays
  end.

Definition pollJobUntilComplete (fuel : nat) (options : PollOptions.t)
  : PollRun.t :=
  let initialInterval := default 500%Q (PollOptions.initialInterval options) in
  let maxInterval := default 3000%Q (PollOptions.maxInterval options) in
  let timeout := default 120000%Q (PollOptions.timeout options) in
  let startTime := PollEnv.Date_now env 0 in
  poll_loop fuel startTime timeout maxInterval 0 initialInterval [] [].

End Poll.

(** The whole milliseconds a timer set with [setTimeout(f, delay)] waits:
    the host drops the fraction of [delay], and takes a negative one
    as zero. *)
Definition timer_ms (delay : Q) : Z :=
  Z.max 0 (Z.quot (Qnum delay) (Z.pos (Qden delay))).

(** *** [documentApi.ingestRange] *)

(** A [File]: its bytes matter here only through their number. *)
Module File.
Record t := mk {
  name : string;
  size : Z;
  type : string
}.
End File.

Module RangeOptions.
Record t := mk {
  chunkSize : option Z;
  concurrency : option Z;
  uploadId : option string
}.
End RangeOptions.

(** An entry of [chunks]; its blob is [file.slice(start, end + 1)]. *)
Module Chunk.
Record t := mk {
  start : Z;
  end_ : Z
}.
End Chunk.

(** A request to [/ingest-range]: the [upload_id] parameter and the
    [bytes start-end/total] of its two range headers. *)
Module RangeRequest.
Record t := mk {
  upload_id : string;
  range_start : Z;
  range_end : Z;
  range_total : Z;
  file_name : string
}.
End RangeRequest.

(** The surroundings of one ranged upload: [generated_id] is the value
    of the template built from the file name, [Date.now()] and
    [Math.random()]; [post r] is what request [r] settles to. *)
Module UploadEnv.
Record t := mk {
  generated_id : string;
  post : RangeRequest.t → ChatError.t + IngestDocumentResponse.t
}.
End UploadEnv.

(** The first [for] loop, run for at most [fuel] iterations; [None]
    when it is still running after that many. *)
Fixpoint build_chunks (fuel : nat) (total chunkSize start : Z)
  : option (list Chunk.t) :=
  match fuel with
  | O => None
  | S fuel =>
      if start <? total
      then
        let end_ := Z.min (start + chunkSize) total - 1 in
        cons (Chunk.mk start end_)
          <$> build_chunks fuel total chunkSize (start + chunkSize)
      else Some []
  end.

(** What the upload has done: the requests issued (oldest first),
    [finalResponse], and the rejection that made [Promise.all] reject. *)
Module UploadRun.
Record t := mk {
  issued : list RangeRequest.t;
  finalResponse : option IngestDocumentResponse.t;
  rejected : option ChatError.t
}.
End UploadRun.

Definition incomplete : Thrown :=
  ThrowError "Upload did not complete. No final response received.".

Section Upload.

Variable env : UploadEnv.t.
Variable file : File.t.

Definition request_of (uploadId : string) (chunk : Chunk.t)
  : RangeRequest.t :=
  RangeRequest.mk uploadId (Chunk.start chunk) (Chunk.end_ chunk)
    (File.size file) (File.name file).

(** The continuation of one part after its request resolved with
    [data]. *)
Definition part_resolved (chunk : Chunk.t) (data : IngestDocumentResponse.t)
    (finalResponse : option IngestDocumentResponse.t)
  : option IngestDocumentResponse.t :=
  if (Chunk.end_ chunk + 1 =? File.size file)
     && bool_decide (IngestDocumentResponse.status data = success)
  then Some data
  else finalResponse.

(** One batch: every request of the batch is issued; the parts that
    resolve run their continuation; a part that rejects makes
    [Promise.all] reject.  The parts of a batch settle in an order the
    code does not fix; they are taken here in the order of the
    batch. *)
Fixpoint upload_batch (uploadId : string) (batch : list Chunk.t)
    (r : UploadRun.t) : UploadRun.t :=
  match batch with
  | [] => r
  | chunk :: batch =>
      let request := request_of uploadId chunk in
      let r :=
        match UploadEnv.post env request with
        | inr data =>
            UploadRun.mk (UploadRun.issued r ++ [request])%list
              (part_resolved chunk data (UploadRun.finalResponse r))
              (UploadRun.rejected r)
        | inl e =>
            UploadRun.mk (UploadRun.issued r ++ [request])%list
              (UploadRun.finalResponse r)
              (Some (default e (UploadRun.rejected r)))
        end in
      upload_batch uploadId batch r
  end.

(** The second [for] loop, over [i]; [fuel] bounds its iterations.  It
    is left as soon as a batch rejected. *)
Fixpoint upload_batches (fuel : nat) (uploadId : string)
    (concurrency : nat) (chunks : list Chunk.t) (i : nat) (r : UploadRun.t)
  : UploadRun.t :=
  match fuel with
  | O => r
  | S fuel =>
      if (i <? length chunks)%nat
      then
        let batch := take concurrency (drop i chunks) in
        let r := upload_batch uploadId batch r in
        match UploadRun.rejected r with
        | Some _ => r
        | None =>
            upload_batches fuel uploadId concurrency chunks
              (i + concurrency)%nat r
        end
      else r
  end.

(** [ingestRange]: [None] when the chunking loop is still running after
    [fuel] iterations, otherwise the requests issued and what the call
    settles to.  The loop over the batches advances by [concurrency],
    which the clamp makes at least 1: [chunks.length] iterations are
    enough for it. *)
Definition ingestRange (fuel : nat) (options : RangeOptions.t)
  : option (list RangeRequest.t * Settled IngestDocumentResponse.t) :=
  let chunkSize := default (5 * 1024 * 1024) (RangeOptions.chunkSize options) in
  let concurrency :=
    Z.max 1 (Z.min (default 4 (RangeOptions.concurrency options)) 8) in
  let uploadId :=
    default (UploadEnv.generated_id env) (RangeOptions.uploadId options) in
  let total := File.size file in
  chunks ← build_chunks fuel total chunkSize 0;
  let r :=
    upload_batches (length chunks) uploadId (Z.to_nat concurrency) chunks
      0%nat (UploadRun.mk [] None None) in
  Some
    (UploadRun.issued r,
     match UploadRun.rejected r with
     | Some e => Threw (ThrowChatError e)
     | None =>
         match UploadRun.finalResponse r with
         | Some finalResponse => Returned finalResponse
         | None => Threw incomplete
         end
     end).

End Upload.

(** *** [documentApi.ingestSmart], [ingest] and [ingestMultiple] *)

Module IngestOptions.
Record t := mk {
  useChunking : option bool;
  chunkSize : option Z;
  concurrency : option Z;
  thresholdBytes : option Z;
  uploadId : option string
}.
End IngestOptions.

Definition no_options : IngestOptions.t :=
  IngestOptions.mk None None None None None.

(** The surroundings of [ingestSmart]: those of a ranged upload, and what
    the single request to [/ingest] for a file settles to. *)
Module IngestEnv.
Record t := mk {
  ranged : UploadEnv.t;
  post_ingest : File.t → ChatError.t + IngestDocumentResponse.t
}.
End IngestEnv.

(** How a file went up: in ranges, with the requests issued, or in one
    request. *)
Inductive Route :=
| RangedUpload (requests : list RangeRequest.t)
| SingleUpload.

Definition ingestSmart (env : IngestEnv.t) (file : File.t) (fuel : nat)
    (options : IngestOptions.t)
  : option (Route * Settled IngestDocumentResponse.t) :=
  let chunkSize := default (5 * 1024 * 1024) (IngestOptions.chunkSize options) in
  let threshold := default chunkSize (IngestOptions.thresholdBytes options) in
  let concurrency :=
    Z.max 1 (Z.min (default 4 (IngestOptions.concurrency options)) 8) in
  if default false (IngestOptions.useChunking options)
     || (threshold <? File.size file)
  then
    '(requests, settled) ←
      ingestRange (IngestEnv.ranged env) file fuel
        (RangeOptions.mk (Some chunkSize) (Some concurrency)
           (IngestOptions.uploadId options));
    Some (RangedUpload requests, settled)
  else
    Some
      (SingleUpload,
       match IngestEnv.post_ingest env file with
       | inr data => Returned data
       | inl e => Threw (ThrowChatError e)
       end).

Definition ingest (env : IngestEnv.t) (file : File.t) (fuel : nat)
    (options : option IngestOptions.t)
  : option (Route * Settled IngestDocumentResponse.t) :=
  ingestSmart env file fuel (default no_options options).

(** A call of [onProgress]. *)
Module Progress.
Record t := mk {
  completed : nat;
  total : nat;
  current : File.t
}.
End Progress.

Section IngestMultiple.

(** What [this.ingest(file)] settles to ([None]: it is still running). *)
Variable ingest_file : File.t → option (Settled IngestDocumentResponse.t).

(** The loop of [ingestMultiple] from index [i] on: the calls of
    [onProgress] it makes, and what the call settles to. *)
Fixpoint ingestMultiple_from (total : nat) (files : list File.t) (i : nat)
    (results : list IngestDocumentResponse.t)
  : list Progress.t * option (Settled (list IngestDocumentResponse.t)) :=
  match files with
  | [] => ([], Some (Returned results))
  | file :: files =>
      match ingest_file file with
      | None => ([Progress.mk i total file], None)
      | Some (Threw e) => ([Progress.mk i total file], Some (Threw e))
      | Some (Returned result) =>
          let '(calls, settled) :=
            ingestMultiple_from total files (S i) (results ++ [result]) in
          (Progress.mk i total file :: Progress.mk (S i) total file :: calls,
           settled)
      end
  end.

Definition ingestMultiple (files : list File.t)
  : list Progress.t * option (Settled (list IngestDocumentResponse.t)) :=
  ingestMultiple_from (length files) files 0 [].

End IngestMultiple.

(** *** [sendMessageAndWait] *)

Definition NO_RESULT : Thrown :=
  ThrowChatError
    (ChatError.mk "No result returned from job" (Some "NO_RESULT") None None).

Section SendAndWait.

(** What [chatApi.sendMessage(query)] settles to. *)
Variable sendMessage : string → ChatError.t + ChatResponse.t.
Variable env : PollEnv.t.

Definition sendMessageAndWait (fuel : nat) (query : string)
    (options : option PollOptions.t) : option (Settled string) :=
  match sendMessage query with
  | inl e => Some (Threw (ThrowChatError e))
  | inr chatResponse =>
      match
        PollRun.outcome
          (pollJobUntilComplete env (ChatResponse.job_id chatResponse) fuel
             (default defaultOptions options))
      with
      | None => None
      | Some (Threw e) => Some (Threw e)
      | Some (Returned jobResult) =>
          if truthy_opt (JobStatusResponse.result jobResult)
          then Some (Returned (default "" (JobStatusResponse.result jobResult)))
          else Some (Threw NO_RESULT)
      end
  end.

End SendAndWait.

End Api.

(** ** The wiring of the API client ([lib/api.ts], [api-provider.tsx]) *)

Module ApiProvider.

(** The getter [ApiProvider] registers with [setAuthTokenGetter], [now]
    being the value of [Date.now()]. *)
Definition getAuthToken (now : Z) (s : AuthStore.AuthStoreState.t)
  : option string :=
  if negb (AuthStore.AuthStoreState.isAuthenticated s)
     || AuthStore.isTokenExpired now s
  then None
  else AuthStore.AuthStoreState.token s.

(** The request interceptor: the [Authorization] header it sets, if any.
    [getter] is [None] when no getter is registered, and otherwise what
    the getter returns. *)
Definition request_interceptor (getter : option (option string))
  : option (string * string) :=
  match getter with
  | Some (Some token) =>
      if truthy token
      then Some ("Authorization", ("Bearer " ++ token)%string)
      else None
  | _ => None
  end.

(** The response interceptor, as far as the session goes: on a response
    of status 401 it calls [onAuthError], which [ApiProvider] sets to
    [logout]. *)
Definition response_rejected (serialize : AuthStore.AuthStoreState.t → string)
    (status : option Z) (w : AuthStore.World.t) : AuthStore.World.t :=
  if bool_decide (status = Some 401)
  then AuthStore.logout serialize w
  else w.

End ApiProvider.

(** ** The chat hook ([hooks/use-chat.ts])

    What the callbacks of [useChat] do to the conversation store, one
    function for each stretch that runs without an [await].  The values
    the hook reads from its last render ([activeConversationId],
    [isAuthenticated]) are taken to be those of the current state. *)

Module UseChat.

Import ChatStore ChatStore.ChatState.

(** What one [sendMessage] draws from its surroundings: the ids
    [generateId()] gives and the instants [new Date()] gives, in the
    order of the calls. *)
Module Fresh.
Record t := mk {
  conversationId : string;
  createdAt : Z;
  userMessageId : string;
  userAt : Z;
  assistantMessageId : string;
  assistantAt : Z;
  placeholderAt : Z
}.
End Fresh.

(** What [sendMessage] keeps for after the [await]. *)
Module Turn.
Record t := mk {
  conversationId : string;
  userMessageId : string;
  assistantMessageId : string;
  query : string
}.
End Turn.

(** The message of what a [catch] clause caught. *)
Definition message_of (e : Api.Thrown) : string :=
  match e with
  | Api.ThrowChatError e => ChatError.message e
  | Api.ThrowError message => message
  end.

Definition sending_patch : MessageUpdates.t :=
  MessageUpdates.mk None None (Some "...") None (Some (Some sending)) None.

Definition error_patch (message : string) : MessageUpdates.t :=
  MessageUpdates.mk None None (Some ("Error: " ++ message)%string) None
    (Some (Some Types.error)) None.

Section Hook.

Variable extractConversationTitle : string → string.

(** [content.trim()]. *)
Variable trim : string → string.





(** [pollForResponse], after [pollJobUntilComplete] settled: [now1] and
    [now2] are the values of the two [Date.now()] of [processingTime]
    (the second is read only when the job has no start instant), [now]
    that of [new Date()]. *)
Definition pollForResponse_settled (jobId conversationId
    assistantMessageId : string)
    (settled : Api.Settled JobStatusResponse.t) (now1 now2 now : Z)
    (s : ChatState.t) : ChatState.t :=
  let s :=
    match settled with
    | Api.Returned result =>
        if truthy_opt (JobStatusResponse.result result)
        then
          let startedAt :=
            from_option PendingJob.startedAt 0 (getPendingJob jobId s) in
          let processingTime :=
            now1 - (if startedAt =? 0 then now2 else startedAt) in
          updateMessage now conversationId assistantMessageId
            (MessageUpdates.mk None None (JobStatusResponse.result result) None
               (Some (Some sent))
               (Some (Some {[ "jobId" := JsStr jobId;
                              "processingTime" :=
                                JsNum (inject_Z processingTime) ]}))) s
        else s
    | Api.Threw err =>
        setError (Some (message_of err))
          (updateMessage now conversationId assistantMessageId
             (error_patch (message_of err)) s)
    end in
  removePendingJob jobId s.

(** [cancelJob], as far as the store goes. *)
Definition cancelJob (now : Z) (jobId : string) (s : ChatState.t)
  : ChatState.t :=
  let s := removePendingJob jobId s in
  match getPendingJob jobId s with
  | Some job =>
      updateMessage now (PendingJob.conversationId job)
        (PendingJob.messageId job)
        (MessageUpdates.mk None None (Some "Request cancelled") None
           (Some (Some Types.error)) None) s
  | None => s
  end.

(** [retryMessage], up to the request: [None] when it returns early. *)
Definition retryMessage_begin (isAuthenticated : bool) (now : Z)
    (messageId : string) (s : ChatState.t) : option Turn.t * ChatState.t :=
  match getActiveConversation s with
  | None => (None, s)
  | Some conversation =>
      if negb isAuthenticated
      then (None, setError (Some "Please sign in to retry messages") s)
      else
        match find_message messageId (Conversation.messages conversation) with
        | None => (None, s)
        | Some (messageIndex, message) =>
            if negb (bool_decide (Message.role message = user))
            then (None, s)
            else
              match
                Conversation.messages conversation !! S messageIndex
              with
              | None => (None, s)
              | Some assistantMessage =>
                  if negb (bool_decide
                             (Message.role assistantMessage = assistant))
                  then (None, s)
                  else
                    let s :=
                      updateMessage now (Conversation.id conversation)
                        (Message.id assistantMessage) sending_patch s in
                    (Some
                       (Turn.mk (Conversation.id conversation)
                          (Message.id message) (Message.id assistantMessage)
                          (Message.content message)),
                     clearError (setSending true s))
              end
        end
  end.

End Hook.

End UseChat.

(** ** Vocabulary of the statements *)

Import ChatStore ChatStore.ChatState.

(** What a reader of the store sees of conversation [id]. *)
Definition title_of (id : string) (s : ChatState.t) : option string :=
  Conversation.title <$> getConversation id s.

Definition updatedAt_of (id : string) (s : ChatState.t) : option Z :=
  Conversation.updatedAt <$> getConversation id s.

Definition conversation_ids (s : ChatState.t) : list string :=
  Conversation.id <$> conversations s.

(** The number of user-role messages of a conversation, as [addMessage]
    counts them. *)
Definition user_count (c : Conversation.t) : nat :=
  length (filter is_user (Conversation.messages c)).

(** Every conversation of the store was stamped at [t] or before. *)
Definition stamped_by (t : Z) (s : ChatState.t) : Prop :=
  Forall (λ c, Conversation.updatedAt c ≤ t) (conversations s).

(** One [addMessage] call on a conversation: the clock reading, the
    generated message id and the arguments. *)
Module Added.
Record t := mk {
  now : Z;
  messageId : string;
  role : MessageRole;
  content : string;
  metadata : option Metadata
}.
End Added.

Definition add_call (conversationId : string) (a : Added.t) : Z * Call :=
  (Added.now a,
   AddMessage (Added.messageId a) conversationId (Added.role a)
     (Added.content a) (Added.metadata a)).

(** The clock readings [ts] never go back, starting from [t0]. *)
Fixpoint nondecreasing (t0 : Z) (ts : list Z) : Prop :=
  match ts with
  | [] => True
  | t :: ts => t0 ≤ t ∧ nondecreasing t ts
  end.

(** Conversation ids stay pairwise distinct along a sequence of calls, as
    ids drawn from [generateId()] are. *)
Fixpoint ids_unique_along (extractConversationTitle : string → string)
    (calls : list (Z * Call)) (s : ChatState.t) : Prop :=
  NoDup (conversation_ids s) ∧
  match calls with
  | [] => True
  | (now, c) :: calls =>
      ids_unique_along extractConversationTitle calls
        (dispatch extractConversationTitle now c s)
  end.

(** A store with one fresh conversation ["c1"], made at instant 0. *)
Definition one_conversation : ChatState.t :=
  createConversation "c1" 0 None initialState.

(** The metadata [{ status: "sending" }] that [useChat] passes for the
    placeholder of an answer. *)
Definition status_sending : Metadata := {[ "status" := JsStr "sending" ]}.

(** Three [addMessage] calls on ["c1"]: a system greeting and two
    questions of the user. *)
Definition greeting : Added.t := Added.mk 0 "m0" system "hello" None.
Definition first_question : Added.t :=
  Added.mk 1 "m1" user "first question" None.
Definition second_question : Added.t :=
  Added.mk 3 "m2" user "second question" None.

(** A short life of ["c1"]: a question is asked, marked, deleted, and the
    conversation renamed, at the instants 1, 2, 2 and 5. *)
Definition sample_calls : list (Z * Call) :=
  [add_call "c1" first_question;
   (2, UpdateMessageStatus "c1" "m1" Types.error);
   (2, DeleteMessage "c1" "m1");
   (5, UpdateConversationTitle "c1" "Renamed")].

(** A persisted chat record with one conversation of ["alice"], one of
    ["bob"] and an anonymous one, the active one being that of ["bob"];
    and the signed-in user ["alice"]. *)
Definition stored (id userId : string) : StoredConversation.t :=
  StoredConversation.mk id "New Conversation" userId []
    "2025-01-01T00:00:00.000Z" "2025-01-01T00:00:00.000Z".

Definition persisted_chat : Hydrated.t :=
  Hydrated.mk
    [stored "c-alice" "alice"; stored "c-bob" "bob"; stored "c-anon" "anonymous"]
    (Some "c-bob").

Definition alice : UserResponse.t :=
  UserResponse.mk "alice" "alice" "alice@example.org" None "2025-01-01".

Definition bob : UserResponse.t :=
  UserResponse.mk "bob" "bob" "bob@example.org" None "2025-01-02".

(** A session of ["alice"] whose token expires at [expiresAt]. *)
Definition alice_session (expiresAt : Q) : AuthStore.AuthStoreState.t :=
  AuthStore.AuthStoreState.mk true (Some alice) (Some "token-a")
    (Some expiresAt) false true None.

(** The world in which ["alice"] is signed in and her conversations are
    persisted, and the token responses of a login of ["bob"] and of a new
    login of ["alice"]. *)
Definition alice_world : AuthStore.World.t :=
  AuthStore.World.mk (alice_session 100000)
    {[ AuthStore.CHAT_STORAGE := "conversations of alice" ]} [].

Definition token_for (u : UserResponse.t) : TokenResponse.t :=
  TokenResponse.mk "token-b" "bearer" 3600 u.

(** *** Polling *)

(** The statuses that end the polling loop. *)
Definition is_terminal (st : JobStatusType) : bool :=
  match st with
  | finished | failed | not_found => true
  | queued | started | deferred | stopped | scheduled => false
  end.

(** The time the [k]-th loop test finds elapsed since [startTime]. *)
Definition elapsed (env : Api.PollEnv.t) (k : nat) : Q :=
  inject_Z (Api.PollEnv.Date_now env k - Api.PollEnv.Date_now env 0).

(** The first [n] loop tests find less than [timeout] elapsed, and the
    first [n] status requests are answered with a status that does not
    end the loop. *)
Definition keeps_polling (env : Api.PollEnv.t) (jobId : string) (timeout : Q)
    (n : nat) : Prop :=
  ∀ k, (1 ≤ k ≤ n)%nat →
    (elapsed env k < timeout)%Q
    ∧ ∃ r, Api.PollEnv.getJobStatus env jobId k = inr r
           ∧ is_terminal (JobStatusResponse.status r) = false.

(** The intervals the loop goes through, from [interval] on: each is the
    one before times 1.5, capped at [maxInterval]. *)
Fixpoint schedule (interval maxInterval : Q) (n : nat) : list Q :=
  match n with
  | O => []
  | S n =>
      interval :: schedule (Qmin (interval * (3 # 2)) maxInterval) maxInterval n
  end.

Fixpoint next_interval (interval maxInterval : Q) (n : nat) : Q :=
  match n with
  | O => interval
  | S n => next_interval (Qmin (interval * (3 # 2)) maxInterval) maxInterval n
  end.

(** A backend that answers ['queued'] twice and ['finished'] then, with
    a clock that advances by one second per loop test; and one that
    answers ['queued'] for ever. *)
Definition answer (st : JobStatusType) : ChatError.t + JobStatusResponse.t :=
  inr (JobStatusResponse.mk st (Some "42") None).

Definition finishes_third : Api.PollEnv.t :=
  Api.PollEnv.mk (λ k, 1000 * Z.of_nat k)
    (λ _ n, if (n <? 3)%nat then answer queued else answer finished).

Definition never_finishes : Api.PollEnv.t :=
  Api.PollEnv.mk (λ k, 50000 * Z.of_nat k) (λ _ _, answer queued).

(** A backend that answers ['queued'] for ever, seen with a clock that
    advances by one millisecond per loop test. *)
Definition queued_for_ever : Api.PollEnv.t :=
  Api.PollEnv.mk (λ k, Z.of_nat k) (λ _ _, answer queued).

(** The status of an [onPoll] call did not end the loop. *)
Definition went_on (p : nat * JobStatusResponse.t) : Prop :=
  is_terminal (JobStatusResponse.status p.2) = false.

(** *** Ranged upload *)

(** [ceil (a / b)], for [b] positive. *)
Definition ceil_div (a b : Z) : Z := (a + b - 1) / b.

(** The [i]-th range of a file of [total] bytes cut in ranges of
    [chunkSize] bytes, counting from 0. *)
Definition nth_chunk (chunkSize total : Z) (i : nat) : Api.Chunk.t :=
  Api.Chunk.mk (Z.of_nat i * chunkSize)
    (Z.min ((Z.of_nat i + 1) * chunkSize) total - 1).

(** The backend answers every range request. *)
Definition answers_all (env : Api.UploadEnv.t) : Prop :=
  ∀ r, ∃ data, Api.UploadEnv.post env r = inr data.

(** A file of 12 MiB, and two backends: one that reports success on the
    request that ends the file only, one that reports success on every
    request but that one. *)
Definition twelve_MiB : Api.File.t :=
  Api.File.mk "report.pdf" (12 * 1024 * 1024) "application/pdf".

Definition part_reply (st : IngestStatus) : IngestDocumentResponse.t :=
  IngestDocumentResponse.mk st "report.pdf" pdf 40 120 120 "alice" None None.

Definition last_succeeds : Api.UploadEnv.t :=
  Api.UploadEnv.mk "report.pdf-1700000000000-9f3a"
    (λ r, inr (part_reply
                 (if Api.RangeRequest.range_end r + 1
                     =? Api.RangeRequest.range_total r
                  then success else ingest_error))).


Definition part_request (range_start range_end : Z) : Api.RangeRequest.t :=
  Api.RangeRequest.mk "report.pdf-1700000000000-9f3a" range_start range_end
    12582912 "report.pdf".

(** *** More vocabulary for the store *)

(** The message an [addMessage] call builds. *)
Definition added_message (a : Added.t) : Message.t :=
  newMessage (Added.messageId a) (Added.now a) (Added.role a)
    (Added.content a) (Added.metadata a).

(** The conversation a call names, for the calls on one conversation or
    on its messages. *)
Definition target (c : Call) : option string :=
  match c with
  | UpdateConversationTitle id _ => Some id
  | AddMessage _ conversationId _ _ _ => Some conversationId
  | UpdateMessage conversationId _ _ => Some conversationId
  | UpdateMessageStatus conversationId _ _ => Some conversationId
  | DeleteMessage conversationId _ => Some conversationId
  | _ => None
  end.

(** The active id is [null] or the id of a conversation of the store. *)
Definition active_valid (s : ChatState.t) : Prop :=
  ∀ a, activeConversationId s = Some a → a ∈ conversation_ids s.

(** Along a sequence of calls, [setActiveConversation] is given [null] or
    the id of a conversation the store holds at that point. *)
Fixpoint selects_known (extractConversationTitle : string → string)
    (calls : list (Z * Call)) (s : ChatState.t) : Prop :=
  match calls with
  | [] => True
  | (now, c) :: calls =>
      (∀ a, c = SetActiveConversation (Some a) → a ∈ conversation_ids s)
      ∧ selects_known extractConversationTitle calls
          (dispatch extractConversationTitle now c s)
  end.

(** The owner [createConversation] gives a conversation. *)
Definition owner_for (authUser : option UserResponse.t) (s : ChatState.t)
  : string :=
  default "anonymous" (useUserId authUser s).

(** A question and its answer placeholder in ["c1"], and a job for it. *)
Definition asked : ChatState.t :=
  run (λ t, t)
    [add_call "c1" first_question;
     (2, AddMessage "m9" "c1" assistant "..." None)]
    one_conversation.

Definition job_of_m9 : PendingJob.t :=
  PendingJob.mk "job-1" "m9" "c1" "first question" 2 0.

(** What a call that names conversation [conversationId] leaves as it
    is, from [s] to [s']: the ids of the conversations, every other
    conversation, the id, owner and creation instant of the one named,
    the active id, the pending jobs, the settings and the error. *)
Definition rest_untouched (conversationId : string) (s s' : ChatState.t)
  : Prop :=
  conversation_ids s' = conversation_ids s
  ∧ (∀ id', id' ≠ conversationId →
       getConversation id' s' = getConversation id' s)
  ∧ (∀ c c',
       getConversation conversationId s = Some c →
       getConversation conversationId s' = Some c' →
       Conversation.id c' = Conversation.id c
       ∧ Conversation.userId c' = Conversation.userId c
       ∧ Conversation.createdAt c' = Conversation.createdAt c)
  ∧ activeConversationId s' = activeConversationId s
  ∧ pendingJobs s' = pendingJobs s
  ∧ settings s' = settings s
  ∧ ChatState.error s' = ChatState.error s.

(** A way to write instants that reads back what it wrote: in
    decimal. *)
Definition write_instant (t : Z) : string :=
  NilEmpty.string_of_int (Z.to_int t).

Definition read_instant (written : string) : Z :=
  from_option Z.of_int 0 (NilEmpty.int_of_string written).

(** *** More vocabulary for polling *)

(** A backend that answers ['queued'] once and is out of reach then. *)
Definition NETWORK_ERROR : ChatError.t :=
  ChatError.mk "Unable to connect to server. Please check your connection."
    (Some "NETWORK_ERROR") None None.

Definition drops_second : Api.PollEnv.t :=
  Api.PollEnv.mk (λ k, 1000 * Z.of_nat k)
    (λ _ n, if (n <? 2)%nat then answer queued else inl NETWORK_ERROR).

(** Options whose first interval is beyond the cap. *)
Definition eager_cap : Api.PollOptions.t :=
  Api.PollOptions.mk (Some 5000%Q) (Some 3000%Q) None.

(** The clock does not go back before the first loop test, and every
    timer of the default schedule waits at least the whole milliseconds
    of its delay: the [k]-th timer is set after loop test [k + 1] and is
    over before loop test [k + 2]. *)
Definition timers_respected (env : Api.PollEnv.t) : Prop :=
  Api.PollEnv.Date_now env 0 ≤ Api.PollEnv.Date_now env 1
  ∧ ∀ k, Api.PollEnv.Date_now env (S k)
         + Api.timer_ms (next_interval 500 3000 k)
         ≤ Api.PollEnv.Date_now env (S (S k)).

(** A job that stays queued, seen with a clock that advances by three
    seconds per loop test. *)
Definition three_seconds_apart : Api.PollEnv.t :=
  Api.PollEnv.mk (λ k, 3000 * Z.of_nat k) (λ _ _, answer queued).

(** A backend that accepts every question as job ["job-7"]. *)
Definition accepts (query : string) : ChatError.t + ChatResponse.t :=
  inr (ChatResponse.mk "job-7" queued "alice").

(** *** More vocabulary for uploads *)

(** What a single request settles to. *)
Definition settle {A} (reply : ChatError.t + A) : Api.Settled A :=
  match reply with
  | inr data => Api.Returned data
  | inl e => Api.Threw (Api.ThrowChatError e)
  end.

(** A backend that is out of reach for the part that starts at 5 MiB and
    accepts every other part; and the options that send the parts one
    at a time. *)
Definition second_part_fails : Api.UploadEnv.t :=
  Api.UploadEnv.mk "report.pdf-1700000000000-9f3a"
    (λ r, if Api.RangeRequest.range_start r =? 5242880
          then inl NETWORK_ERROR
          else inr (part_reply success)).

Definition one_by_one : Api.RangeOptions.t :=
  Api.RangeOptions.mk None (Some 1) None.

(** An empty file and a small one, the options the upload form passes
    for a file, and a backend that accepts whatever it is sent. *)
Definition empty_note : Api.File.t := Api.File.mk "empty.txt" 0 "text/plain".

Definition small_note : Api.File.t := Api.File.mk "note.txt" 2048 "text/plain".

Definition form_options (uploadId : string) : Api.IngestOptions.t :=
  Api.IngestOptions.mk (Some true) (Some (5 * 1024 * 1024)) (Some 4)
    (Some (4 * 1024 * 1024)) (Some uploadId).

Definition accepts_all : Api.IngestEnv.t :=
  Api.IngestEnv.mk last_succeeds (λ _, inr (part_reply success)).

(** The calls of [onProgress] for files that are ingested one after the
    other, the first of them having index [i]: one call before and one
    after each file. *)
Fixpoint progress_calls (total i : nat) (files : list Api.File.t)
  : list Api.Progress.t :=
  match files with
  | [] => []
  | file :: files =>
      Api.Progress.mk i total file :: Api.Progress.mk (S i) total file
      :: progress_calls total (S i) files
  end.

(** *** Vocabulary for the chat hook *)




(** * Properties *)

Section StoreFacts.

Implicit Types (s : ChatState.t) (c : Conversation.t) (m : Message.t).

Lemma find_conversation_Some id cs i c :
  find_conversation id cs = Some (i, c) →
  cs !! i = Some c ∧ Conversation.id c = id.
Proof.
  unfold find_conversation. intros (? & ? & _)%list_find_Some. done.
Qed.

(** Mutating the conversation found, without touching its id, leaves it
    the one found. *)
Lemma find_conversation_insert id cs i c c' :
  find_conversation id cs = Some (i, c) →
  Conversation.id c' = id →
  find_conversation id (<[i := c']> cs) = Some (i, c').
Proof.
  unfold find_conversation. intros H Hid.
  apply list_find_Some in H as (Hi & _ & Hleast).
  apply list_find_insert_Some. right; left.
  split_and!; eauto using lookup_lt_Some.
Qed.

(** ... and leaves the conversations of every other id as they were. *)
Lemma find_conversation_insert_ne id id' cs i c c' :
  cs !! i = Some c →
  Conversation.id c = id →
  Conversation.id c' = id →
  id' ≠ id →
  snd <$> find_conversation id' (<[i := c']> cs)
  = snd <$> find_conversation id' cs.
Proof.
  unfold find_conversation. intros Hi Hc Hc' Hne.
  destruct (list_find (λ c0, Conversation.id c0 = id') cs)
    as [[j d]|] eqn:Hf.
  - apply list_find_Some in Hf as Hf'. destruct Hf' as (Hj & Hd & Hleast).
    assert (i ≠ j) by (intros ->; congruence).
    assert (list_find (λ c0, Conversation.id c0 = id') (<[i := c']> cs)
            = Some (j, d)) as ->; [|done].
    apply list_find_insert_Some.
    destruct (decide (j < i)%nat); [left; done|].
    right; right; left. split_and!; [lia|congruence|done|].
    intros z Hz. congruence.
  - apply list_find_None in Hf.
    assert (list_find (λ c0, Conversation.id c0 = id') (<[i := c']> cs)
            = None) as ->; [|done].
    apply list_find_None. apply Forall_insert; [done|]. simpl. congruence.
Qed.

Lemma set_conversations_same s :
  set_conversations (conversations s) s = s.
Proof. by destruct s. Qed.

Lemma getConversation_None id s :
  getConversation id s = None ↔
  ∀ c, c ∈ conversations s → Conversation.id c ≠ id.
Proof.
  unfold getConversation, find_conversation.
  rewrite fmap_None, list_find_None, Forall_forall. done.
Qed.

Lemma find_message_None id ms :
  find_message id ms = None ↔ ∀ m, m ∈ ms → Message.id m ≠ id.
Proof.
  unfold find_message. rewrite list_find_None, Forall_forall. done.
Qed.

End StoreFacts.

(** ** Stale references (C8) *)

(** C8.  A message update, a status update or a message deletion that
    names a conversation id the store does not hold, or a message id the
    conversation it names does not hold, and a job update that names a job
    id the store does not hold, return the very state they were given.
    The embedded actions are total functions into states: there is no
    path on which they throw. *)
Theorem absent_id_is_noop (now : Z) (s : ChatState.t) :
  (∀ conversationId messageId updates status,
     (∀ c, c ∈ conversations s → Conversation.id c ≠ conversationId) →
     updateMessage now conversationId messageId updates s = s
     ∧ updateMessageStatus now conversationId messageId status s = s
     ∧ deleteMessage now conversationId messageId s = s)
  ∧ (∀ conversationId messageId updates status c,
       getConversation conversationId s = Some c →
       (∀ m, m ∈ Conversation.messages c → Message.id m ≠ messageId) →
       updateMessage now conversationId messageId updates s = s
       ∧ updateMessageStatus now conversationId messageId status s = s
       ∧ deleteMessage now conversationId messageId s = s)
  ∧ (∀ jobId updates,
       pendingJobs s !! jobId = None →
       updatePendingJob jobId updates s = s).
Proof.
  split_and!.
  - intros cid mid updates status Habsent.
    apply getConversation_None in Habsent.
    unfold getConversation in Habsent. apply fmap_None in Habsent.
    unfold updateMessageStatus, updateMessage, deleteMessage.
    rewrite Habsent. done.
  - intros cid mid updates status c Hc Habsent.
    apply find_message_None in Habsent.
    unfold getConversation in Hc.
    apply fmap_Some in Hc as ([i c'] & Hfind & ->). simpl in Habsent.
    unfold updateMessageStatus, updateMessage, deleteMessage.
    rewrite Hfind, Habsent. done.
  - intros jobId updates Habsent. unfold updatePendingJob.
    rewrite Habsent. done.
Qed.

(** A store that holds conversation ["c1"], without messages and without
    jobs, for every stale reference there is. *)
Lemma absent_id_is_noop_witness :
  updateMessage 5 "gone" "m" (MessageUpdates.mk None None (Some "x") None None None)
    one_conversation = one_conversation
  ∧ deleteMessage 5 "c1" "m" one_conversation = one_conversation
  ∧ updatePendingJob "j" (PendingJobUpdates.mk None None None None None (Some 3))
      one_conversation = one_conversation.
Proof.
  destruct (absent_id_is_noop 5 one_conversation) as (Hconv & Hmsg & Hjob).
  split_and!.
  - refine (proj1 (Hconv "gone" "m" _ sent _)).
    intros c Hc Hid. vm_compute in Hc.
    apply list_elem_of_singleton in Hc. subst c. discriminate Hid.
  - refine (proj2 (proj2 (Hmsg "c1" "m"
              (MessageUpdates.mk None None None None None None) sent _ _ _))).
    + reflexivity.
    + intros m Hm. vm_compute in Hm. by apply elem_of_nil in Hm.
  - apply Hjob. reflexivity.
Defined.

(** ** The message [addMessage] creates (C10) *)

Section AddMessage.

Variable extractConversationTitle : string → string.

Lemma addMessage_found messageId now conversationId role content metadata
    s i c :
  find_conversation conversationId (conversations s) = Some (i, c) →
  ∃ c',
    find_conversation conversationId
      (conversations
         (addMessage extractConversationTitle messageId now conversationId
            role content metadata s))
    = Some (i, c')
    ∧ Conversation.messages c'
      = (Conversation.messages c
         ++ [newMessage messageId now role content metadata])%list
    ∧ Conversation.updatedAt c' = now
    ∧ Conversation.title c'
      = (if bool_decide (role = user)
            && (length (filter is_user (Conversation.messages c')) =? 1)%nat
         then extractConversationTitle content
         else Conversation.title c).
Proof.
  intros Hfind. unfold addMessage. rewrite Hfind. cbn [conversations set_conversations].
  eexists. split.
  - apply (find_conversation_insert _ _ _ c); [done|].
    simpl. by apply find_conversation_Some in Hfind as [_ ?].
  - split_and!; reflexivity.
Qed.

End AddMessage.

(** C10.  The message [addMessage] builds has status ['sent'] for role
    ['user'] and no status for the roles ['assistant'] and ['system'],
    whatever the metadata; its metadata field is the argument as it was
    passed and its content the content passed.  It is that message that is
    pushed on the conversation found. *)
Theorem addMessage_status_from_role
    (extractConversationTitle : string → string)
    (messageId : string) (now : Z) (conversationId : string)
    (role : MessageRole) (content : string) (metadata : option Metadata)
    (s : ChatState.t) :
  let m := newMessage messageId now role content metadata in
  Message.status m
  = match role with user => Some sent | assistant | system => None end
  ∧ Message.metadata m = metadata
  ∧ Message.content m = content
  ∧ Message.role m = role
  ∧ (∀ c, getConversation conversationId s = Some c →
       getMessages conversationId
         (addMessage extractConversationTitle messageId now conversationId
            role content metadata s)
       = (Conversation.messages c ++ [m])%list).
Proof.
  simpl. split_and!; try reflexivity.
  - by destruct role.
  - intros c Hc. unfold getConversation in Hc.
    apply fmap_Some in Hc as ([i c0] & Hfind & ->).
    destruct (addMessage_found extractConversationTitle messageId now
                conversationId role content metadata s i c0 Hfind)
      as (c' & Hfind' & Hmsgs & _).
    unfold getMessages, getConversation. rewrite Hfind'. simpl. done.
Qed.

(** The placeholder of an answer: role ['assistant'], metadata
    [{ status: "sending" }]; the message pushed has no status. *)
Lemma addMessage_status_from_role_witness :
  Message.status <$>
    last (getMessages "c1"
            (addMessage (λ t, t) "m2" 7 "c1" assistant "" (Some status_sending)
               one_conversation))
  = Some None.
Proof.
  destruct (addMessage_status_from_role (λ t, t) "m2" 7 "c1" assistant ""
              (Some status_sending) one_conversation)
    as (Hstatus & _ & _ & _ & Hpushed).
  rewrite (Hpushed _ eq_refl). rewrite last_snoc. simpl. reflexivity.
Defined.

(** ** The title of a conversation (C6) *)

Section Title.

Variable extractConversationTitle : string → string.

#[local] Abbreviation run := (run extractConversationTitle).

Lemma run_app calls1 calls2 s :
  run (calls1 ++ calls2) s = run calls2 (run calls1 s).
Proof.
  revert s. induction calls1 as [|[now c] calls1 IH]; intros s; simpl; auto.
Qed.

Lemma run_cons call calls s : run (call :: calls) s = run calls (run [call] s).
Proof. by destruct call. Qed.

(** One [addMessage] on a conversation the store holds: what becomes of
    its title and of the number of its user messages. *)
Lemma addMessage_title a conversationId s c :
  getConversation conversationId s = Some c →
  ∃ c',
    getConversation conversationId (run [add_call conversationId a] s)
    = Some c'
    ∧ user_count c'
      = (user_count c + if bool_decide (Added.role a = user) then 1 else 0)%nat
    ∧ Conversation.title c'
      = (if bool_decide (Added.role a = user) && (user_count c =? 0)%nat
         then extractConversationTitle (Added.content a)
         else Conversation.title c).
Proof.
  intros Hc. unfold getConversation in Hc.
  apply fmap_Some in Hc as ([i c0] & Hfind & ->). simpl.
  destruct (addMessage_found extractConversationTitle (Added.messageId a)
              (Added.now a) conversationId (Added.role a) (Added.content a)
              (Added.metadata a) s i c0 Hfind)
    as (c' & Hfind' & Hmsgs & _ & Htitle).
  exists c'. unfold getConversation. rewrite Hfind'. split; [done|].
  assert (user_count c'
          = (user_count c0
             + if bool_decide (Added.role a = user) then 1 else 0)%nat)
    as Hcount.
  { unfold user_count. rewrite Hmsgs, filter_app, length_app.
    f_equal. unfold newMessage.
    rewrite filter_cons, filter_nil. unfold is_user at 1. simpl.
    case_decide as Hu; case_bool_decide as Hr; simpl; done. }
  split; [done|].
  rewrite Htitle. fold (user_count c'). rewrite Hcount.
  destruct (bool_decide (Added.role a = user)); simpl; [|done].
  rewrite Nat.add_1_r. destruct (user_count c0); simpl; done.
Qed.

(** Messages of other roles leave the title and the count alone. *)
Lemma run_adds_no_user conversationId pre s c :
  getConversation conversationId s = Some c →
  Forall (λ a, Added.role a ≠ user) pre →
  ∃ c',
    getConversation conversationId (run (add_call conversationId <$> pre) s)
    = Some c'
    ∧ user_count c' = user_count c
    ∧ Conversation.title c' = Conversation.title c.
Proof.
  revert s c. induction pre as [|a pre IH]; intros s c Hc Hpre.
  - exists c. done.
  - apply Forall_cons in Hpre as [Ha Hpre].
    destruct (addMessage_title a conversationId s c Hc)
      as (c1 & Hc1 & Hcount & Htitle).
    rewrite bool_decide_eq_false_2 in Hcount, Htitle by done.
    simpl in Htitle.
    destruct (IH _ c1 Hc1 Hpre) as (c' & Hc' & Hcount' & Htitle').
    exists c'. rewrite fmap_cons, run_cons.
    split; [done|]. split; [lia|congruence].
Qed.

(** Once the conversation holds a user message, no [addMessage] changes
    its title. *)
Lemma run_adds_has_user conversationId post s c :
  getConversation conversationId s = Some c →
  (0 < user_count c)%nat →
  ∃ c',
    getConversation conversationId (run (add_call conversationId <$> post) s)
    = Some c'
    ∧ (0 < user_count c')%nat
    ∧ Conversation.title c' = Conversation.title c.
Proof.
  revert s c. induction post as [|a post IH]; intros s c Hc Hpos.
  - exists c. done.
  - destruct (addMessage_title a conversationId s c Hc)
      as (c1 & Hc1 & Hcount & Htitle).
    assert ((user_count c =? 0)%nat = false) as Hnz
      by (apply Nat.eqb_neq; lia).
    rewrite Hnz, andb_false_r in Htitle.
    destruct (IH _ c1 Hc1 ltac:(lia)) as (c' & Hc' & Hpos' & Htitle').
    exists c'. rewrite fmap_cons, run_cons.
    split; [done|]. split; [done|congruence].
Qed.

End Title.

(** C6, as the code has it.  Take a sequence of [addMessage] calls on a
    conversation, with no other call in between.  If the conversation
    holds no user-role message, the title is left alone until the first
    user-role message, which sets it to [extractConversationTitle] of
    its content, and no later [addMessage] of the sequence changes it.
    If the conversation holds a user-role message, no [addMessage]
    changes its title.  (The title is derived whenever [addMessage] leaves
    exactly one user-role message: also on a conversation whose user
    messages have all been deleted.) *)
Theorem title_from_first_user_message
    (extractConversationTitle : string → string) (conversationId : string)
    (s : ChatState.t) (c : Conversation.t) :
  getConversation conversationId s = Some c →
  (filter is_user (Conversation.messages c) = [] →
   ∀ pre u post,
     Forall (λ a, Added.role a ≠ user) pre →
     Added.role u = user →
     title_of conversationId
       (run extractConversationTitle (add_call conversationId <$> pre) s)
     = Some (Conversation.title c)
     ∧ title_of conversationId
         (run extractConversationTitle
            (add_call conversationId <$> pre ++ [u] ++ post) s)
       = Some (extractConversationTitle (Added.content u)))
  ∧ (filter is_user (Conversation.messages c) ≠ [] →
     ∀ post,
       title_of conversationId
         (run extractConversationTitle (add_call conversationId <$> post) s)
       = Some (Conversation.title c)).
Proof.
  intros Hc. split.
  - intros Hnone pre u post Hpre Hu.
    destruct (run_adds_no_user extractConversationTitle conversationId pre s c
                Hc Hpre) as (c1 & Hc1 & Hcount1 & Htitle1).
    split.
    + unfold title_of. rewrite Hc1. simpl. congruence.
    + rewrite !fmap_app, !run_app.
      change (add_call conversationId <$> [u])
        with [add_call conversationId u].
      destruct (addMessage_title extractConversationTitle u conversationId _
                  c1 Hc1) as (c2 & Hc2 & Hcount2 & Htitle2).
      assert (user_count c1 = 0%nat) as Hzero.
      { rewrite Hcount1. unfold user_count. by rewrite Hnone. }
      rewrite Hzero in Hcount2, Htitle2.
      rewrite bool_decide_eq_true_2 in Hcount2, Htitle2 by done.
      simpl in Htitle2.
      destruct (run_adds_has_user extractConversationTitle conversationId
                  post _ c2 Hc2 ltac:(lia)) as (c3 & Hc3 & _ & Htitle3).
      unfold title_of. rewrite Hc3. simpl. congruence.
  - intros Hsome post.
    assert (0 < user_count c)%nat as Hpos.
    { unfold user_count. destruct (filter is_user (Conversation.messages c));
        [done|simpl; lia]. }
    destruct (run_adds_has_user extractConversationTitle conversationId post
                s c Hc Hpos) as (c' & Hc' & _ & Htitle).
    unfold title_of. rewrite Hc'. simpl. congruence.
Qed.

(** A greeting, then two questions: the title is that of the first
    question. *)
Lemma title_from_first_user_message_witness :
  title_of "c1"
    (run (λ t, t)
       (add_call "c1" <$> [greeting; first_question; second_question])
       one_conversation)
  = Some "first question".
Proof.
  refine (proj2 (proj1 (title_from_first_user_message (λ t, t) "c1"
                          one_conversation _ _) _
                   [greeting] first_question [second_question] _ _)).
  - reflexivity.
  - reflexivity.
  - repeat constructor. discriminate.
  - reflexivity.
Defined.

(** C6, as it is stated, fails when the first question is deleted: with
    message ["m1"] added at instant 1 and deleted at instant 2, the
    [addMessage] of the second question at instant 3 finds a conversation
    without user messages and derives the title anew.  Whatever the title
    function, the title is then that of the second question; so unless the
    function gives both questions one title, this [addMessage] has changed
    the title. *)
Lemma title_rederived_after_deleteMessage :
  (∀ extract : string → string,
     title_of "c1"
       (run extract
          [add_call "c1" first_question; (2, DeleteMessage "c1" "m1")]
          one_conversation)
     = Some (extract "first question")
     ∧ title_of "c1"
         (run extract
            [add_call "c1" first_question; (2, DeleteMessage "c1" "m1");
             add_call "c1" second_question]
            one_conversation)
       = Some (extract "second question"))
  ∧ ¬ (∀ extract : string → string,
         title_of "c1"
           (run extract
              [add_call "c1" first_question; (2, DeleteMessage "c1" "m1");
               add_call "c1" second_question]
              one_conversation)
         = title_of "c1"
             (run extract
                [add_call "c1" first_question; (2, DeleteMessage "c1" "m1")]
                one_conversation)).
Proof.
  split.
  - intros extract. split; reflexivity.
  - intros H. specialize (H (λ t, t)). vm_compute in H. discriminate H.
Qed.

(** ** The stamp [updatedAt] (C9) *)

Section UpdatedAt.

Variable extractConversationTitle : string → string.

#[local] Abbreviation run := (run extractConversationTitle).
#[local] Abbreviation dispatch := (dispatch extractConversationTitle).
#[local] Abbreviation ids_unique_along :=
  (ids_unique_along extractConversationTitle).

Lemma find_conversation_delete id' cs i c :
  cs !! i = Some c →
  Conversation.id c ≠ id' →
  snd <$> find_conversation id' (delete i cs)
  = snd <$> find_conversation id' cs.
Proof.
  unfold find_conversation. revert i.
  induction cs as [|x cs IH]; intros i Hi Hne; [done|].
  destruct i as [|i]; simpl in Hi.
  - injection Hi as ->. simpl. rewrite decide_False by done.
    rewrite <- option_fmap_compose. by destruct (list_find _ cs) as [[]|].
  - simpl. case_decide; [done|].
    rewrite <- !option_fmap_compose.
    specialize (IH i Hi Hne).
    destruct (list_find _ (delete i cs)) as [[]|],
             (list_find _ cs) as [[]|]; simpl in *; congruence.
Qed.

Lemma find_conversation_delete_found id cs i c :
  NoDup (Conversation.id <$> cs) →
  find_conversation id cs = Some (i, c) →
  find_conversation id (delete i cs) = None.
Proof.
  intros Hnodup Hfind. apply find_conversation_Some in Hfind as [Hi Hid].
  unfold find_conversation. apply list_find_None, Forall_lookup.
  intros j y Hj Hy.
  assert ((Conversation.id <$> cs) !! i = Some id) as Hi'
    by (rewrite list_lookup_fmap, Hi; simpl; congruence).
  rewrite list_lookup_delete in Hj.
  case_decide.
  - assert ((Conversation.id <$> cs) !! j = Some id) as Hj'
      by (rewrite list_lookup_fmap, Hj; simpl; congruence).
    pose proof (NoDup_lookup _ _ _ _ Hnodup Hi' Hj'). lia.
  - assert ((Conversation.id <$> cs) !! S j = Some id) as Hj'
      by (rewrite list_lookup_fmap, Hj; simpl; congruence).
    pose proof (NoDup_lookup _ _ _ _ Hnodup Hi' Hj'). lia.
Qed.

(** The conversation of id [id] after the conversation found under
    [id0] was replaced by [c0'], which keeps that id. *)
Lemma getConversation_touch id id0 s i c0 c0' :
  find_conversation id0 (conversations s) = Some (i, c0) →
  Conversation.id c0' = id0 →
  getConversation id (set_conversations (<[i := c0']> (conversations s)) s)
  = if decide (id = id0) then Some c0' else getConversation id s.
Proof.
  intros Hfind Hid. unfold getConversation. simpl.
  case_decide as Heq.
  - subst id. by rewrite (find_conversation_insert _ _ _ c0).
  - apply find_conversation_Some in Hfind as [Hi Hid0].
    by apply (find_conversation_insert_ne id0 id _ i c0 c0').
Qed.

(** A conversation read after a call is either the one read before it
    or one stamped by the call. *)
Lemma dispatch_updatedAt now call s id c' :
  NoDup (conversation_ids s) →
  getConversation id (dispatch now call s) = Some c' →
  getConversation id s = Some c' ∨ Conversation.updatedAt c' = now.
Proof.
  intros Hnodup.
  destruct call; simpl; try (by left).
  - (* createConversation *)
    unfold createConversation, getConversation, find_conversation. simpl.
    case_decide; simpl.
    + intros [= <-]. by right.
    + rewrite <- option_fmap_compose. intros H'. left.
      rewrite <- H'. by destruct (list_find _ _) as [[]|].
  - (* deleteConversation *)
    unfold deleteConversation.
    destruct (find_conversation id0 (conversations s)) as [[index c0]|] eqn:Hf.
    + assert (getConversation id
                (set_conversations (delete index (conversations s)) s)
              = Some c' → getConversation id s = Some c') as Hkey.
      { unfold getConversation. simpl.
        destruct (decide (id = id0)) as [->|Hne].
        - by rewrite (find_conversation_delete_found _ _ _ c0).
        - apply find_conversation_Some in Hf as [Hi Hid].
          rewrite (find_conversation_delete id _ index c0) by congruence.
          done. }
      case_decide; intros H'; left; apply Hkey; exact H'.
    + rewrite set_conversations_same. case_decide; intros H'; left; exact H'.
  - (* updateConversationTitle *)
    unfold updateConversationTitle.
    destruct (find_conversation id0 (conversations s)) as [[i c0]|] eqn:Hf;
      [|by left].
    rewrite (getConversation_touch id id0 s i c0) by
      (try done; simpl; by apply find_conversation_Some in Hf as [_ ?]).
    case_decide; [intros [= <-]; by right|by left].
  - (* addMessage *)
    unfold addMessage.
    destruct (find_conversation conversationId (conversations s))
      as [[i c0]|] eqn:Hf; [|by left].
    rewrite (getConversation_touch id conversationId s i c0) by
      (try done; simpl; by apply find_conversation_Some in Hf as [_ ?]).
    case_decide; [intros [= <-]; by right|by left].
  - (* updateMessage *)
    unfold updateMessage.
    destruct (find_conversation conversationId (conversations s))
      as [[i c0]|] eqn:Hf; [|by left].
    destruct (find_message messageId (Conversation.messages c0))
      as [[j m]|]; [|by left].
    rewrite (getConversation_touch id conversationId s i c0) by
      (try done; simpl; by apply find_conversation_Some in Hf as [_ ?]).
    case_decide; [intros [= <-]; by right|by left].
  - (* updateMessageStatus *)
    unfold updateMessageStatus, updateMessage.
    destruct (find_conversation conversationId (conversations s))
      as [[i c0]|] eqn:Hf; [|by left].
    destruct (find_message messageId (Conversation.messages c0))
      as [[j m]|]; [|by left].
    rewrite (getConversation_touch id conversationId s i c0) by
      (try done; simpl; by apply find_conversation_Some in Hf as [_ ?]).
    case_decide; [intros [= <-]; by right|by left].
  - (* deleteMessage *)
    unfold deleteMessage.
    destruct (find_conversation conversationId (conversations s))
      as [[i c0]|] eqn:Hf; [|by left].
    destruct (find_message messageId (Conversation.messages c0))
      as [[j m]|]; [|by left].
    rewrite (getConversation_touch id conversationId s i c0) by
      (try done; simpl; by apply find_conversation_Some in Hf as [_ ?]).
    case_decide; [intros [= <-]; by right|by left].
  - (* updatePendingJob *)
    unfold updatePendingJob. destruct (pendingJobs s !! jobId); by left.
Qed.

Lemma stamped_by_le t t' s : stamped_by t s → t ≤ t' → stamped_by t' s.
Proof.
  unfold stamped_by. intros H Hle. eapply Forall_impl; [exact H|].
  simpl. intros c Hc. lia.
Qed.

(** Every stamp in the store after a call made at [now] is at most
    [now], when that held before the call. *)
Lemma dispatch_stamped now call s :
  stamped_by now s → stamped_by now (dispatch now call s).
Proof.
  unfold stamped_by. intros Hs.
  assert (∀ i c, Conversation.updatedAt c = now →
                 Forall (λ c, Conversation.updatedAt c ≤ now)
                   (<[i := c]> (conversations s))) as Htouch.
  { intros i c Hc. apply Forall_insert; [done|]. simpl. lia. }
  destruct call; simpl; try done.
  - apply Forall_cons. split; [simpl; lia|done].
  - unfold deleteConversation.
    destruct (find_conversation id (conversations s)) as [[index c0]|];
      case_decide; simpl; try done; by apply Forall_delete.
  - unfold updateConversationTitle.
    destruct (find_conversation id (conversations s)) as [[i c0]|];
      [|done]. by apply Htouch.
  - unfold addMessage.
    destruct (find_conversation conversationId (conversations s))
      as [[i c0]|]; [|done]. by apply Htouch.
  - unfold updateMessage.
    destruct (find_conversation conversationId (conversations s))
      as [[i c0]|]; [|done].
    destruct (find_message messageId (Conversation.messages c0))
      as [[j m]|]; [|done]. by apply Htouch.
  - unfold updateMessageStatus, updateMessage.
    destruct (find_conversation conversationId (conversations s))
      as [[i c0]|]; [|done].
    destruct (find_message messageId (Conversation.messages c0))
      as [[j m]|]; [|done]. by apply Htouch.
  - unfold deleteMessage.
    destruct (find_conversation conversationId (conversations s))
      as [[i c0]|]; [|done].
    destruct (find_message messageId (Conversation.messages c0))
      as [[j m]|]; [|done]. by apply Htouch.
  - unfold updatePendingJob. by destruct (pendingJobs s !! jobId).
Qed.

(** The state reached after a prefix of the calls is again one whose
    stamps are behind the clock, whose ids are unique, and from which
    the clock does not go back. *)
Lemma run_prefix t0 pre post s :
  stamped_by t0 s →
  nondecreasing t0 (fst <$> pre ++ post) →
  ids_unique_along (pre ++ post) s →
  ∃ t1,
    stamped_by t1 (run pre s)
    ∧ nondecreasing t1 (fst <$> post)
    ∧ ids_unique_along post (run pre s).
Proof.
  revert t0 s. induction pre as [|[now call] pre IH]; intros t0 s Hs Ht Hu.
  - exists t0. done.
  - simpl in Ht, Hu. destruct Ht as [Hle Ht]. destruct Hu as [_ Hu].
    apply (IH now); [|done..].
    apply dispatch_stamped. by apply stamped_by_le with t0.
Qed.

(** From a state whose stamps are behind the clock, a conversation read
    after further calls carries a stamp that is at least any bound [b]
    that the clock had reached and that its stamp, if the store held the
    conversation, had reached too. *)
Lemma run_lower_bound id b t0 post s c' :
  stamped_by t0 s →
  nondecreasing t0 (fst <$> post) →
  ids_unique_along post s →
  b ≤ t0 →
  (∀ c, getConversation id s = Some c → b ≤ Conversation.updatedAt c) →
  getConversation id (run post s) = Some c' →
  b ≤ Conversation.updatedAt c'.
Proof.
  revert t0 s. induction post as [|[now call] post IH];
    intros t0 s Hs Ht Hu Hb Hbound Hc'.
  - by apply Hbound.
  - simpl in Ht, Hu, Hc'. destruct Ht as [Hle Ht]. destruct Hu as [Hnd Hu].
    apply (IH now (dispatch now call s)); try done.
    + apply dispatch_stamped. by apply stamped_by_le with t0.
    + lia.
    + intros c Hc.
      destruct (dispatch_updatedAt now call s id c Hnd Hc) as [Hold| ->];
        [by apply Hbound|lia].
Qed.

Lemma getConversation_elem_of id s c :
  getConversation id s = Some c → c ∈ conversations s.
Proof.
  unfold getConversation. intros ([i c0] & Hf & ->)%fmap_Some.
  apply find_conversation_Some in Hf as [Hi _].
  by eapply list_elem_of_lookup_2.
Qed.

End UpdatedAt.

(** C9.  Take a store whose stamps are behind the clock, a sequence of
    calls made at clock readings that never go back, and conversation ids
    that stay pairwise distinct.  Then (1) [updatedAt] never decreases:
    the stamp of a conversation read after a prefix of the calls is at
    most its stamp read after all of them; (2) a call after which a
    conversation reads differently (itself or its messages) has stamped
    it with the reading of the clock; (3) [addMessage] and
    [updateConversationTitle] on a conversation of the store, and
    [updateMessage], [updateMessageStatus] and [deleteMessage] on a
    message it holds, stamp the conversation with the reading of the
    clock. *)
Theorem updatedAt_monotone
    (extractConversationTitle : string → string) (t0 : Z)
    (calls : list (Z * Call)) (s : ChatState.t) :
  stamped_by t0 s →
  nondecreasing t0 (fst <$> calls) →
  ids_unique_along extractConversationTitle calls s →
  (∀ pre post id c c',
     calls = pre ++ post →
     getConversation id (run extractConversationTitle pre s) = Some c →
     getConversation id (run extractConversationTitle calls s) = Some c' →
     Conversation.updatedAt c ≤ Conversation.updatedAt c')
  ∧ (∀ pre now call post id c c',
       calls = pre ++ (now, call) :: post →
       let s1 := run extractConversationTitle pre s in
       getConversation id s1 = Some c →
       getConversation id (dispatch extractConversationTitle now call s1)
       = Some c' →
       c' ≠ c →
       Conversation.updatedAt c' = now)
  ∧ (∀ now id messageId role content metadata title updates status s1 c,
       getConversation id s1 = Some c →
       updatedAt_of id
         (addMessage extractConversationTitle messageId now id role content
            metadata s1) = Some now
       ∧ updatedAt_of id (updateConversationTitle now id title s1) = Some now
       ∧ (is_Some (find_message messageId (Conversation.messages c)) →
          updatedAt_of id (updateMessage now id messageId updates s1)
          = Some now
          ∧ updatedAt_of id (updateMessageStatus now id messageId status s1)
            = Some now
          ∧ updatedAt_of id (deleteMessage now id messageId s1) = Some now)).
Proof.
  intros Hs Ht Hu. split_and!.
  - intros pre post id c c' -> Hc Hc'.
    destruct (run_prefix extractConversationTitle t0 pre post s Hs Ht Hu)
      as (t1 & Hs1 & Ht1 & Hu1).
    rewrite run_app in Hc'.
    apply (run_lower_bound extractConversationTitle id
             (Conversation.updatedAt c) t1 post
             (run extractConversationTitle pre s) c'); try done.
    + apply getConversation_elem_of in Hc.
      unfold stamped_by in Hs1. rewrite Forall_forall in Hs1. by apply Hs1.
    + intros c0 Hc0. rewrite Hc in Hc0. injection Hc0 as <-. lia.
  - intros pre now call post id c c' -> s1 Hc Hc' Hne.
    destruct (run_prefix extractConversationTitle t0 pre ((now, call) :: post)
                s Hs Ht Hu) as (t1 & Hs1 & Ht1 & Hnd & Hu1).
    destruct (dispatch_updatedAt extractConversationTitle now call s1 id c'
                Hnd Hc') as [Hold|Hnew]; [|done].
    subst s1. congruence.
  - intros now id messageId role content metadata title updates status s1 c
      Hc.
    unfold getConversation in Hc.
    apply fmap_Some in Hc as ([i c0] & Hf & ->). simpl.
    pose proof (find_conversation_Some _ _ _ _ Hf) as [_ Hid].
    unfold updatedAt_of.
    split_and!.
    + unfold addMessage. rewrite Hf.
      rewrite (getConversation_touch id id s1 i c0) by done.
      by rewrite decide_True.
    + unfold updateConversationTitle. rewrite Hf.
      rewrite (getConversation_touch id id s1 i c0) by done.
      by rewrite decide_True.
    + intros [[j m] Hm]. unfold updateMessageStatus, updateMessage, deleteMessage.
      rewrite Hf, Hm.
      rewrite !(getConversation_touch id id s1 i c0) by done.
      rewrite !decide_True by done. done.
Qed.

(** The stamps of ["c1"] after the first two and after all four of the
    sample calls. *)
Lemma updatedAt_monotone_witness :
  ∃ c c',
    getConversation "c1" (run (λ t, t) (take 2 sample_calls) one_conversation)
    = Some c
    ∧ getConversation "c1" (run (λ t, t) sample_calls one_conversation)
      = Some c'
    ∧ Conversation.updatedAt c ≤ Conversation.updatedAt c'.
Proof.
  eexists _, _. split; [reflexivity|]. split; [reflexivity|].
  assert (stamped_by 0 one_conversation) as Hs.
  { unfold stamped_by, one_conversation, createConversation. simpl.
    constructor; [simpl; lia|constructor]. }
  assert (nondecreasing 0 (fst <$> sample_calls)) as Ht.
  { simpl. lia. }
  assert (ids_unique_along (λ t, t) sample_calls one_conversation) as Hu.
  { repeat split; vm_compute; apply NoDup_singleton. }
  refine (proj1 (updatedAt_monotone (λ t, t) 0 sample_calls one_conversation
                   Hs Ht Hu)
            (take 2 sample_calls) (drop 2 sample_calls) "c1" _ _ _ _ _);
    reflexivity.
Defined.

(** ** Rehydration of the chat record (C3) *)

(** C3.  Let [revived] be the persisted conversations with their dates
    parsed.  With a signed-in identity (a user whose id is a non-empty
    string, which is what the code tests), rehydration keeps exactly the
    conversations of [revived] whose [userId] is that identity or
    ['anonymous'], in their order; with no user it keeps none.  An active
    conversation id (a non-empty string, which is what the code tests)
    that is not the id of a kept conversation is reset to [null]; one that
    is, is kept.  With no user, the conversations are empty and the active
    id is [null]. *)
Theorem rehydration_keeps_own_conversations
    (Date_parse : string → Z) (authUser : option UserResponse.t)
    (state : Hydrated.t) :
  let r := onRehydrateStorage Date_parse authUser state in
  let revived :=
    revive_conversation Date_parse <$> Hydrated.conversations state in
  (∀ u, authUser = Some u → UserResponse.user_id u ≠ "" →
     (∀ c, c ∈ Rehydrated.conversations r ↔
           c ∈ revived
           ∧ (Conversation.userId c = UserResponse.user_id u
              ∨ Conversation.userId c = "anonymous"))
     ∧ sublist (Rehydrated.conversations r) revived)
  ∧ (authUser = None → Rehydrated.conversations r = [])
  ∧ (∀ a, Hydrated.activeConversationId state = Some a → a ≠ "" →
       a ∉ Conversation.id <$> Rehydrated.conversations r →
       Rehydrated.activeConversationId r = None)
  ∧ (∀ a, Hydrated.activeConversationId state = Some a →
       a ∈ Conversation.id <$> Rehydrated.conversations r →
       Rehydrated.activeConversationId r = Some a)
  ∧ (authUser = None → Hydrated.activeConversationId state ≠ Some "" →
       Rehydrated.conversations r = []
       ∧ Rehydrated.activeConversationId r = None).
Proof.
  intros r revived.
  assert (∀ a, a ≠ "" → truthy a = true) as Htruthy.
  { intros a Ha. unfold truthy. apply negb_true_iff, String.eqb_neq. done. }
  assert (∀ a, Hydrated.activeConversationId state = Some a → a ≠ "" →
            a ∉ Conversation.id <$> Rehydrated.conversations r →
            Rehydrated.activeConversationId r = None) as Hreset.
  { intros a Ha Hne Hnotin. subst r. unfold onRehydrateStorage in *.
    simpl in *. rewrite Ha, (Htruthy a Hne).
    match goal with
    | |- match find_conversation a ?cs with _ => _ end = _ =>
        destruct (find_conversation a cs) as [[i c]|] eqn:Hf; [|done]
    end.
    exfalso. apply Hnotin.
    apply find_conversation_Some in Hf as [Hi Hid].
    apply list_elem_of_fmap. exists c. split; [done|].
    by eapply list_elem_of_lookup_2. }
  split_and!.
  - intros u -> Hu. subst r revived. unfold onRehydrateStorage. simpl.
    rewrite (Htruthy _ Hu). split.
    + intros c. rewrite list_elem_of_filter. unfold owned_by. tauto.
    + apply sublist_filter.
  - intros ->. reflexivity.
  - exact Hreset.
  - intros a Ha Hin. subst r. unfold onRehydrateStorage in *. simpl in *.
    rewrite Ha. destruct (truthy a); [|done].
    match goal with
    | |- match find_conversation a ?cs with _ => _ end = _ =>
        destruct (find_conversation a cs) as [[i c]|] eqn:Hf; [done|]
    end.
    exfalso. unfold find_conversation in Hf.
    apply list_find_None in Hf. rewrite Forall_forall in Hf.
    apply list_elem_of_fmap in Hin as (c & -> & Hc). by apply (Hf c).
  - intros Hnone Hactive.
    assert (Rehydrated.conversations r = []) as Hempty
      by (subst r authUser; reflexivity).
    split; [done|].
    destruct (Hydrated.activeConversationId state) as [a|] eqn:Ha.
    + apply (Hreset a); [done|congruence|].
      rewrite Hempty. apply not_elem_of_nil.
    + subst r. unfold onRehydrateStorage. by rewrite Ha.
Qed.

(** The sample record read back for ["alice"]: her conversation and the
    anonymous one are kept, and the active id, which named the
    conversation of ["bob"], is reset. *)
Lemma rehydration_keeps_own_conversations_witness :
  let r := onRehydrateStorage (λ _, 0) (Some alice) persisted_chat in
  (Conversation.id <$> Rehydrated.conversations r) = ["c-alice"; "c-anon"]
  ∧ Rehydrated.activeConversationId r = None.
Proof.
  destruct (rehydration_keeps_own_conversations (λ _, 0) (Some alice)
              persisted_chat) as (_ & _ & Hreset & _).
  split; [reflexivity|].
  apply (Hreset "c-bob"); [reflexivity|discriminate|].
  vm_compute. intros Hin.
  repeat (apply elem_of_cons in Hin as [Hin|Hin]; [discriminate Hin|]).
  by apply elem_of_nil in Hin.
Defined.

(** ** The session store *)

Import AuthStore AuthStore.AuthStoreState AuthStore.World.

Lemma truthy_true (a : string) : truthy a = true ↔ a ≠ "".
Proof. unfold truthy. by rewrite negb_true_iff, String.eqb_neq. Qed.

Lemma truthy_false (a : string) : truthy a = false ↔ a = "".
Proof. unfold truthy. by rewrite negb_false_iff, String.eqb_eq. Qed.

(** C7.  [isTokenExpired()] is [true] exactly when there is no token
    ([null] or empty), or no stored expiry ([null] or 0), or the clock has
    reached the expiry less 30000 ms.  With a token and an expiry, it is
    [true] when the clock is at [expiresAt - 30000] and [false] when it is
    below, whether or not [expiresAt] is a whole number of
    milliseconds. *)
Theorem isTokenExpired_iff (now : Z) (s : AuthStoreState.t) :
  (isTokenExpired now s = true ↔
     (token s = None ∨ token s = Some "")
     ∨ (expiresAt s = None ∨ ∃ e, expiresAt s = Some e ∧ (e == 0)%Q)
     ∨ (∃ e, expiresAt s = Some e ∧ (e - 30000 <= inject_Z now)%Q))
  ∧ (∀ t e,
       token s = Some t → t ≠ "" →
       expiresAt s = Some e → ¬ (e == 0)%Q →
       ((inject_Z now == e - 30000)%Q → isTokenExpired now s = true)
       ∧ ((inject_Z now < e - 30000)%Q → isTokenExpired now s = false)).
Proof.
  unfold isTokenExpired, truthy_num, Qge_bool.
  destruct (token s) as [t|], (expiresAt s) as [e|].
  2-4: split; [split; [intros _; tauto|done]|intros; discriminate].
  split.
  - destruct (truthy t) eqn:Ht; simpl.
    + apply truthy_true in Ht.
      destruct (Qeq_bool e 0) eqn:He; simpl.
      * apply Qeq_bool_iff in He. split; [|done]. intros _.
        right; left; right. by exists e.
      * apply Qeq_bool_neq in He. rewrite Qle_bool_iff. split.
        -- intros Hle. right; right. by exists e.
        -- intros [[?|?]|[[?|(e' & [= <-] & ?)]|(e' & [= <-] & ?)]];
             try done; congruence.
    + apply truthy_false in Ht. subst t. split; [|done]. intros _.
      left. by right.
  - intros t' e' [= <-] Ht [= <-] He.
    apply truthy_true in Ht. rewrite Ht. simpl.
    destruct (Qeq_bool e 0) eqn:He'; [by apply Qeq_bool_iff in He'|]. simpl.
    split.
    + intros Heq. apply Qle_bool_iff. rewrite Heq. apply Qle_refl.
    + intros Hlt. apply not_true_is_false. rewrite Qle_bool_iff.
      by apply Qlt_not_le.
Qed.

(** The token of ["alice"] expires at 100000, or at 100000.5: at the clock
    readings 70000 and 69999, and 70001 and 70000. *)
Lemma isTokenExpired_iff_witness :
  isTokenExpired 70000 (alice_session 100000) = true
  ∧ isTokenExpired 69999 (alice_session 100000) = false
  ∧ isTokenExpired 70000 (alice_session (200001 # 2)) = false.
Proof.
  split_and!.
  - refine (proj1 (proj2 (isTokenExpired_iff 70000 (alice_session 100000))
                     "token-a" 100000%Q eq_refl _ eq_refl _) _);
      [discriminate|discriminate|reflexivity].
  - refine (proj2 (proj2 (isTokenExpired_iff 69999 (alice_session 100000))
                     "token-a" 100000%Q eq_refl _ eq_refl _) _);
      [discriminate|discriminate|reflexivity].
  - refine (proj2 (proj2 (isTokenExpired_iff 70000
                            (alice_session (200001 # 2)))
                     "token-a" (200001 # 2) eq_refl _ eq_refl _) _);
      [discriminate|discriminate|reflexivity].
Defined.

(** C4.  [login] adopts the identity, the token and the expiry of the
    response.  When a user with an id (a non-empty string, which is what
    the code tests) was signed in and the id of the response differs, the
    first thing [login] does is to remove the record ['rag-chat-storage']:
    the removal comes before the new state is set, and the record is
    absent afterwards.  When no user was signed in, or the ids are equal,
    [login] removes nothing and leaves that record as it was. *)
Theorem login_purges_on_identity_change
    (serialize : AuthStoreState.t → string) (now : Z)
    (response : TokenResponse.t) (w : World.t) :
  let w' := login serialize now response w in
  let newUserId := UserResponse.user_id (TokenResponse.user response) in
  let adopted := World.state w' in
  (user adopted = Some (TokenResponse.user response)
   ∧ token adopted = Some (TokenResponse.access_token response)
   ∧ expiresAt adopted
     = Some (inject_Z now + TokenResponse.expires_in response * 1000)%Q
   ∧ isAuthenticated adopted = true)
  ∧ (∀ u, user (World.state w) = Some u →
       UserResponse.user_id u ≠ "" →
       UserResponse.user_id u ≠ newUserId →
       localStorage w' !! CHAT_STORAGE = None
       ∧ effects w'
         = effects w
           ++ [RemoveItem CHAT_STORAGE; SetState adopted;
               SetItem AUTH_STORAGE (serialize adopted)])
  ∧ ((user (World.state w) = None
      ∨ ∃ u, user (World.state w) = Some u
             ∧ UserResponse.user_id u = newUserId) →
       localStorage w' !! CHAT_STORAGE = localStorage w !! CHAT_STORAGE
       ∧ effects w'
         = effects w
           ++ [SetState adopted; SetItem AUTH_STORAGE (serialize adopted)]).
Proof.
  intros w' newUserId adopted.
  assert (AUTH_STORAGE ≠ CHAT_STORAGE) as Hkeys by discriminate.
  split; [|split].
  - subst adopted w'. unfold login, set. simpl. done.
  - intros u Hu Hid Hne. subst adopted w' newUserId. unfold login.
    rewrite Hu. simpl.
    apply truthy_true in Hid. rewrite Hid.
    rewrite bool_decide_eq_false_2 by congruence. simpl.
    rewrite lookup_insert_ne by done. rewrite lookup_delete_eq.
    split; [done|]. by rewrite <- app_assoc.
  - intros Hsame. subst adopted w' newUserId. unfold login.
    assert (truthy_opt (UserResponse.user_id <$> user (World.state w))
            && negb (bool_decide
                       ((UserResponse.user_id <$> user (World.state w))
                        = Some (UserResponse.user_id
                                  (TokenResponse.user response))))
            = false) as ->.
    { destruct Hsame as [-> | (u & -> & Hu)]; simpl; [done|].
      rewrite bool_decide_eq_true_2 by congruence. apply andb_false_r. }
    simpl. by rewrite lookup_insert_ne.
Qed.

(** ["bob"] logs in where ["alice"] was signed in: her record is gone.
    ["alice"] logs in again: her record is still there. *)
Lemma login_purges_on_identity_change_witness :
  localStorage (login (λ _, "session") 10 (token_for bob) alice_world)
    !! CHAT_STORAGE = None
  ∧ localStorage (login (λ _, "session") 10 (token_for alice) alice_world)
      !! CHAT_STORAGE = Some "conversations of alice".
Proof.
  split.
  - refine (proj1 (proj1 (proj2
              (login_purges_on_identity_change (λ _, "session") 10
                 (token_for bob) alice_world)) alice eq_refl _ _));
      discriminate.
  - refine (eq_trans (proj1 (proj2 (proj2
              (login_purges_on_identity_change (λ _, "session") 10
                 (token_for alice) alice_world)) _)) _).
    + right. exists alice. split; reflexivity.
    + reflexivity.
Defined.

(** ** Polling a job (C1, C5) *)

Import Api.

Lemma Qlt_bool_iff (a b : Q) : Qlt_bool a b = true ↔ (a < b)%Q.
Proof.
  unfold Qlt_bool. rewrite negb_true_iff, <- not_true_iff_false, Qle_bool_iff.
  split; [apply Qnot_le_lt|apply Qlt_not_le].
Qed.

Lemma Qlt_bool_false (a b : Q) : Qlt_bool a b = false ↔ (b <= a)%Q.
Proof.
  unfold Qlt_bool. by rewrite negb_false_iff, Qle_bool_iff.
Qed.

Lemma length_schedule (interval maxInterval : Q) (n : nat) :
  length (schedule interval maxInterval n) = n.
Proof.
  revert interval. induction n as [|n IH]; intros interval; simpl; [done|].
  by rewrite IH.
Qed.

Section PollFacts.

Variable env : PollEnv.t.
Variable jobId : string.
Variables (startTime : Z) (timeout maxInterval : Q).

#[local] Abbreviation loop := (poll_loop env jobId).

#[local] Abbreviation in_time k :=
  (inject_Z (PollEnv.Date_now env k - startTime) < timeout)%Q.

(** [n] polls that are made in time and answered with a status that is
    not terminal: the loop goes through them, one delay each. *)
Lemma poll_loop_skip n :
  ∀ fuel a interval polled delays,
    (∀ k, (a < k ≤ a + n)%nat →
       in_time k
       ∧ ∃ r, PollEnv.getJobStatus env jobId k = inr r
              ∧ is_terminal (JobStatusResponse.status r) = false) →
    ∃ polled',
      loop (n + fuel) startTime timeout maxInterval a interval polled delays
      = loop fuel startTime timeout maxInterval (a + n)
          (next_interval interval maxInterval n) polled'
          (delays ++ schedule interval maxInterval n).
Proof.
  induction n as [|n IH]; intros fuel a interval polled delays H.
  - exists polled. simpl. by rewrite Nat.add_0_r, app_nil_r.
  - destruct (H (S a) ltac:(lia)) as (Htime & r & Hr & Hstatus).
    apply Qlt_bool_iff in Htime.
    destruct (IH fuel (S a) (Qmin (interval * (3 # 2)) maxInterval)
                (polled ++ [(S a, r)]) (delays ++ [interval]))
      as (polled' & Heq).
    { intros k Hk. apply H. lia. }
    exists polled'. simpl. rewrite Htime, Hr.
    rewrite <- app_assoc in Heq. simpl in Heq.
    rewrite Nat.add_succ_r. simpl in Heq.
    destruct (JobStatusResponse.status r); try discriminate Hstatus;
      exact Heq.
Qed.

End PollFacts.

(** C1.  Let the first [n] polls of job [jobId] be made in time and be
    answered with a status that is not terminal.  If the next loop test
    finds [timeout] (120000 ms unless the options say otherwise) or more
    elapsed, the call throws the error of code [POLL_TIMEOUT] after [n]
    polls.  Otherwise poll [n + 1] is made, and when it is answered with
    [r]: status ['finished'] makes the call return [r]; status ['failed']
    makes it throw the error of code [JOB_FAILED], whose message is the
    error text of [r] when there is one (and a default otherwise); status
    ['not_found'] makes it throw the error of code [JOB_NOT_FOUND]; on
    every other status the loop sets a timer and goes on: after [n + 1]
    iterations it has not settled and has waited [n + 1] times. *)
Theorem pollJobUntilComplete_outcome
    (env : PollEnv.t) (jobId : string) (options : PollOptions.t)
    (n fuel : nat) :
  let timeout := default 120000%Q (PollOptions.timeout options) in
  let run := pollJobUntilComplete env jobId fuel options in
  keeps_polling env jobId timeout n →
  (n < fuel)%nat →
  ((timeout <= elapsed env (S n))%Q →
     PollRun.outcome run
     = Some (Threw (ThrowChatError
                      (ChatError.mk "Job polling timed out. Please try again."
                         (Some "POLL_TIMEOUT") None None)))
     ∧ PollRun.attempt run = n)
  ∧ ((elapsed env (S n) < timeout)%Q →
     ∀ r, PollEnv.getJobStatus env jobId (S n) = inr r →
       (JobStatusResponse.status r = finished →
          PollRun.outcome run = Some (Returned r)
          ∧ PollRun.attempt run = S n)
       ∧ (JobStatusResponse.status r = failed →
            (∃ message,
               PollRun.outcome run
               = Some (Threw (ThrowChatError
                                (ChatError.mk message (Some "JOB_FAILED") None None)))
               ∧ (∀ e, JobStatusResponse.error r = Some e → e ≠ "" →
                    message = e)
               ∧ (JobStatusResponse.error r = None →
                    message = "Job processing failed"))
            ∧ PollRun.attempt run = S n)
       ∧ (JobStatusResponse.status r = not_found →
            PollRun.outcome run
            = Some (Threw (ThrowChatError
                             (ChatError.mk "Job not found. It may have expired."
                                (Some "JOB_NOT_FOUND") None None)))
            ∧ PollRun.attempt run = S n)
       ∧ (is_terminal (JobStatusResponse.status r) = false →
            let going := pollJobUntilComplete env jobId (S n) options in
            PollRun.outcome going = None
            ∧ PollRun.attempt going = S n
            ∧ length (PollRun.delays going) = S n)).
Proof.
  intros timeout run Hkeeps Hfuel.
  set (maxInterval := default 3000%Q (PollOptions.maxInterval options)).
  set (initialInterval := default 500%Q (PollOptions.initialInterval options)).
  set (startTime := PollEnv.Date_now env 0).
  assert (∀ fuel', ∃ polled',
            pollJobUntilComplete env jobId (n + fuel') options
            = poll_loop env jobId fuel' startTime timeout maxInterval n
                (next_interval initialInterval maxInterval n) polled'
                (schedule initialInterval maxInterval n)) as Hskip.
  { intros fuel'.
    destruct (poll_loop_skip env jobId startTime timeout maxInterval n fuel'
                0%nat initialInterval [] []) as (polled' & Heq).
    - intros k Hk. apply Hkeeps. lia.
    - exists polled'. exact Heq. }
  assert (length (schedule initialInterval maxInterval n) = n) as Hlen.
  { apply length_schedule. }
  destruct (Hskip (S (fuel - S n))) as (polled1 & Hrun).
  replace (n + S (fuel - S n))%nat with fuel in Hrun by lia.
  destruct (Hskip 1%nat) as (polled2 & Hgoing).
  replace (n + 1)%nat with (S n) in Hgoing by lia.
  unfold elapsed. fold startTime.
  split.
  - intros Hout. apply Qlt_bool_false in Hout.
    subst run. rewrite Hrun. simpl. rewrite Hout. done.
  - intros Hin r Hr. apply Qlt_bool_iff in Hin.
    split_and!.
    + intros Hst. subst run. rewrite Hrun. simpl. rewrite Hin, Hr, Hst. done.
    + intros Hst. subst run. rewrite Hrun. simpl. rewrite Hin, Hr, Hst. simpl.
      split; [|done]. eexists. split; [reflexivity|]. split.
      * intros e -> He. unfold failure_message, or_else. simpl.
        apply truthy_true in He. by rewrite He.
      * intros ->. reflexivity.
    + intros Hst. subst run. rewrite Hrun. simpl. rewrite Hin, Hr, Hst. done.
    + intros Hst. simpl. rewrite Hgoing. simpl. rewrite Hin, Hr.
      destruct (JobStatusResponse.status r); try discriminate Hst; simpl;
        rewrite length_app, Hlen; simpl; split_and!; try done; lia.
Qed.

(** A job that is finished at the third poll is returned at the third
    poll; a job that stays queued while the clock runs 50 seconds per
    iteration is given up after two polls. *)
Lemma pollJobUntilComplete_outcome_witness :
  PollRun.outcome (pollJobUntilComplete finishes_third "job-1" 10 defaultOptions)
  = Some (Returned (JobStatusResponse.mk finished (Some "42") None))
  ∧ PollRun.outcome
      (pollJobUntilComplete never_finishes "job-2" 10 defaultOptions)
    = Some (Threw POLL_TIMEOUT).
Proof.
  split.
  - refine (proj1 (proj1 (proj2 (pollJobUntilComplete_outcome finishes_third
                                   "job-1" defaultOptions 2 10 _ _)
                            _ _ eq_refl) eq_refl)).
    + intros k Hk. assert (k = 1 ∨ k = 2)%nat as [-> | ->] by lia;
        (split; [reflexivity|eexists; split; reflexivity]).
    + lia.
    + reflexivity.
  - refine (proj1 (proj1 (pollJobUntilComplete_outcome never_finishes
                            "job-2" defaultOptions 2 10 _ _) _)).
    + intros k Hk. assert (k = 1 ∨ k = 2)%nat as [-> | ->] by lia;
        (split; [reflexivity|eexists; split; reflexivity]).
    + lia.
    + discriminate.
Defined.

Section DelayFacts.

Variable env : PollEnv.t.
Variable jobId : string.
Variables (startTime : Z) (timeout maxInterval : Q).

(** Whatever the surroundings, the delays of a run are an initial
    stretch of the schedule, one for each status that did not end the
    loop. *)
Lemma poll_loop_delays fuel :
  ∀ a interval polled delays,
    let r :=
      poll_loop env jobId fuel startTime timeout maxInterval a interval
        polled delays in
    ∃ j new,
      PollRun.delays r = delays ++ schedule interval maxInterval j
      ∧ PollRun.polled r = polled ++ new
      ∧ length (filter went_on new) = j.
Proof.
  induction fuel as [|fuel IH]; intros a interval polled delays; simpl.
  - exists 0%nat, []. by rewrite !app_nil_r.
  - destruct (Qlt_bool _ timeout);
      [|exists 0%nat, []; by rewrite !app_nil_r].
    destruct (PollEnv.getJobStatus env jobId (S a)) as [e|status];
      [exists 0%nat, []; by rewrite !app_nil_r|].
    destruct (is_terminal (JobStatusResponse.status status)) eqn:Hst.
    + exists 0%nat, [(S a, status)].
      assert (filter went_on [(S a, status)] = []) as Hnone.
      { rewrite filter_cons, decide_False; [done|].
        unfold went_on. simpl. congruence. }
      destruct (JobStatusResponse.status status); try discriminate Hst;
        simpl; by rewrite app_nil_r, Hnone.
    + destruct (IH (S a) (Qmin (interval * (3 # 2)) maxInterval)
                  (polled ++ [(S a, status)]) (delays ++ [interval]))
        as (j & new & Hd & Hp & Hj).
      exists (S j), ((S a, status) :: new).
      assert (length (filter went_on ((S a, status) :: new)) = S j) as Hcount.
      { rewrite filter_cons, decide_True by done. simpl. by rewrite Hj. }
      rewrite <- !app_assoc in Hd, Hp. simpl in Hd, Hp.
      destruct (JobStatusResponse.status status); try discriminate Hst;
        simpl; by rewrite Hd, Hp, Hcount.
Qed.

End DelayFacts.

(** The schedule of the default options. *)
Lemma schedule_capped (k : nat) : schedule 3000 3000 k = replicate k 3000%Q.
Proof.
  induction k as [|k IH]; simpl; [done|].
  change (Qmin (3000 * (3 # 2)) 3000) with 3000%Q. by rewrite IH.
Qed.

Lemma schedule_default (k : nat) :
  schedule 500 3000 k
  = take k ([500; 1500 # 2; 4500 # 4; 13500 # 8; 40500 # 16]%Q
            ++ replicate k 3000%Q).
Proof.
  do 5 (destruct k as [|k]; [reflexivity|]).
  transitivity ([500; 1500 # 2; 4500 # 4; 13500 # 8; 40500 # 16]%Q
                ++ schedule 3000 3000 k); [reflexivity|].
  rewrite schedule_capped. cbn [take app]. do 5 f_equal.
  rewrite take_replicate. f_equal. lia.
Qed.

(** From the sixth on, the uncapped interval is beyond the cap. *)
Lemma beyond_cap (m : nat) : (3000 <= 500 * (3 # 2) ^ Z.of_nat (5 + m))%Q.
Proof.
  induction m as [|m IH].
  - vm_compute. discriminate.
  - replace (Z.of_nat (5 + S m)) with (Z.of_nat (5 + m) + 1) by lia.
    rewrite Qpower_plus by discriminate.
    change ((3 # 2) ^ 1)%Q with (3 # 2)%Q.
    set (t := ((3 # 2) ^ Z.of_nat (5 + m))%Q) in *. lra.
Qed.

(** C5.  With the default options, and whatever the backend and the
    clock do: the loop waits once after each status that does not end it;
    the delay handed to the timer after the [n]-th status fetch is
    [min (500 * 1.5^(n-1), 3000)]; and the whole milliseconds the timers
    wait are 500, 750, 1125, 1687, 2531 and 3000 from then on, for as
    long as the loop runs. *)
Theorem default_poll_delays (env : PollEnv.t) (jobId : string) (fuel : nat) :
  let run := pollJobUntilComplete env jobId fuel defaultOptions in
  let k := length (PollRun.delays run) in
  k = length (filter went_on (PollRun.polled run))
  ∧ (∀ n d, (1 ≤ n)%nat →
       PollRun.delays run !! (n - 1)%nat = Some d →
       (d == Qmin (500 * (3 # 2) ^ (Z.of_nat n - 1)) 3000)%Q)
  ∧ timer_ms <$> PollRun.delays run
    = take k ([500; 750; 1125; 1687; 2531] ++ replicate k 3000).
Proof.
  intros run k.
  destruct (poll_loop_delays env jobId (PollEnv.Date_now env 0) 120000 3000
              fuel 0%nat 500%Q [] []) as (j & new & Hd & Hp & Hj).
  change (PollRun.delays run = schedule 500 3000 j) in Hd.
  change (PollRun.polled run = new) in Hp.
  assert (k = j) as Hk by (subst k; by rewrite Hd, length_schedule).
  rewrite schedule_default in Hd. rewrite <- Hk in Hd.
  split_and!.
  - by rewrite Hp, Hj.
  - intros n d Hn Hlookup. rewrite Hd in Hlookup.
    apply lookup_take_Some in Hlookup as [Hlookup _].
    destruct (decide (n ≤ 5)%nat) as [Hle|Hgt].
    + assert (n = 1 ∨ n = 2 ∨ n = 3 ∨ n = 4 ∨ n = 5)%nat
        as [->|[->|[->|[->| ->]]]] by lia;
        simpl in Hlookup; injection Hlookup as <-; reflexivity.
    + rewrite lookup_app_r in Hlookup by (simpl; lia).
      apply lookup_replicate in Hlookup as [-> _].
      replace (Z.of_nat n - 1) with (Z.of_nat (5 + (n - 6))) by lia.
      symmetry. apply Q.min_r. apply beyond_cap.
  - rewrite Hd, fmap_take, fmap_app, fmap_replicate. reflexivity.
Qed.

(** Seven polls of a job that stays queued. *)
Lemma default_poll_delays_witness :
  timer_ms <$>
    PollRun.delays (pollJobUntilComplete queued_for_ever "job-3" 7 defaultOptions)
  = [500; 750; 1125; 1687; 2531; 3000; 3000].
Proof.
  refine (eq_trans (proj2 (proj2 (default_poll_delays queued_for_ever "job-3"
                                    7))) _).
  reflexivity.
Defined.

(** ** Ranged upload (C2) *)

Lemma lt_ceil_div (chunkSize total i : Z) :
  0 < chunkSize →
  (i * chunkSize < total ↔ i < ceil_div total chunkSize).
Proof.
  intros Hpos. unfold ceil_div. split; intros H.
  - assert (i + 1 ≤ (total + chunkSize - 1) / chunkSize); [|lia].
    apply Z.div_le_lower_bound; [done|]. nia.
  - destruct (Z.lt_ge_cases (i * chunkSize) total) as [|Hge]; [done|].
    assert ((total + chunkSize - 1) / chunkSize < i + 1); [|lia].
    apply Z.div_lt_upper_bound; [done|]. nia.
Qed.

(** The chunking loop cuts the file in [ceil (total / chunkSize)]
    ranges. *)
Lemma build_chunks_closed (chunkSize total : Z) :
  0 < chunkSize →
  ∀ m i fuel,
    (i + m)%nat = Z.to_nat (ceil_div total chunkSize) →
    (m < fuel)%nat →
    build_chunks fuel total chunkSize (Z.of_nat i * chunkSize)
    = Some (nth_chunk chunkSize total <$> seq i m).
Proof.
  intros Hpos. induction m as [|m IH]; intros i fuel Hn Hfuel.
  - destruct fuel as [|fuel]; [lia|]. simpl.
    assert ((Z.of_nat i * chunkSize <? total) = false) as ->; [|done].
    apply Z.ltb_ge.
    destruct (Z.lt_ge_cases (Z.of_nat i * chunkSize) total) as [Hlt|]; [|done].
    apply lt_ceil_div in Hlt; [lia|done].
  - destruct fuel as [|fuel]; [lia|]. simpl.
    assert ((Z.of_nat i * chunkSize <? total) = true) as ->.
    { apply Z.ltb_lt, lt_ceil_div; [done|lia]. }
    replace (Z.of_nat i * chunkSize + chunkSize)
      with (Z.of_nat (S i) * chunkSize) by lia.
    rewrite (IH (S i) fuel) by lia. simpl. do 2 f_equal.
    unfold nth_chunk. f_equal. lia.
Qed.

Section UploadFacts.

Variable env : UploadEnv.t.
Variable file : File.t.
Variable uploadId : string.

Hypothesis Hanswers : answers_all env.

#[local] Abbreviation batch := (upload_batch env file uploadId).

Lemma upload_batch_app l1 l2 r : batch (l1 ++ l2) r = batch l2 (batch l1 r).
Proof. revert r. induction l1 as [|c l1 IH]; intros r; simpl; auto. Qed.

(** Every request of a batch is issued; nothing rejects. *)
Lemma upload_batch_answered l r :
  UploadRun.issued (batch l r)
  = UploadRun.issued r ++ (request_of file uploadId <$> l)
  ∧ UploadRun.rejected (batch l r) = UploadRun.rejected r.
Proof.
  revert r. induction l as [|c l IH]; intros r; simpl.
  - by rewrite app_nil_r.
  - destruct (Hanswers (request_of file uploadId c)) as [data Hdata].
    rewrite Hdata. destruct (IH (UploadRun.mk
                                   (UploadRun.issued r
                                    ++ [request_of file uploadId c])
                                   (part_resolved file c data
                                      (UploadRun.finalResponse r))
                                   (UploadRun.rejected r)))
      as [Hissued Hrejected].
    rewrite Hissued, Hrejected. simpl. by rewrite <- app_assoc.
Qed.


(** As nothing rejects, the batches are the chunks in their order. *)
Lemma upload_batches_all concurrency chunks :
  (1 ≤ concurrency)%nat →
  ∀ fuel i r,
    (length chunks - i ≤ fuel)%nat →
    UploadRun.rejected r = None →
    upload_batches env file fuel uploadId concurrency chunks i r
    = batch (drop i chunks) r.
Proof.
  intros Hc. induction fuel as [|fuel IH]; intros i r Hfuel Hr.
  - rewrite drop_ge by lia. done.
  - simpl. destruct (i <? length chunks)%nat eqn:Hi.
    + apply Nat.ltb_lt in Hi.
      destruct (upload_batch_answered (take concurrency (drop i chunks)) r)
        as [_ Hrej].
      rewrite Hrej, Hr. rewrite IH; [|lia|congruence].
      rewrite <- upload_batch_app. f_equal.
      rewrite <- drop_drop. apply take_drop.
    + apply Nat.ltb_ge in Hi. rewrite drop_ge by lia. done.
Qed.

End UploadFacts.



(** * Further properties of the code *)

(** ** The conversation store *)

Section MoreStoreFacts.

Variable extractConversationTitle : string → string.

#[local] Abbreviation run := (run extractConversationTitle).
#[local] Abbreviation dispatch := (dispatch extractConversationTitle).

Lemma getConversation_find id s c :
  getConversation id s = Some c ↔
  ∃ i, find_conversation id (conversations s) = Some (i, c).
Proof.
  unfold getConversation. rewrite fmap_Some. split.
  - intros ([i c'] & Hf & ->). by exists i.
  - intros [i Hf]. by exists (i, c).
Qed.

(** Replacing the conversation found by one of the same id keeps the
    list of ids. *)
Lemma conversation_ids_touch id s i c0 c0' :
  find_conversation id (conversations s) = Some (i, c0) →
  Conversation.id c0' = id →
  conversation_ids (set_conversations (<[i := c0']> (conversations s)) s)
  = conversation_ids s.
Proof.
  intros Hf Hid. apply find_conversation_Some in Hf as [Hi Hc0].
  unfold conversation_ids. simpl. rewrite list_fmap_insert.
  apply list_insert_id. rewrite list_lookup_fmap, Hi. simpl. congruence.
Qed.

End MoreStoreFacts.

(** X1.  Messages are kept in the order of the [addMessage] calls,
    whatever their roles: after a sequence of [addMessage] calls on a
    conversation of the store, [getMessages] gives the messages it had,
    followed by one message per call, in the order of the calls.  For a
    conversation the store does not hold, [getMessages] gives the empty
    list, before and after. *)
Theorem getMessages_in_call_order
    (extractConversationTitle : string → string) (conversationId : string)
    (adds : list Added.t) (s : ChatState.t) :
  (∀ c, getConversation conversationId s = Some c →
     getMessages conversationId
       (run extractConversationTitle (add_call conversationId <$> adds) s)
     = Conversation.messages c ++ (added_message <$> adds))
  ∧ (getConversation conversationId s = None →
       getMessages conversationId s = []
       ∧ run extractConversationTitle (add_call conversationId <$> adds) s = s).
Proof.
  split.
  - revert s. induction adds as [|a adds IH]; intros s c Hc.
    + simpl. unfold getMessages. rewrite Hc. simpl. by rewrite app_nil_r.
    + apply getConversation_find in Hc as [i Hf].
      destruct (addMessage_found extractConversationTitle (Added.messageId a)
                  (Added.now a) conversationId (Added.role a)
                  (Added.content a) (Added.metadata a) s i c Hf)
        as (c' & Hf' & Hmsgs & _).
      rewrite fmap_cons. simpl.
      rewrite (IH _ c') by (apply getConversation_find; eauto).
      rewrite Hmsgs, <- app_assoc. done.
  - intros Hnone. split.
    + unfold getMessages. by rewrite Hnone.
    + unfold getConversation in Hnone. apply fmap_None in Hnone.
      induction adds as [|a adds IH]; simpl; [done|].
      unfold addMessage. rewrite Hnone. exact IH.
Qed.

(** A greeting and two questions added to the fresh conversation
    ["c1"]. *)
Lemma getMessages_in_call_order_witness :
  Message.id <$>
    getMessages "c1"
      (run (λ t, t)
         (add_call "c1" <$> [greeting; first_question; second_question])
         one_conversation)
  = ["m0"; "m1"; "m2"].
Proof.
  rewrite (proj1 (getMessages_in_call_order (λ t, t) "c1"
                    [greeting; first_question; second_question]
                    one_conversation) _ eq_refl).
  reflexivity.
Defined.

Lemma touch_rest_untouched conversationId s i c0 c0' :
  find_conversation conversationId (conversations s) = Some (i, c0) →
  Conversation.id c0' = Conversation.id c0 →
  Conversation.userId c0' = Conversation.userId c0 →
  Conversation.createdAt c0' = Conversation.createdAt c0 →
  rest_untouched conversationId s
    (set_conversations (<[i := c0']> (conversations s)) s).
Proof.
  intros Hf Hid Huser Hcreated.
  pose proof (find_conversation_Some _ _ _ _ Hf) as [Hi Hc0].
  assert (Conversation.id c0' = conversationId) as Hid' by congruence.
  unfold rest_untouched. split_and!; try done.
  - by apply (conversation_ids_touch conversationId s i c0).
  - intros id' Hne.
    rewrite (getConversation_touch id' conversationId s i c0) by done.
    by rewrite decide_False.
  - intros c c' Hc Hc'.
    rewrite (getConversation_touch conversationId conversationId s i c0)
      in Hc' by done.
    rewrite decide_True in Hc' by done. injection Hc' as <-.
    apply getConversation_find in Hc as [i' Hf']. split_and!; congruence.
Qed.

Lemma dispatch_rest_untouched
    (extractConversationTitle : string → string) (now : Z) (call : Call)
    (conversationId : string) (s : ChatState.t) :
  target call = Some conversationId →
  rest_untouched conversationId s
    (dispatch extractConversationTitle now call s).
Proof.
  intros Htarget.
  assert (rest_untouched conversationId s s) as Hsame.
  { unfold rest_untouched. split_and!; try done.
    intros c c' Hc Hc'. split_and!; congruence. }
  destruct call; try discriminate Htarget; injection Htarget as ->; simpl.
  - unfold updateConversationTitle.
    destruct (find_conversation _ _) as [[i c0]|] eqn:Hf; [|exact Hsame].
    by apply (touch_rest_untouched _ s i c0).
  - unfold addMessage.
    destruct (find_conversation _ _) as [[i c0]|] eqn:Hf; [|exact Hsame].
    by apply (touch_rest_untouched _ s i c0).
  - unfold updateMessage.
    destruct (find_conversation _ _) as [[i c0]|] eqn:Hf; [|exact Hsame].
    destruct (find_message _ _) as [[j m]|]; [|exact Hsame].
    by apply (touch_rest_untouched _ s i c0).
  - unfold updateMessageStatus, updateMessage.
    destruct (find_conversation _ _) as [[i c0]|] eqn:Hf; [|exact Hsame].
    destruct (find_message _ _) as [[j m]|]; [|exact Hsame].
    by apply (touch_rest_untouched _ s i c0).
  - unfold deleteMessage.
    destruct (find_conversation _ _) as [[i c0]|] eqn:Hf; [|exact Hsame].
    destruct (find_message _ _) as [[j m]|]; [|exact Hsame].
    by apply (touch_rest_untouched _ s i c0).
Qed.


(** X2.  A call that names one conversation ([addMessage],
    [updateMessage], [updateMessageStatus], [deleteMessage],
    [updateConversationTitle]) keeps the list of conversation ids, leaves
    every other conversation as it is, keeps the id, the owner and the
    creation instant of the conversation it names, and leaves the active
    id, the pending jobs, the settings and the error alone. *)
Theorem call_on_conversation_frame
    (extractConversationTitle : string → string) (now : Z) (call : Call)
    (conversationId : string) (s : ChatState.t) :
  target call = Some conversationId →
  let s' := dispatch extractConversationTitle now call s in
  conversation_ids s' = conversation_ids s
  ∧ (∀ id', id' ≠ conversationId →
       getConversation id' s' = getConversation id' s)
  ∧ (∀ c c',
       getConversation conversationId s = Some c →
       getConversation conversationId s' = Some c' →
       Conversation.id c' = Conversation.id c
       ∧ Conversation.userId c' = Conversation.userId c
       ∧ Conversation.createdAt c' = Conversation.createdAt c)
  ∧ activeConversationId s' = activeConversationId s
  ∧ pendingJobs s' = pendingJobs s
  ∧ settings s' = settings s
  ∧ ChatState.error s' = ChatState.error s.
Proof.
  intros Htarget s'.
  exact (dispatch_rest_untouched extractConversationTitle now call
           conversationId s Htarget).
Qed.

(** A message added to ["c1"] in the store that holds ["c1"] only. *)
Lemma call_on_conversation_frame_witness :
  conversation_ids
    (dispatch (λ t, t) 4 (AddMessage "m1" "c1" Types.user "hello" None)
       one_conversation)
  = ["c1"].
Proof.
  refine (eq_trans (proj1 (call_on_conversation_frame (λ t, t) 4
                             (AddMessage "m1" "c1" Types.user "hello" None) "c1"
                             one_conversation eq_refl)) _).
  reflexivity.
Defined.

Lemma filter_all {A} (P : A → Prop) `{!∀ x, Decision (P x)} (l : list A) :
  Forall P l → filter P l = l.
Proof.
  induction 1 as [|x l Hx Hl IH]; [done|].
  by rewrite filter_cons_True, IH.
Qed.

(** With distinct keys, [splice (findIndex (key = a), 1)] removes the
    elements of key [a] and keeps the others in their order. *)
Lemma delete_found_filter {A} (f : A → string) (a : string) (l : list A) j m :
  NoDup (f <$> l) →
  list_find (λ x, f x = a) l = Some (j, m) →
  delete j l = filter (λ x, f x ≠ a) l.
Proof.
  revert j. induction l as [|x l IH]; intros j Hnd Hf; [done|].
  rewrite fmap_cons in Hnd. apply NoDup_cons in Hnd as [Hx Hnd].
  simpl in Hf. case_decide as Hxa.
  - injection Hf as <- <-. simpl. rewrite filter_cons_False by tauto.
    symmetry. apply filter_all, Forall_forall. intros y Hy Hya.
    apply Hx. replace (f x) with (f y) by congruence.
    by apply list_elem_of_fmap_2.
  - apply fmap_Some in Hf as ([j' m'] & Hf & [= -> ->]). simpl.
    rewrite filter_cons_True by done. f_equal. by apply IH.
Qed.

(** X3.  [updateMessage] merges the fields given into the first message
    of that id, in place: the messages keep their number and their
    order, and no other message changes.  [updateMessageStatus] changes
    the status of that message and nothing else.  Neither changes the
    title of the conversation, also when the message is its first user
    message. *)
Theorem updateMessage_in_place
    (now : Z) (conversationId messageId : string) (updates : MessageUpdates.t)
    (status : MessageStatus) (s : ChatState.t) (c : Conversation.t)
    (j : nat) (m : Message.t) :
  getConversation conversationId s = Some c →
  find_message messageId (Conversation.messages c) = Some (j, m) →
  getMessages conversationId
    (updateMessage now conversationId messageId updates s)
  = <[j := assign_message m updates]> (Conversation.messages c)
  ∧ getMessages conversationId
      (updateMessageStatus now conversationId messageId status s)
    = <[j := Message.mk (Message.id m) (Message.role m) (Message.content m)
               (Message.timestamp m) (Some status) (Message.metadata m)]>
        (Conversation.messages c)
  ∧ title_of conversationId
      (updateMessage now conversationId messageId updates s)
    = Some (Conversation.title c).
Proof.
  intros Hc Hm. apply getConversation_find in Hc as [i Hf].
  pose proof (find_conversation_Some _ _ _ _ Hf) as [_ Hid].
  unfold getMessages, title_of, updateMessageStatus, updateMessage.
  rewrite Hf, Hm.
  rewrite !(getConversation_touch conversationId conversationId s i c)
    by done.
  rewrite !decide_True by done. done.
Qed.

(** The question of ["c1"] is marked as failed: it stays where it is,
    before the placeholder. *)
Lemma updateMessage_in_place_witness :
  Message.status <$>
    getMessages "c1" (updateMessageStatus 9 "c1" "m1" Types.error asked)
  = [Some Types.error; None].
Proof.
  refine (eq_trans
            (f_equal (fmap Message.status)
               (proj1 (proj2 (updateMessage_in_place 9 "c1" "m1"
                                (MessageUpdates.mk None None None None None
                                   None)
                                Types.error asked _ 0%nat _ eq_refl eq_refl))))
            _).
  reflexivity.
Defined.

(** X4.  [deleteMessage] on a message the conversation holds removes one
    message.  When the ids of the messages are distinct, it removes the
    message of that id and keeps the others in their order; deleting the
    same id again then changes nothing, not even the stamp. *)
Theorem deleteMessage_removes_one
    (now : Z) (conversationId messageId : string) (s : ChatState.t)
    (c : Conversation.t) :
  getConversation conversationId s = Some c →
  messageId ∈ Message.id <$> Conversation.messages c →
  let s' := deleteMessage now conversationId messageId s in
  S (length (getMessages conversationId s'))
  = length (Conversation.messages c)
  ∧ (NoDup (Message.id <$> Conversation.messages c) →
     getMessages conversationId s'
     = filter (λ m, Message.id m ≠ messageId) (Conversation.messages c)
     ∧ ∀ now', deleteMessage now' conversationId messageId s' = s').
Proof.
  intros Hc Hin s'. apply getConversation_find in Hc as [i Hf].
  pose proof (find_conversation_Some _ _ _ _ Hf) as [_ Hid].
  assert (∃ j m, find_message messageId (Conversation.messages c)
                 = Some (j, m)) as (j & m & Hm).
  { apply list_elem_of_fmap in Hin as (m0 & Hm0 & Hin).
    destruct (list_find_elem_of (λ m, Message.id m = messageId)
                (Conversation.messages c) m0 Hin (eq_sym Hm0))
      as [[j m] Hfind].
    by exists j, m. }
  assert (getConversation conversationId s'
          = Some (Conversation.mk (Conversation.id c) (Conversation.title c)
                    (Conversation.userId c)
                    (delete j (Conversation.messages c))
                    (Conversation.createdAt c) now)) as Hc'.
  { subst s'. unfold deleteMessage. rewrite Hf, Hm.
    rewrite (getConversation_touch conversationId conversationId s i c)
      by done.
    by rewrite decide_True. }
  assert (getMessages conversationId s' = delete j (Conversation.messages c))
    as Hmsgs by (unfold getMessages; by rewrite Hc').
  split.
  - rewrite Hmsgs, length_delete.
    + apply list_find_Some in Hm as [Hj _]. apply lookup_lt_Some in Hj. lia.
    + apply list_find_Some in Hm as [Hj _]. eauto.
  - intros Hnd.
    pose proof (delete_found_filter Message.id messageId _ j m Hnd Hm)
      as Hfilter.
    split; [by rewrite Hmsgs|].
    intros now'. apply getConversation_find in Hc' as [i' Hf'].
    unfold deleteMessage at 1. rewrite Hf'. simpl.
    assert (find_message messageId (delete j (Conversation.messages c))
            = None) as ->; [|done].
    rewrite Hfilter. apply list_find_None, Forall_forall.
    intros m' Hm'%list_elem_of_filter. tauto.
Qed.

(** The question of ["c1"] is deleted: the placeholder is left. *)
Lemma deleteMessage_removes_one_witness :
  Message.id <$> getMessages "c1" (deleteMessage 9 "c1" "m1" asked) = ["m9"].
Proof.
  destruct (deleteMessage_removes_one 9 "c1" "m1" asked _ eq_refl)
    as [_ Hdistinct].
  - vm_compute. apply elem_of_cons. by left.
  - destruct Hdistinct as [-> _]; [|reflexivity].
    vm_compute. repeat constructor; rewrite ?elem_of_cons, ?elem_of_nil;
      intuition discriminate.
Defined.

(** X5.  [deleteConversation] with an id the store does not hold leaves
    the conversations as they are.  When the ids are distinct, it removes
    the conversation of that id and keeps the others in their order, and
    the active id is never left on the deleted conversation.  If the
    deleted id was the active one, the first conversation left becomes
    active ([null] if none is left); otherwise the active id is kept.
    The pending jobs are left as they are, also those of the deleted
    conversation. *)
Theorem deleteConversation_removes (id : string) (s : ChatState.t) :
  let s' := deleteConversation id s in
  (id ∉ conversation_ids s → conversations s' = conversations s)
  ∧ (NoDup (conversation_ids s) →
     conversations s'
     = filter (λ c, Conversation.id c ≠ id) (conversations s)
     ∧ (id ∉ conversation_ids s')
     ∧ activeConversationId s' ≠ Some id)
  ∧ (activeConversationId s = Some id →
     activeConversationId s' = (Conversation.id <$> head (conversations s')))
  ∧ (activeConversationId s ≠ Some id →
     activeConversationId s' = activeConversationId s)
  ∧ pendingJobs s' = pendingJobs s.
Proof.
  intros s'.
  set (cs' := match find_conversation id (conversations s) with
              | Some (index, _) => delete index (conversations s)
              | None => conversations s
              end).
  assert (conversations s' = cs') as Hcs.
  { subst s'. unfold deleteConversation. fold cs'. by case_decide. }
  assert (activeConversationId s'
          = if decide (activeConversationId s = Some id)
            then Conversation.id <$> head cs'
            else activeConversationId s) as Hact.
  { subst s'. unfold deleteConversation. fold cs'. by case_decide. }
  assert (pendingJobs s' = pendingJobs s) as Hjobs.
  { subst s'. unfold deleteConversation. by case_decide. }
  assert (NoDup (conversation_ids s) →
          cs' = filter (λ c, Conversation.id c ≠ id) (conversations s))
    as Hfilter.
  { intros Hnd. subst cs'.
    destruct (find_conversation id (conversations s)) as [[index c0]|] eqn:Hf.
    - by apply (delete_found_filter Conversation.id id _ index c0).
    - symmetry. apply filter_all. by apply list_find_None in Hf. }
  split_and!.
  - intros Hnotin. rewrite Hcs. subst cs'.
    destruct (find_conversation id (conversations s)) as [[index c0]|] eqn:Hf;
      [|done].
    exfalso. apply Hnotin. apply find_conversation_Some in Hf as [Hi Hid].
    unfold conversation_ids. rewrite <- Hid.
    apply list_elem_of_fmap_2. by eapply list_elem_of_lookup_2.
  - intros Hnd. specialize (Hfilter Hnd).
    assert (∀ c, c ∈ cs' → Conversation.id c ≠ id) as Hgone.
    { intros c. rewrite Hfilter, list_elem_of_filter. tauto. }
    split_and!.
    + by rewrite Hcs.
    + unfold conversation_ids. rewrite Hcs.
      intros (c & Hid & Hc)%list_elem_of_fmap. by apply (Hgone c).
    + rewrite Hact. case_decide as Ha; [|done].
      destruct cs' as [|c cs'']; [done|]. simpl. intros [= Hid].
      apply (Hgone c); [|done]. apply elem_of_cons. by left.
  - intros Ha. by rewrite Hact, decide_True, Hcs.
  - intros Ha. by rewrite Hact, decide_False.
  - done.
Qed.

(** The only conversation of the store, which is the active one, is
    deleted: none is active. *)
Lemma deleteConversation_removes_witness :
  activeConversationId (deleteConversation "c1" one_conversation) = None.
Proof.
  refine (eq_trans (proj1 (proj2 (proj2 (deleteConversation_removes "c1"
                                           one_conversation))) eq_refl) _).
  reflexivity.
Defined.

Lemma elem_of_conversation_ids a s :
  a ∈ conversation_ids s ↔
  ∃ k c, conversations s !! k = Some c ∧ Conversation.id c = a.
Proof.
  unfold conversation_ids. rewrite list_elem_of_fmap. split.
  - intros (c & -> & Hc). apply list_elem_of_lookup in Hc as [k Hk]. eauto.
  - intros (k & c & Hk & <-). exists c. split; [done|].
    by eapply list_elem_of_lookup_2.
Qed.

Lemma deleteConversation_active_valid id s :
  active_valid s → active_valid (deleteConversation id s).
Proof.
  intros Hvalid a. unfold deleteConversation.
  destruct (find_conversation id (conversations s)) as [[index c0]|] eqn:Hf.
  - apply find_conversation_Some in Hf as [Hindex Hid0].
    case_decide as Hactive; simpl.
    + destruct (delete index (conversations s)) as [|c cs] eqn:Hcs;
        [done|]. simpl. intros [= <-].
      unfold conversation_ids. simpl. rewrite ?Hcs. simpl.
      apply elem_of_cons. by left.
    + intros Ha. assert (a ≠ id) as Hne by congruence.
      apply Hvalid, elem_of_conversation_ids in Ha as (k & c & Hk & Hc).
      apply elem_of_conversation_ids. simpl.
      assert (k ≠ index) as Hk' by (intros ->; congruence).
      destruct (decide (k < index)%nat).
      * exists k, c. by rewrite list_lookup_delete_lt.
      * exists (k - 1)%nat, c. rewrite list_lookup_delete_ge by lia.
        by replace (S (k - 1)) with k by lia.
  - rewrite set_conversations_same.
    case_decide as Hactive; simpl; [|apply Hvalid].
    destruct (conversations s) as [|c cs] eqn:Hcs; [done|]. simpl.
    intros [= <-]. unfold conversation_ids. simpl. rewrite ?Hcs. simpl.
    apply elem_of_cons. by left.
Qed.

Lemma dispatch_active_valid
    (extractConversationTitle : string → string) now call s :
  active_valid s →
  (∀ a, call = SetActiveConversation (Some a) → a ∈ conversation_ids s) →
  active_valid (dispatch extractConversationTitle now call s).
Proof.
  intros Hvalid Hknown.
  destruct (target call) as [conversationId|] eqn:Htarget.
  { destruct (dispatch_rest_untouched extractConversationTitle now call
                conversationId s Htarget) as (Hids & _ & _ & Hactive & _).
    intros a. rewrite Hids, Hactive. apply Hvalid. }
  destruct call; try discriminate Htarget; simpl; try exact Hvalid.
  - intros a [= <-]. unfold conversation_ids. simpl.
    apply elem_of_cons. by left.
  - by apply deleteConversation_active_valid.
  - intros a Ha. simpl in Ha. subst id. by apply Hknown.
  - intros a Ha. discriminate Ha.
  - unfold updatePendingJob. destruct (pendingJobs s !! jobId); exact Hvalid.
Qed.

(** X7.  The active id never dangles.  From a store whose active id is
    [null] or the id of one of its conversations (the initial store is
    one), and along any sequence of calls in which [setActiveConversation]
    is given [null] or the id of a conversation held at that point, the
    active id stays [null] or the id of a conversation of the store; and
    when it is a non-empty id, [getActiveConversation] gives a
    conversation of that id. *)
Theorem active_id_never_dangles
    (extractConversationTitle : string → string) (calls : list (Z * Call))
    (s : ChatState.t) :
  active_valid s →
  selects_known extractConversationTitle calls s →
  let s' := run extractConversationTitle calls s in
  active_valid s'
  ∧ (∀ a, activeConversationId s' = Some a → a ≠ "" →
       ∃ c, getActiveConversation s' = Some c ∧ Conversation.id c = a).
Proof.
  intros Hvalid Hknown s'.
  assert (active_valid s') as Hvalid'.
  { subst s'. revert s Hvalid Hknown.
    induction calls as [|[now call] calls IH]; intros s Hvalid Hknown;
      [done|].
    simpl in *. destruct Hknown as [Hcall Hknown].
    apply IH; [|done]. by apply dispatch_active_valid. }
  split; [done|].
  intros a Ha Hne. unfold getActiveConversation. rewrite Ha.
  rewrite (proj2 (truthy_true a) Hne).
  apply Hvalid', elem_of_conversation_ids in Ha as (k & c & Hk & Hc).
  destruct (list_find_elem_of (λ c, Conversation.id c = a) (conversations s')
              c (list_elem_of_lookup_2 _ _ _ Hk) Hc) as [[i c'] Hf].
  exists c'. unfold getConversation, find_conversation. rewrite Hf.
  split; [done|]. by apply list_find_Some in Hf as (_ & ? & _).
Qed.

(** Two conversations are made, the older one is selected, then
    deleted: the younger one is the active conversation. *)
Lemma active_id_never_dangles_witness :
  ∃ c,
    getActiveConversation
      (run (λ t, t)
         [(1, CreateConversation "c2" None);
          (2, SetActiveConversation (Some "c1"));
          (3, DeleteConversation "c1")]
         one_conversation)
    = Some c
    ∧ Conversation.id c = "c2".
Proof.
  refine (proj2 (active_id_never_dangles (λ t, t)
                   [(1, CreateConversation "c2" None);
                    (2, SetActiveConversation (Some "c1"));
                    (3, DeleteConversation "c1")]
                   one_conversation _ _) "c2" eq_refl _).
  - intros a [= <-]. vm_compute. apply elem_of_cons. by left.
  - simpl. split_and!; try done.
    intros a [= <-]. vm_compute. apply elem_of_cons. right.
    apply elem_of_cons. by left.
  - discriminate.
Defined.



Section RoundTrip.

Variables (Date_toJSON : Z → string) (Date_parse : string → Z).

Hypothesis Hdates : ∀ t, Date_parse (Date_toJSON t) = t.

Lemma revive_store_message m :
  revive_message Date_parse (store_message Date_toJSON m) = m.
Proof.
  destruct m. unfold revive_message, store_message. simpl.
  by rewrite Hdates.
Qed.

Lemma revive_store_conversation c :
  revive_conversation Date_parse (store_conversation Date_toJSON c) = c.
Proof.
  destruct c as [id title userId messages createdAt updatedAt].
  unfold revive_conversation, store_conversation. simpl.
  rewrite !Hdates. f_equal.
  rewrite <- list_fmap_compose.
  induction messages as [|m ms IH]; [done|].
  rewrite fmap_cons, IH. simpl. by rewrite revive_store_message.
Qed.

Lemma revive_store_conversations (cs : list Conversation.t) :
  revive_conversation Date_parse <$> (store_conversation Date_toJSON <$> cs)
  = cs.
Proof.
  induction cs as [|c cs IH]; [done|].
  by rewrite !fmap_cons, IH, revive_store_conversation.
Qed.

End RoundTrip.

(** X9.  Persisting the store and rehydrating it while a user with a
    non-empty id is signed in gives back the conversations that user or
    ['anonymous'] owns, as they were (dates included, when reading back a
    written date gives the date).  If they are all such, and the active
    id did not dangle, the conversations and the active id come back
    unchanged. *)
Theorem persisted_conversations_come_back
    (Date_toJSON : Z → string) (Date_parse : string → Z)
    (u : UserResponse.t) (s : ChatState.t) :
  (∀ t, Date_parse (Date_toJSON t) = t) →
  UserResponse.user_id u ≠ "" →
  let r :=
    ChatStore.onRehydrateStorage Date_parse (Some u)
      (partialize Date_toJSON s) in
  Rehydrated.conversations r
  = filter (owned_by (UserResponse.user_id u)) (conversations s)
  ∧ (Forall (owned_by (UserResponse.user_id u)) (conversations s) →
     active_valid s →
     Rehydrated.conversations r = conversations s
     ∧ Rehydrated.activeConversationId r = activeConversationId s).
Proof.
  intros Hdates Hu r.
  assert (Rehydrated.conversations r
          = filter (owned_by (UserResponse.user_id u)) (conversations s))
    as Hkept.
  { subst r. unfold ChatStore.onRehydrateStorage, partialize. simpl.
    rewrite (proj2 (truthy_true _) Hu).
    by rewrite (revive_store_conversations Date_toJSON Date_parse Hdates). }
  split; [done|].
  intros Hall Hvalid.
  assert (Rehydrated.conversations r = conversations s) as Hsame
    by (rewrite Hkept; by apply filter_all).
  split; [done|].
  subst r. unfold ChatStore.onRehydrateStorage, partialize in *.
  simpl in *. rewrite (proj2 (truthy_true _) Hu) in *.
  rewrite (revive_store_conversations Date_toJSON Date_parse Hdates) in *.
  destruct (activeConversationId s) as [a|] eqn:Ha; [|done].
  destruct (truthy a); [|done].
  rewrite Hsame.
  specialize (Hvalid a Ha).
  apply elem_of_conversation_ids in Hvalid as (k & c & Hk & Hc).
  destruct (list_find_elem_of (λ c, Conversation.id c = a) (conversations s)
              c (list_elem_of_lookup_2 _ _ _ Hk) Hc) as [[i c'] Hf].
  unfold find_conversation. by rewrite Hf.
Qed.

(** The store with the question and its placeholder, whose conversation
    is anonymous, is persisted and read back for ["alice"]. *)
Lemma persisted_conversations_come_back_witness :
  Rehydrated.conversations
    (ChatStore.onRehydrateStorage read_instant (Some alice)
       (partialize write_instant asked))
  = conversations asked.
Proof.
  refine (proj1 (proj2 (persisted_conversations_come_back write_instant
                          read_instant alice asked _ _) _ _)).
  - intros t. unfold read_instant, write_instant.
    rewrite NilEmpty.isi. simpl. apply DecimalZ.of_to.
  - discriminate.
  - vm_compute. constructor; [right; reflexivity|constructor].
  - intros a [= <-]. vm_compute. apply elem_of_cons. by left.
Defined.

Lemma createConversation_owner authUser s :
  or_else (from_option UserResponse.user_id "" authUser)
    (or_else (AppSettings.userId (settings s)) "anonymous")
  = owner_for authUser s.
Proof.
  unfold owner_for, useUserId, or_else.
  destruct (truthy (from_option UserResponse.user_id "" authUser)); [done|].
  by destruct (truthy (AppSettings.userId (settings s))).
Qed.

(** X6.  A new conversation goes to the front of the list and belongs to
    the id [useUserId] names (the signed-in user's, else the one of the
    settings), or to ['anonymous'] when there is none.  Persisted and
    rehydrated while a user with a non-empty id is signed in, a
    conversation made under a fresh id is kept exactly when it belongs to
    that user or to ['anonymous']: one made while nobody was signed in
    and the settings name nobody is shown to whoever signs in. *)
Theorem created_conversation_owner
    (Date_toJSON : Z → string) (Date_parse : string → Z)
    (id : string) (now : Z) (authUser : option UserResponse.t)
    (v : UserResponse.t) (s : ChatState.t) :
  let s' := createConversation id now authUser s in
  let r :=
    ChatStore.onRehydrateStorage Date_parse (Some v)
      (partialize Date_toJSON s') in
  conversations s'
  = Conversation.mk id "New Conversation" (owner_for authUser s) [] now now
    :: conversations s
  ∧ (authUser = None → AppSettings.userId (settings s) = "" →
     owner_for authUser s = "anonymous")
  ∧ (∀ u, authUser = Some u → UserResponse.user_id u ≠ "" →
     owner_for authUser s = UserResponse.user_id u)
  ∧ (id ∉ conversation_ids s →
     UserResponse.user_id v ≠ "" →
     (id ∈ Conversation.id <$> Rehydrated.conversations r ↔
      owner_for authUser s = UserResponse.user_id v
      ∨ owner_for authUser s = "anonymous")).
Proof.
  intros s' r.
  assert (conversations s'
          = Conversation.mk id "New Conversation" (owner_for authUser s) []
              now now :: conversations s) as Hs'.
  { subst s'. unfold createConversation. simpl.
    by rewrite (createConversation_owner authUser s). }
  split_and!.
  - done.
  - intros -> Hsettings. unfold owner_for, useUserId. simpl.
    by rewrite Hsettings.
  - intros u -> Hu. unfold owner_for, useUserId. simpl.
    by rewrite (proj2 (truthy_true _) Hu).
  - intros Hfresh Hv.
    assert (Rehydrated.conversations r
            = filter (owned_by (UserResponse.user_id v))
                (revive_conversation Date_parse
                   <$> (store_conversation Date_toJSON <$> conversations s')))
      as ->.
    { subst r. unfold ChatStore.onRehydrateStorage. simpl.
      by rewrite (proj2 (truthy_true _) Hv). }
    rewrite Hs'.
    rewrite list_elem_of_fmap. split.
    + intros (c & Hid & Hc). apply list_elem_of_filter in Hc as [Howned Hc].
      apply list_elem_of_fmap in Hc as (c1 & -> & Hc1).
      apply list_elem_of_fmap in Hc1 as (c0 & -> & Hc0).
      apply elem_of_cons in Hc0 as [-> | Hc0]; [exact Howned|].
      exfalso. apply Hfresh. unfold conversation_ids. rewrite Hid.
      change (Conversation.id c0 ∈ Conversation.id <$> conversations s).
      by apply list_elem_of_fmap_2.
    + intros Howned.
      exists (revive_conversation Date_parse
                (store_conversation Date_toJSON
                   (Conversation.mk id "New Conversation"
                      (owner_for authUser s) [] now now))).
      split; [done|]. apply list_elem_of_filter. split; [exact Howned|].
      rewrite fmap_cons, fmap_cons. apply elem_of_cons. by left.
Qed.

(** A conversation made while nobody is signed in is read back for
    ["bob"], and so is it for ["alice"]. *)
Lemma created_conversation_owner_witness :
  "c7" ∈ Conversation.id <$>
    Rehydrated.conversations
      (ChatStore.onRehydrateStorage read_instant (Some bob)
         (partialize write_instant
            (createConversation "c7" 8 None one_conversation))).
Proof.
  refine (proj2 (proj2 (proj2 (proj2
            (created_conversation_owner write_instant read_instant "c7" 8
               None bob one_conversation))) _ _) _).
  - vm_compute. intros Hin.
    apply elem_of_cons in Hin as [Hin|Hin]; [discriminate Hin|].
    by apply elem_of_nil in Hin.
  - discriminate.
  - right. reflexivity.
Defined.

(** ** The session store and the API client *)

(** X10.  After [logout] the session holds no user, no token and no
    expiry; at every instant the token counts as expired, there is no
    authorization header and the API client is given no token.  The
    conversation record is gone from the storage (or was empty, and is
    left), the cleared session is what is persisted, and a [login] that
    follows finds no conversation record to show.  A response of status
    401 has this effect, whatever the request was. *)
Theorem logout_clears_session
    (serialize : AuthStoreState.t → string) (w : World.t) :
  let w' := logout serialize w in
  (user (state w') = None ∧ token (state w') = None
   ∧ expiresAt (state w') = None ∧ isAuthenticated (state w') = false)
  ∧ (∀ now,
       isTokenExpired now (state w') = true
       ∧ getAuthHeader now (state w') = None
       ∧ ApiProvider.getAuthToken now (state w') = None)
  ∧ truthy_opt (localStorage w' !! CHAT_STORAGE) = false
  ∧ localStorage w' !! AUTH_STORAGE = Some (serialize (state w'))
  ∧ (∀ now response,
       truthy_opt
         (localStorage (login serialize now response w') !! CHAT_STORAGE)
       = false)
  ∧ ApiProvider.response_rejected serialize (Some 401) w = w'.
Proof.
  intros w'.
  assert (AUTH_STORAGE ≠ CHAT_STORAGE) as Hkeys by discriminate.
  assert (truthy_opt (localStorage w' !! CHAT_STORAGE) = false) as Hgone.
  { subst w'. unfold logout.
    destruct (truthy_opt (localStorage w !! CHAT_STORAGE)) eqn:Hchat; simpl.
    - rewrite lookup_insert_ne by done. by rewrite lookup_delete_eq.
    - rewrite lookup_insert_ne by done. exact Hchat. }
  assert (user (state w') = None) as Huser
    by (subst w'; unfold logout; by destruct (truthy_opt _)).
  split; [|split; [|split; [|split; [|split]]]].
  - subst w'. unfold logout. by destruct (truthy_opt _).
  - intros now. subst w'. unfold logout, ApiProvider.getAuthToken,
      getAuthHeader, isTokenExpired.
    by destruct (truthy_opt _).
  - exact Hgone.
  - subst w'. unfold logout. destruct (truthy_opt _); simpl;
      apply lookup_insert_eq.
  - intros now response. unfold login. rewrite Huser. simpl.
    rewrite lookup_insert_ne by done. exact Hgone.
  - reflexivity.
Qed.

(** ["alice"] logs out, then ["bob"] logs in: her record is not there for
    him. *)
Lemma logout_clears_session_witness :
  localStorage
    (login (λ _, "session") 20 (token_for bob)
       (logout (λ _, "session") alice_world))
    !! CHAT_STORAGE
  = None.
Proof.
  pose proof (proj1 (proj2 (proj2 (proj2 (proj2
                (logout_clears_session (λ _, "session") alice_world)))))
                20 (token_for bob)) as Hgone.
  destruct (localStorage _ !! CHAT_STORAGE) as [v|] eqn:Hv; [|done].
  vm_compute in Hv. discriminate Hv.
Defined.

(** X11.  The two start-up checks agree: [initialize] leaves the session
    in the state the rehydration callback leaves it in.  Neither keeps a
    token whose expiry has passed.  Both keep a session that is within
    30 seconds of its expiry, for which there is no authorization header
    any more: no margin is applied at start-up. *)
Theorem startup_checks_agree
    (serialize : AuthStoreState.t → string) (now : Z) (w : World.t) :
  let s' := state (initialize serialize now w) in
  s' = AuthStore.onRehydrateStorage now (state w)
  ∧ isInitialized s' = true
  ∧ (∀ t e, token s' = Some t → t ≠ "" →
       expiresAt s' = Some e → ¬ (e == 0)%Q →
       (inject_Z now < e)%Q)
  ∧ (∀ t e, token (state w) = Some t → t ≠ "" →
       expiresAt (state w) = Some e → ¬ (e == 0)%Q →
       (e - 30000 <= inject_Z now)%Q → (inject_Z now < e)%Q →
       token s' = Some t
       ∧ user s' = user (state w)
       ∧ isAuthenticated s' = isAuthenticated (state w)
       ∧ getAuthHeader now s' = None).
Proof.
  intros s'. subst s'. unfold initialize, AuthStore.onRehydrateStorage.
  simpl. unfold truthy_num, Qge_bool.
  destruct (token (state w)) as [t|] eqn:Ht,
           (expiresAt (state w)) as [e|] eqn:He; simpl.
  2-4: split_and!; try done; intros; simpl in *; congruence.
  destruct (truthy t) eqn:Htruthy; simpl.
  2: { apply truthy_false in Htruthy. subst t. rewrite ?Ht, ?He.
       split_and!; try done; intros; simpl in *; congruence. }
  destruct (Qeq_bool e 0) eqn:Hzero; simpl.
  { apply Qeq_bool_iff in Hzero. rewrite ?Ht, ?He.
    split_and!; try done; intros t' e' ? ? [= <-] ?; tauto. }
  destruct (Qle_bool e (inject_Z now)) eqn:Hexpired; simpl.
  - apply Qle_bool_iff in Hexpired.
    split_and!; try done.
    intros t' e' _ _ [= <-] _ _ Hlt. by apply Qlt_not_le in Hlt.
  - rewrite ?Ht, ?He. split_and!; try done.
    + intros t' e' _ _ [= <-] _. apply Qnot_le_lt. intros Hle.
      apply Qle_bool_iff in Hle. congruence.
    + intros t' e' [= <-] Hne [= <-] He0 Hwindow Hlt.
      split_and!; try done.
      unfold getAuthHeader, isTokenExpired, truthy_num, Qge_bool. simpl.
      rewrite Htruthy, Hzero. simpl.
      apply Qle_bool_iff in Hwindow. rewrite Hwindow.
      by rewrite !orb_true_r.
Qed.

(** The session of ["alice"] expires at 100000; the application starts
    at 80000: the session is kept, and there is no header for it. *)
Lemma startup_checks_agree_witness :
  token (state (initialize (λ _, "session") 80000 alice_world))
  = Some "token-a"
  ∧ getAuthHeader 80000
      (state (initialize (λ _, "session") 80000 alice_world))
    = None.
Proof.
  destruct (proj2 (proj2 (proj2 (startup_checks_agree (λ _, "session") 80000
                                   alice_world)))
              "token-a" 100000%Q eq_refl ltac:(discriminate) eq_refl
              ltac:(discriminate) ltac:(discriminate) eq_refl)
    as (Htoken & _ & _ & Hheader).
  split; [exact Htoken|exact Hheader].
Defined.



(** X13.  The API client and the session store agree on the header: the
    [Authorization] header the request interceptor sets, with the getter
    [ApiProvider] registers, is the one [getAuthHeader] gives; with no
    getter registered the interceptor sets none. *)
Theorem request_header_agrees (now : Z) (s : AuthStoreState.t) :
  ApiProvider.request_interceptor (Some (ApiProvider.getAuthToken now s))
  = getAuthHeader now s
  ∧ ApiProvider.request_interceptor None = None.
Proof.
  split; [|done].
  unfold ApiProvider.request_interceptor, ApiProvider.getAuthToken,
    getAuthHeader, isTokenExpired.
  destruct (isAuthenticated s), (token s) as [t|]; simpl; try done.
  destruct (truthy t) eqn:Ht, (expiresAt s) as [e|]; simpl;
    rewrite ?Ht; try done.
  destruct (truthy_num e); simpl; rewrite ?Ht; [|done].
  destruct (Qge_bool (inject_Z now) (e - 30000)); simpl; by rewrite ?Ht.
Qed.

(** ** Polling, beyond the outcome *)

Section MorePollFacts.

Variable env : PollEnv.t.
Variable jobId : string.
Variables (startTime : Z) (timeout maxInterval : Q).

#[local] Abbreviation loop' := (poll_loop env jobId).

(** The calls of [onPoll] a run adds: numbered from the value of
    [attempt] on, each with what the backend answered, and none but the
    last with a status that ends the loop. *)
Lemma poll_loop_calls fuel :
  ∀ a interval polled delays,
    let r :=
      loop' fuel startTime timeout maxInterval a interval polled delays in
    ∃ new,
      PollRun.polled r = polled ++ new
      ∧ fst <$> new = seq (S a) (length new)
      ∧ (∀ n status, (n, status) ∈ new →
           PollEnv.getJobStatus env jobId n = inr status)
      ∧ (∀ i p, new !! i = Some p → (S i < length new)%nat → went_on p)
      ∧ (∀ status, PollRun.outcome r = Some (Returned status) →
           last new = Some (PollRun.attempt r, status)
           ∧ JobStatusResponse.status status = finished).
Proof.
  induction fuel as [|fuel IH]; intros a interval polled delays; simpl.
  - exists []. rewrite app_nil_r. split_and!; try done.
    intros n status Hin. by apply elem_of_nil in Hin.
  - destruct (Qlt_bool _ timeout).
    2:{ exists []. rewrite app_nil_r. split_and!; try done.
        intros n status Hin. by apply elem_of_nil in Hin. }
    destruct (PollEnv.getJobStatus env jobId (S a)) as [e|status] eqn:Hreq.
    { exists []. rewrite app_nil_r. split_and!; try done.
      intros n status Hin. by apply elem_of_nil in Hin. }
    assert (∀ n st, (n, st) ∈ [(S a, status)] →
              PollEnv.getJobStatus env jobId n = inr st) as Hone.
    { intros n st Hin. apply elem_of_cons in Hin as [Hin|Hin].
      - injection Hin as -> ->. done.
      - by apply elem_of_nil in Hin. }
    assert (∀ (i : nat) (p : nat * JobStatusResponse.t),
              [(S a, status)] !! i = Some p →
              (S i < length [(S a, status)])%nat → went_on p) as Hlast.
    { intros i p _ Hi. simpl in Hi. lia. }
    destruct (is_terminal (JobStatusResponse.status status)) eqn:Hst.
    + exists [(S a, status)].
      destruct (JobStatusResponse.status status) eqn:Hstatus;
        try discriminate Hst; simpl; split_and!; try done.
      intros st [= <-]. done.
    + destruct (IH (S a) (Qmin (interval * (3 # 2)) maxInterval)
                  (polled ++ [(S a, status)]) (delays ++ [interval]))
        as (new & Hp & Hnum & Hans & Hgo & Hret).
      exists ((S a, status) :: new).
      rewrite <- app_assoc in Hp. simpl in Hp.
      assert (∀ n st, (n, st) ∈ (S a, status) :: new →
                PollEnv.getJobStatus env jobId n = inr st) as Hans'.
      { intros n st Hin. apply elem_of_cons in Hin as [Hin|Hin].
        - injection Hin as -> ->. done.
        - by apply Hans. }
      assert (∀ (i : nat) (p : nat * JobStatusResponse.t),
                ((S a, status) :: new) !! i = Some p →
                (S i < length ((S a, status) :: new))%nat → went_on p)
        as Hgo'.
      { intros [|i] p Hp' Hi; simpl in Hp', Hi.
        - injection Hp' as <-. exact Hst.
        - apply (Hgo i p Hp'). lia. }
      assert (fst <$> (S a, status) :: new
              = seq (S a) (length ((S a, status) :: new))) as Hnum'.
      { change (S a :: (fst <$> new) = S a :: seq (S (S a)) (length new)).
        by rewrite Hnum. }
      destruct (JobStatusResponse.status status) eqn:Hstatus;
        try discriminate Hst; simpl; (split_and!; try done);
        intros st Hout; destruct (Hret st Hout) as [Hl Hf];
        (split; [|done]); (destruct new; [discriminate Hl|exact Hl]).
Qed.

#[local] Abbreviation in_time' k :=
  (inject_Z (PollEnv.Date_now env k - startTime) < timeout)%Q.

(** [n] polls that are made in time and answered with a status that is
    not terminal add [n] calls of [onPoll] and [n] delays. *)
Lemma poll_loop_skip_calls n :
  ∀ fuel a interval polled delays,
    (∀ k, (a < k ≤ a + n)%nat →
       in_time' k
       ∧ ∃ r, PollEnv.getJobStatus env jobId k = inr r
              ∧ is_terminal (JobStatusResponse.status r) = false) →
    ∃ new,
      length new = n
      ∧ loop' (n + fuel) startTime timeout maxInterval a interval polled
          delays
        = loop' fuel startTime timeout maxInterval (a + n)
            (next_interval interval maxInterval n) (polled ++ new)
            (delays ++ schedule interval maxInterval n).
Proof.
  induction n as [|n IH]; intros fuel a interval polled delays H.
  - exists []. simpl. by rewrite Nat.add_0_r, !app_nil_r.
  - destruct (H (S a) ltac:(lia)) as (Htime & r & Hr & Hstatus).
    apply Qlt_bool_iff in Htime.
    destruct (IH fuel (S a) (Qmin (interval * (3 # 2)) maxInterval)
                (polled ++ [(S a, r)]) (delays ++ [interval]))
      as (new & Hlen & Heq).
    { intros k Hk. apply H. lia. }
    exists ((S a, r) :: new). split; [simpl; by rewrite Hlen|].
    simpl. rewrite Htime, Hr.
    rewrite <- !app_assoc in Heq. simpl in Heq.
    rewrite Nat.add_succ_r.
    destruct (JobStatusResponse.status r); try discriminate Hstatus;
      exact Heq.
Qed.

(** A loop test that finds [timeout] or more elapsed within the fuel
    settles the run, at the latest. *)
Lemma poll_loop_settles m :
  ∀ fuel a interval polled delays,
    (m < fuel)%nat →
    (timeout <= inject_Z (PollEnv.Date_now env (S (a + m)) - startTime))%Q →
    let r :=
      loop' fuel startTime timeout maxInterval a interval polled delays in
    PollRun.outcome r ≠ None ∧ (PollRun.attempt r ≤ a + m)%nat.
Proof.
  induction m as [|m IH]; intros fuel a interval polled delays Hfuel Hout;
    (destruct fuel as [|fuel]; [lia|]); simpl.
  - rewrite Nat.add_0_r in Hout. apply Qlt_bool_false in Hout.
    rewrite Hout. simpl. split; [done|lia].
  - destruct (Qlt_bool _ timeout); [|simpl; split; [done|lia]].
    destruct (PollEnv.getJobStatus env jobId (S a)) as [e|status];
      [simpl; split; [done|lia]|].
    specialize (IH fuel (S a) (Qmin (interval * (3 # 2)) maxInterval)
                  (polled ++ [(S a, status)]) (delays ++ [interval])
                  ltac:(lia)).
    replace (S (S a + m)) with (S (a + S m)) in IH by lia.
    specialize (IH Hout). simpl in IH.
    destruct (JobStatusResponse.status status); simpl;
      try (split; [done|lia]);
      (split; [apply IH|destruct IH as [_ IH]; lia]).
Qed.

End MorePollFacts.



(** X15.  A status request that is rejected ends the polling: after [n]
    polls made in time with statuses that do not end the loop, a
    rejection of request [n + 1] with error [e] makes the call throw
    [e] itself; [onPoll] is not called for that request, and no timer is
    set after it. *)
Theorem status_rejection_propagates
    (env : PollEnv.t) (jobId : string) (options : PollOptions.t)
    (n fuel : nat) (e : ChatError.t) :
  let timeout := default 120000%Q (PollOptions.timeout options) in
  let run := pollJobUntilComplete env jobId fuel options in
  keeps_polling env jobId timeout n →
  (n < fuel)%nat →
  (elapsed env (S n) < timeout)%Q →
  PollEnv.getJobStatus env jobId (S n) = inl e →
  PollRun.outcome run = Some (Threw (ThrowChatError e))
  ∧ PollRun.attempt run = S n
  ∧ length (PollRun.polled run) = n
  ∧ length (PollRun.delays run) = n.
Proof.
  intros timeout run Hkeeps Hfuel Hin He.
  destruct (poll_loop_skip_calls env jobId (PollEnv.Date_now env 0) timeout
              (default 3000%Q (PollOptions.maxInterval options)) n
              (S (fuel - S n)) 0%nat
              (default 500%Q (PollOptions.initialInterval options)) [] [])
    as (new & Hlen & Hrun).
  { intros k Hk. apply Hkeeps. lia. }
  replace (n + S (fuel - S n))%nat with fuel in Hrun by lia.
  change (run = poll_loop env jobId (S (fuel - S n)) (PollEnv.Date_now env 0)
                  timeout (default 3000%Q (PollOptions.maxInterval options))
                  n
                  (next_interval
                     (default 500%Q (PollOptions.initialInterval options))
                     (default 3000%Q (PollOptions.maxInterval options)) n)
                  new
                  (schedule
                     (default 500%Q (PollOptions.initialInterval options))
                     (default 3000%Q (PollOptions.maxInterval options)) n))
    in Hrun.
  apply Qlt_bool_iff in Hin. unfold elapsed in Hin.
  rewrite Hrun. simpl. rewrite Hin, He. simpl.
  by rewrite length_schedule.
Qed.

(** The backend that is out of reach at the second request. *)
Lemma status_rejection_propagates_witness :
  PollRun.outcome (pollJobUntilComplete drops_second "job-4" 10 defaultOptions)
  = Some (Threw (ThrowChatError NETWORK_ERROR))
  ∧ length
      (PollRun.polled (pollJobUntilComplete drops_second "job-4" 10
                         defaultOptions)) = 1%nat.
Proof.
  destruct (status_rejection_propagates drops_second "job-4" defaultOptions
              1 10 NETWORK_ERROR) as (Hout & _ & Hcalls & _).
  - intros k Hk. assert (k = 1)%nat as -> by lia.
    split; [reflexivity|eexists; split; reflexivity].
  - lia.
  - reflexivity.
  - reflexivity.
  - split; [exact Hout|exact Hcalls].
Defined.

(** The schedule, entry by entry. *)
Lemma schedule_lookup (interval maxInterval : Q) (n k : nat) (d : Q) :
  schedule interval maxInterval n !! k = Some d →
  d = next_interval interval maxInterval k.
Proof.
  revert interval k. induction n as [|n IH]; intros interval [|k] H;
    simpl in H; try done.
  - by injection H as <-.
  - exact (IH _ _ H).
Qed.

Lemma next_interval_S (interval maxInterval : Q) (k : nat) :
  next_interval interval maxInterval (S k)
  = Qmin (next_interval interval maxInterval k * (3 # 2)) maxInterval.
Proof.
  revert interval. induction k as [|k IH]; intros interval; [done|].
  change (next_interval interval maxInterval (S (S k)))
    with (next_interval (Qmin (interval * (3 # 2)) maxInterval) maxInterval
            (S k)).
  by rewrite IH.
Qed.

Lemma next_interval_range (interval maxInterval : Q) (k : nat) :
  (0 <= interval)%Q → (interval <= maxInterval)%Q →
  (0 <= next_interval interval maxInterval k)%Q
  ∧ (next_interval interval maxInterval k <= maxInterval)%Q.
Proof.
  intros H0 Hmax. induction k as [|k [IH0 IHmax]]; [done|].
  rewrite next_interval_S. split; [|apply Q.le_min_r].
  apply Q.min_glb; lra.
Qed.

(** X16.  The delays of a run, whatever the options: the first is
    [initialInterval] as it is, also when it is beyond [maxInterval];
    every later one is at most [maxInterval]; and when
    [0 <= initialInterval <= maxInterval] no delay is shorter than the
    one before. *)
Theorem poll_delays_capped
    (env : PollEnv.t) (jobId : string) (fuel : nat) (options : PollOptions.t) :
  let initialInterval := default 500%Q (PollOptions.initialInterval options) in
  let maxInterval := default 3000%Q (PollOptions.maxInterval options) in
  let ds := PollRun.delays (pollJobUntilComplete env jobId fuel options) in
  (∀ d, ds !! 0%nat = Some d → d = initialInterval)
  ∧ (∀ i d, ds !! S i = Some d → (d <= maxInterval)%Q)
  ∧ ((0 <= initialInterval)%Q → (initialInterval <= maxInterval)%Q →
     ∀ i d d', ds !! i = Some d → ds !! S i = Some d' → (d <= d')%Q).
Proof.
  intros initialInterval maxInterval ds.
  destruct (poll_loop_delays env jobId (PollEnv.Date_now env 0)
              (default 120000%Q (PollOptions.timeout options)) maxInterval
              fuel 0%nat initialInterval [] []) as (j & new & Hd & _ & _).
  change (ds = schedule initialInterval maxInterval j) in Hd.
  rewrite Hd. split_and!.
  - intros d Hl. by apply schedule_lookup in Hl.
  - intros i d Hl. apply schedule_lookup in Hl as ->.
    rewrite next_interval_S. apply Q.le_min_r.
  - intros H0 Hmax i d d' Hl Hl'.
    apply schedule_lookup in Hl as ->. apply schedule_lookup in Hl' as ->.
    destruct (next_interval_range initialInterval maxInterval i H0 Hmax)
      as [Hi0 Himax].
    rewrite next_interval_S. apply Q.min_glb; lra.
Qed.

(** With a first interval of five seconds and a cap of three, the first
    timer is set to five seconds and the second to three. *)
Lemma poll_delays_capped_witness :
  PollRun.delays (pollJobUntilComplete queued_for_ever "job-3" 2 eager_cap)
  = [5000; 3000]%Q
  ∧ (3000 <= default 3000 (PollOptions.maxInterval eager_cap))%Q.
Proof.
  split; [reflexivity|].
  refine (proj1 (proj2 (poll_delays_capped queued_for_ever "job-3" 2
                          eager_cap)) 0%nat 3000%Q _).
  reflexivity.
Defined.

(** The default schedule is at its cap from the sixth delay on. *)
Lemma next_interval_at_cap (j : nat) : next_interval 3000 3000 j = 3000%Q.
Proof.
  induction j as [|j IH]; [done|]. rewrite next_interval_S, IH. reflexivity.
Qed.

Lemma next_default_capped (j : nat) :
  next_interval 500 3000 (5 + j) = 3000%Q.
Proof. exact (next_interval_at_cap j). Qed.

Lemma timer_default_le (k : nat) :
  timer_ms (next_interval 500 3000 k) ≤ 3000.
Proof.
  do 5 (destruct k as [|k]; [by vm_compute|]).
  change (S (S (S (S (S k))))) with (5 + k)%nat.
  rewrite next_default_capped. by vm_compute.
Qed.

(** What the loop tests find elapsed when the timers are respected. *)
Lemma timers_respected_elapsed (env : PollEnv.t) (j : nat) :
  timers_respected env →
  PollEnv.Date_now env 0 + 6593 + 3000 * Z.of_nat j
  ≤ PollEnv.Date_now env (6 + j).
Proof.
  intros [H0 Ht]. induction j as [|j IH].
  - assert (H1 := Ht 0%nat). assert (H2 := Ht 1%nat). assert (H3 := Ht 2%nat).
    assert (H4 := Ht 3%nat). assert (H5 := Ht 4%nat).
    change (timer_ms (next_interval 500 3000 0)) with 500 in H1.
    change (timer_ms (next_interval 500 3000 1)) with 750 in H2.
    change (timer_ms (next_interval 500 3000 2)) with 1125 in H3.
    change (timer_ms (next_interval 500 3000 3)) with 1687 in H4.
    change (timer_ms (next_interval 500 3000 4)) with 2531 in H5.
    change (6 + 0)%nat with 6%nat. lia.
  - assert (H := Ht (5 + j)%nat). rewrite next_default_capped in H.
    change (timer_ms 3000) with 3000 in H.
    change (6 + j)%nat with (S (5 + j)) in IH.
    replace (6 + S j)%nat with (S (S (5 + j))) by lia. lia.
Qed.

(** X17.  With the default options the call always settles: when the
    clock does not go back and the timers wait their delay, whatever the
    backend answers, the 44th loop test at the latest finds two minutes
    elapsed, so the call has settled after 44 iterations and has made at
    most 43 status requests. *)
Theorem default_poll_settles (env : PollEnv.t) (jobId : string) (fuel : nat) :
  timers_respected env →
  (44 ≤ fuel)%nat →
  let run := pollJobUntilComplete env jobId fuel defaultOptions in
  is_Some (PollRun.outcome run) ∧ (PollRun.attempt run ≤ 43)%nat.
Proof.
  intros Hclock Hfuel run.
  destruct (poll_loop_settles env jobId (PollEnv.Date_now env 0) 120000 3000
              43 fuel 0%nat 500%Q [] []) as [Hsome Hattempt].
  - lia.
  - assert (H := timers_respected_elapsed env 38 Hclock).
    change (6 + 38)%nat with (S (0 + 43)) in H.
    change 120000%Q with (inject_Z 120000). rewrite <- Zle_Qle. lia.
  - split; [|exact Hattempt].
    change (PollRun.outcome run ≠ None) in Hsome.
    destruct (PollRun.outcome run); [by eexists|done].
Qed.

(** A job that stays queued while the loop tests are three seconds
    apart. *)
Lemma default_poll_settles_witness :
  is_Some
    (PollRun.outcome
       (pollJobUntilComplete three_seconds_apart "job-5" 44 defaultOptions)).
Proof.
  refine (proj1 (default_poll_settles three_seconds_apart "job-5" 44 _ _)).
  - split; [by vm_compute|]. intros k.
    assert (H := timer_default_le k). simpl. lia.
  - lia.
Defined.

(** X18.  [sendMessageAndWait] returns a text only when the request was
    accepted and a status request for the job of that response was
    answered ['finished'] with that text, which is not empty.  When,
    after [n] polls that do not end the loop, the job is reported
    finished in time, the call returns the result text, and throws the
    error of code [NO_RESULT] when the text is absent or empty. *)
Theorem sendMessageAndWait_result
    (sendMessage : string → ChatError.t + ChatResponse.t) (env : PollEnv.t)
    (fuel : nat) (query : string) (options : option PollOptions.t) :
  (∀ reply,
     sendMessageAndWait sendMessage env fuel query options
     = Some (Returned reply) →
     reply ≠ ""
     ∧ ∃ response n status,
         sendMessage query = inr response
         ∧ PollEnv.getJobStatus env (ChatResponse.job_id response) n
           = inr status
         ∧ JobStatusResponse.status status = finished
         ∧ JobStatusResponse.result status = Some reply)
  ∧ (∀ response n status,
       let timeout :=
         default 120000%Q
           (PollOptions.timeout (default defaultOptions options)) in
       let jobId := ChatResponse.job_id response in
       sendMessage query = inr response →
       keeps_polling env jobId timeout n →
       (n < fuel)%nat →
       (elapsed env (S n) < timeout)%Q →
       PollEnv.getJobStatus env jobId (S n) = inr status →
       JobStatusResponse.status status = finished →
       sendMessageAndWait sendMessage env fuel query options
       = Some (match JobStatusResponse.result status with
               | Some reply =>
                   if decide (reply = "") then Threw NO_RESULT
                   else Returned reply
               | None => Threw NO_RESULT
               end)).
Proof.
  split.
  - intros reply Hret. unfold sendMessageAndWait in Hret.
    destruct (sendMessage query) as [e|response] eqn:Hsend; [done|].
    destruct (poll_loop_calls env (ChatResponse.job_id response)
                (PollEnv.Date_now env 0)
                (default 120000%Q
                   (PollOptions.timeout (default defaultOptions options)))
                (default 3000%Q
                   (PollOptions.maxInterval (default defaultOptions options)))
                fuel 0%nat
                (default 500%Q
                   (PollOptions.initialInterval
                      (default defaultOptions options))) [] [])
      as (new & _ & _ & Hans & _ & Hfin).
    unfold pollJobUntilComplete in Hret. cbv zeta in Hret.
    match type of Hret with
    | context [PollRun.outcome ?r] =>
        destruct (PollRun.outcome r) as [[status|thrown]|] eqn:Hout
    end; try done.
    destruct (Hfin status eq_refl) as [Hlast Hst].
    apply last_Some in Hlast as [calls Hcalls].
    assert (PollEnv.getJobStatus env (ChatResponse.job_id response)
              (PollRun.attempt
                 (poll_loop env (ChatResponse.job_id response) fuel
                    (PollEnv.Date_now env 0)
                    (default 120000%Q
                       (PollOptions.timeout (default defaultOptions options)))
                    (default 3000%Q
                       (PollOptions.maxInterval
                          (default defaultOptions options)))
                    0
                    (default 500%Q
                       (PollOptions.initialInterval
                          (default defaultOptions options))) [] []))
            = inr status) as Hanswer.
    { apply Hans. rewrite Hcalls. apply elem_of_app. right.
      apply elem_of_cons. by left. }
    destruct (JobStatusResponse.result status) as [t|] eqn:Hres;
      simpl in Hret; [|done].
    destruct (truthy t) eqn:Ht; [|done]. injection Hret as <-.
    split; [by apply truthy_true|].
    eexists response, _, status. done.
  - intros response n status timeout jobId Hsend Hkeeps Hfuel Hin Hr Hst.
    subst timeout jobId.
    destruct (poll_loop_skip_calls env (ChatResponse.job_id response)
                (PollEnv.Date_now env 0)
                (default 120000%Q
                   (PollOptions.timeout (default defaultOptions options)))
                (default 3000%Q
                   (PollOptions.maxInterval (default defaultOptions options)))
                n (S (fuel - S n)) 0%nat
                (default 500%Q
                   (PollOptions.initialInterval
                      (default defaultOptions options))) [] [])
      as (new & Hlen & Hrun).
    { intros k Hk. apply Hkeeps. lia. }
    replace (n + S (fuel - S n))%nat with fuel in Hrun by lia.
    apply Qlt_bool_iff in Hin. unfold elapsed in Hin.
    unfold sendMessageAndWait. rewrite Hsend.
    unfold pollJobUntilComplete. cbv zeta. rewrite Hrun.
    cbn [poll_loop Nat.add]. rewrite Hin, Hr, Hst. cbn [PollRun.outcome].
    destruct (JobStatusResponse.result status) as [t|]; simpl; [|done].
    case_decide as Ht.
    + subst t. done.
    + apply truthy_true in Ht. by rewrite Ht.
Qed.

(** The job that is finished at the third poll with result ["42"]. *)
Lemma sendMessageAndWait_result_witness :
  sendMessageAndWait accepts finishes_third 10 "what is the answer?" None
  = Some (Returned "42").
Proof.
  refine (proj2 (sendMessageAndWait_result accepts finishes_third 10
                   "what is the answer?" None)
            (ChatResponse.mk "job-7" queued "alice") 2%nat
            (JobStatusResponse.mk finished (Some "42") None)
            eq_refl _ _ _ eq_refl eq_refl).
  - intros k Hk. assert (k = 1 ∨ k = 2)%nat as [-> | ->] by lia;
      (split; [reflexivity|eexists; split; reflexivity]).
  - lia.
  - reflexivity.
Defined.

(** ** Uploads, beyond the ranges *)

Section MoreUploadFacts.

Variable env : UploadEnv.t.
Variable file : File.t.
Variable uploadId : string.

#[local] Abbreviation batch' := (upload_batch env file uploadId).

#[local] Abbreviation answered c :=
  (∃ data, UploadEnv.post env (request_of file uploadId c) = inr data).

(** Every request of a batch is issued, whatever the backend does. *)
Lemma upload_batch_issued l r :
  UploadRun.issued (batch' l r)
  = UploadRun.issued r ++ (request_of file uploadId <$> l).
Proof.
  revert r. induction l as [|c l IH]; intros r; simpl;
    [by rewrite app_nil_r|].
  rewrite IH. destruct (UploadEnv.post env _); simpl; by rewrite <- app_assoc.
Qed.

Lemma upload_batch_rejected_keeps l r e :
  UploadRun.rejected r = Some e → UploadRun.rejected (batch' l r) = Some e.
Proof.
  revert r. induction l as [|c l IH]; intros r Hr; simpl; [done|].
  apply IH. destruct (UploadEnv.post env _); simpl; by rewrite Hr.
Qed.

Lemma upload_batch_quiet l r :
  Forall (λ c, answered c) l →
  UploadRun.rejected (batch' l r) = UploadRun.rejected r.
Proof.
  revert r. induction l as [|c l IH]; intros r Hl; simpl; [done|].
  apply Forall_cons in Hl as [[data Hd] Hl]. rewrite IH by done.
  by rewrite Hd.
Qed.

Lemma upload_batch_rejects l r j ck e :
  l !! j = Some ck →
  (∀ j' c', (j' < j)%nat → l !! j' = Some c' → answered c') →
  UploadEnv.post env (request_of file uploadId ck) = inl e →
  UploadRun.rejected r = None →
  UploadRun.rejected (batch' l r) = Some e.
Proof.
  revert r j. induction l as [|c l IH]; intros r j Hj Hbefore He Hr; [done|].
  destruct j as [|j]; simpl in Hj.
  - injection Hj as ->. simpl. rewrite He.
    apply upload_batch_rejected_keeps. simpl. by rewrite Hr.
  - simpl. destruct (Hbefore 0%nat c ltac:(lia) eq_refl) as [data Hd].
    rewrite Hd. apply (IH _ j); try done.
    intros j' c' Hj' Hc'. apply (Hbefore (S j') c'); [lia|done].
Qed.

(** The batches up to the one that holds the first part to be rejected
    are sent, and no later one. *)
Lemma upload_batches_stop concurrency chunks k ck e :
  (1 ≤ concurrency)%nat →
  chunks !! k = Some ck →
  (∀ j c, (j < k)%nat → chunks !! j = Some c → answered c) →
  UploadEnv.post env (request_of file uploadId ck) = inl e →
  ∀ fuel i r,
    (i ≤ k)%nat →
    (length chunks - i ≤ fuel)%nat →
    UploadRun.rejected r = None →
    let m := (((k - i) / concurrency + 1) * concurrency)%nat in
    upload_batches env file fuel uploadId concurrency chunks i r
    = batch' (take m (drop i chunks)) r
    ∧ UploadRun.rejected (batch' (take m (drop i chunks)) r) = Some e.
Proof.
  intros Hc Hk Hbefore He.
  pose proof (lookup_lt_Some _ _ _ Hk) as Hlen.
  induction fuel as [|fuel IH]; intros i r Hi Hfuel Hr m; [lia|].
  simpl.
  assert ((i <? length chunks)%nat = true) as -> by (apply Nat.ltb_lt; lia).
  destruct (decide (k < i + concurrency)%nat) as [Hin|Hout].
  - assert (m = concurrency) as ->.
    { subst m. rewrite Nat.div_small by lia. lia. }
    assert (UploadRun.rejected (batch' (take concurrency (drop i chunks)) r)
            = Some e) as Hrej.
    { apply (upload_batch_rejects _ _ (k - i)%nat ck); try done.
      - rewrite lookup_take_lt by lia. rewrite lookup_drop.
        by replace (i + (k - i))%nat with k by lia.
      - intros j' c' Hj' Hc'. apply lookup_take_Some in Hc' as [Hc' _].
        rewrite lookup_drop in Hc'. apply (Hbefore (i + j')%nat); [lia|done]. }
    by rewrite Hrej.
  - assert (UploadRun.rejected (batch' (take concurrency (drop i chunks)) r)
            = None) as Hq.
    { rewrite upload_batch_quiet; [done|]. apply Forall_lookup.
      intros j' c' Hc'. apply lookup_take_Some in Hc' as [Hc' Hj'].
      rewrite lookup_drop in Hc'. apply (Hbefore (i + j')%nat); [lia|done]. }
    rewrite Hq.
    destruct (IH (i + concurrency)%nat
                (batch' (take concurrency (drop i chunks)) r))
      as [Heq Hrej]; [lia|lia|done|].
    assert (m = (concurrency
                 + ((k - (i + concurrency)) / concurrency + 1) * concurrency)%nat)
      as Hm.
    { subst m.
      replace (k - i)%nat
        with ((k - (i + concurrency)) + 1 * concurrency)%nat at 1 by lia.
      rewrite Nat.div_add by lia. lia. }
    rewrite Hm, <- take_take_drop, drop_drop, upload_batch_app. done.
Qed.

End MoreUploadFacts.

(** The chunking loop goes on while [start < total]; a chunk size that
    is not positive never gets it there. *)
Lemma build_chunks_runs_on (fuel : nat) (total chunkSize start : Z) :
  chunkSize ≤ 0 → start < total →
  build_chunks fuel total chunkSize start = None.
Proof.
  intros HC. revert start. induction fuel as [|fuel IH]; intros start Hlt;
    simpl; [done|].
  rewrite (proj2 (Z.ltb_lt _ _) Hlt). by rewrite IH by lia.
Qed.

(** X19.  An empty file sent in ranges: no request is issued, and the
    call throws the upload-incomplete error, whatever the backend would
    have answered.  That is the route the upload form takes, which asks
    for a ranged upload of every file. *)
Theorem empty_file_upload
    (env : IngestEnv.t) (file : File.t) (fuel : nat)
    (options : IngestOptions.t) :
  File.size file = 0 →
  (0 < fuel)%nat →
  (∀ range_options,
     ingestRange (IngestEnv.ranged env) file fuel range_options
     = Some ([], Threw incomplete))
  ∧ (IngestOptions.useChunking options = Some true →
     ingest env file fuel (Some options)
     = Some (RangedUpload [], Threw incomplete)).
Proof.
  intros Hsize Hfuel. destruct fuel as [|fuel]; [lia|].
  assert (∀ range_options,
            ingestRange (IngestEnv.ranged env) file (S fuel) range_options
            = Some ([], Threw incomplete)) as Hrange.
  { intros range_options. unfold ingestRange. rewrite Hsize. reflexivity. }
  split; [exact Hrange|].
  intros Huse. unfold ingest, ingestSmart. simpl. rewrite Huse. simpl.
  by rewrite Hrange.
Qed.

(** The empty file, sent with the options of the upload form. *)
Lemma empty_file_upload_witness :
  ingest accepts_all empty_note 4 (Some (form_options "f1-empty.txt"))
  = Some (RangedUpload [], Threw incomplete).
Proof.
  refine (proj2 (empty_file_upload accepts_all empty_note 4
                   (form_options "f1-empty.txt") eq_refl _) eq_refl).
  lia.
Defined.

(** X20.  With a chunk size of zero or less and a file that is not
    empty, the test of the chunking loop of [ingestRange] never fails:
    whatever the number of iterations, the call has issued no request
    and has not settled (only the host can end such a loop, by running
    out of memory).  A chunk size of 0 is kept as it is, the default
    replacing an absent one only.  [ingest] gets there with such a chunk
    size when no threshold is given, the threshold then being the chunk
    size. *)
Theorem nonpositive_chunk_size_never_ends
    (env : IngestEnv.t) (file : File.t) (fuel : nat) (chunkSize : Z) :
  0 < File.size file →
  chunkSize ≤ 0 →
  (∀ options,
     RangeOptions.chunkSize options = Some chunkSize →
     ingestRange (IngestEnv.ranged env) file fuel options = None)
  ∧ (∀ options,
       IngestOptions.chunkSize options = Some chunkSize →
       IngestOptions.thresholdBytes options = None →
       ingest env file fuel (Some options) = None).
Proof.
  intros Hsize HC.
  assert (∀ options,
            RangeOptions.chunkSize options = Some chunkSize →
            ingestRange (IngestEnv.ranged env) file fuel options = None)
    as Hrange.
  { intros options Hoptions. unfold ingestRange. rewrite Hoptions. simpl.
    by rewrite build_chunks_runs_on. }
  split; [exact Hrange|].
  intros options Hoptions Hthreshold. unfold ingest, ingestSmart. simpl.
  rewrite Hoptions, Hthreshold. simpl.
  rewrite (proj2 (Z.ltb_lt chunkSize (File.size file))) by lia.
  rewrite orb_true_r. by rewrite Hrange.
Qed.

(** The 12 MiB file with a chunk size of zero. *)
Lemma nonpositive_chunk_size_never_ends_witness :
  ingestRange last_succeeds twelve_MiB 1000
    (RangeOptions.mk (Some 0) None None) = None.
Proof.
  refine (proj1 (nonpositive_chunk_size_never_ends accepts_all twelve_MiB 1000
                   0 _ _) (RangeOptions.mk (Some 0) None None) eq_refl).
  - reflexivity.
  - lia.
Defined.

(** X21.  A part that is rejected stops the upload.  When part [k] is
    the first, in the order of the ranges, to be rejected, the requests
    issued are those of the batches up to the one that holds part [k]:
    the first [(k / c + 1) * c] ranges ([c] being the concurrency,
    between 1 and 8), or all of them when there are fewer.  No request
    of a later batch is issued, and the call throws the error of a
    rejected part of that last batch, also when the range that ends the
    file was accepted in it. *)
Theorem rejected_part_stops_upload
    (env : UploadEnv.t) (file : File.t) (options : RangeOptions.t)
    (fuel k : nat) (e : ChatError.t) :
  let total := File.size file in
  let chunkSize := default (5 * 1024 * 1024) (RangeOptions.chunkSize options) in
  let n := Z.to_nat (ceil_div total chunkSize) in
  let c :=
    Z.to_nat
      (Z.max 1 (Z.min (default 4 (RangeOptions.concurrency options)) 8)) in
  let uploadId :=
    default (UploadEnv.generated_id env) (RangeOptions.uploadId options) in
  let request (i : nat) :=
    request_of file uploadId (nth_chunk chunkSize total i) in
  0 < chunkSize →
  (n < fuel)%nat →
  (k < n)%nat →
  (∀ i, (i < k)%nat → ∃ data, UploadEnv.post env (request i) = inr data) →
  UploadEnv.post env (request k) = inl e →
  ∃ e' j,
    ingestRange env file fuel options
    = Some (request <$> seq 0 (((k / c + 1) * c) `min` n),
            Threw (ThrowChatError e'))
    ∧ (k ≤ j < (k / c + 1) * c)%nat
    ∧ UploadEnv.post env (request j) = inl e'.
Proof.
  intros total chunkSize n c uploadId request HC Hfuel Hk Hbefore He.
  exists e, k. split; [|split; [|exact He]].
  2:{ assert (1 ≤ c)%nat as Hc by (subst c; lia).
      pose proof (Nat.div_mod_eq k c) as Hdiv.
      pose proof (Nat.mod_upper_bound k c ltac:(lia)) as Hmod. nia. }
  unfold ingestRange. fold total chunkSize uploadId.
  set (chunks := nth_chunk chunkSize total <$> seq 0 n).
  assert (build_chunks fuel total chunkSize 0 = Some chunks) as Hchunks
    by exact (build_chunks_closed chunkSize total HC n 0%nat fuel eq_refl
                Hfuel).
  rewrite Hchunks. simpl.
  assert (length chunks = n) as Hlen
    by (subst chunks; by rewrite length_fmap, length_seq).
  assert (∀ i, (i < n)%nat → chunks !! i = Some (nth_chunk chunkSize total i))
    as Hlookup.
  { intros i Hi. subst chunks. rewrite list_lookup_fmap, lookup_seq_lt by done.
    done. }
  destruct (upload_batches_stop env file uploadId c chunks k
              (nth_chunk chunkSize total k) e) with
    (fuel := length chunks) (i := 0%nat) (r := UploadRun.mk [] None None)
    as [Heq Hrej]; try done.
  - subst c. lia.
  - by apply Hlookup.
  - intros j c0 Hj Hc0. rewrite Hlookup in Hc0 by lia. injection Hc0 as <-.
    by apply Hbefore.
  - lia.
  - lia.
  - rewrite Nat.sub_0_r, drop_0 in Heq, Hrej. fold c.
    rewrite Heq, Hrej, upload_batch_issued. simpl. do 2 f_equal.
    subst chunks. rewrite <- fmap_take, take_seq, <- list_fmap_compose.
    done.
Qed.

(** The 12 MiB file sent one part at a time to a backend that is out of
    reach for the second part: the third part is not sent. *)
Lemma rejected_part_stops_upload_witness :
  ∃ e',
    ingestRange second_part_fails twelve_MiB 4 one_by_one
    = Some ([part_request 0 5242879; part_request 5242880 10485759],
            Threw (ThrowChatError e')).
Proof.
  destruct (rejected_part_stops_upload second_part_fails twelve_MiB one_by_one
              4 1 NETWORK_ERROR) as (e' & j & Hrun & _ & _).
  - reflexivity.
  - vm_compute. lia.
  - vm_compute. lia.
  - intros i Hi. assert (i = 0)%nat as -> by lia. eexists. reflexivity.
  - reflexivity.
  - exists e'. exact Hrun.
Defined.

(** X22.  [ingest] without options, as [ingestMultiple] calls it: a file
    of at most 5 MiB goes up in one request to [/ingest], whose response
    (or rejection) is the outcome; a bigger file goes up in ranges of
    5 MiB, in at least two requests, all under the generated upload
    id. *)
Theorem ingest_default_route
    (env : IngestEnv.t) (file : File.t) (fuel : nat) :
  let total := File.size file in
  (total ≤ 5242880 →
     ingest env file fuel None
     = Some (SingleUpload, settle (IngestEnv.post_ingest env file)))
  ∧ (5242880 < total →
     answers_all (IngestEnv.ranged env) →
     (Z.to_nat (ceil_div total 5242880) < fuel)%nat →
     ∃ requests settled,
       ingest env file fuel None = Some (RangedUpload requests, settled)
       ∧ length requests = Z.to_nat (ceil_div total 5242880)
       ∧ (2 ≤ length requests)%nat
       ∧ Forall
           (λ r, RangeRequest.range_total r = total
                 ∧ RangeRequest.upload_id r
                   = UploadEnv.generated_id (IngestEnv.ranged env))
           requests).
Proof.
  intros total. split.
  - intros Hsmall. unfold ingest, ingestSmart. simpl.
    change (5 * 1024 * 1024) with 5242880.
    rewrite (proj2 (Z.ltb_ge 5242880 (File.size file))) by done.
    reflexivity.
  - intros Hbig Hanswers Hfuel. unfold ingest, ingestSmart. simpl.
    change (5 * 1024 * 1024) with 5242880.
    rewrite (proj2 (Z.ltb_lt 5242880 (File.size file))) by done.
    unfold ingestRange. simpl. fold total.
    set (n := Z.to_nat (ceil_div total 5242880)) in *.
    set (chunks := nth_chunk 5242880 total <$> seq 0 n).
    assert (build_chunks fuel total 5242880 0 = Some chunks) as Hchunks
      by exact (build_chunks_closed 5242880 total ltac:(lia) n 0%nat fuel
                  eq_refl Hfuel).
    rewrite Hchunks. simpl.
    rewrite (upload_batches_all (IngestEnv.ranged env) file
               (UploadEnv.generated_id (IngestEnv.ranged env)) Hanswers)
      by (simpl; try done; lia).
    rewrite drop_0.
    destruct (upload_batch_answered (IngestEnv.ranged env) file
                (UploadEnv.generated_id (IngestEnv.ranged env)) Hanswers
                chunks (UploadRun.mk [] None None)) as [Hissued Hrejected].
    eexists _, _. split; [reflexivity|]. rewrite Hissued. simpl.
    assert (length (request_of file
                      (UploadEnv.generated_id (IngestEnv.ranged env))
                    <$> chunks) = n) as Hlen
      by (subst chunks; by rewrite !length_fmap, length_seq).
    split_and!.
    + exact Hlen.
    + rewrite Hlen. subst n.
      assert (1 < ceil_div total 5242880); [|lia].
      apply lt_ceil_div; lia.
    + apply Forall_fmap, Forall_forall. intros c _. done.
Qed.

(** A file of exactly 5 MiB goes up in one request. *)
Lemma ingest_default_route_witness :
  ingest accepts_all (File.mk "five.bin" 5242880 "") 4 None
  = Some (SingleUpload, Returned (part_reply success)).
Proof.
  refine (proj1 (ingest_default_route accepts_all
                   (File.mk "five.bin" 5242880 "") 4) _).
  simpl. lia.
Defined.

Section MultipleFacts.

Variable ingest_file : File.t → option (Settled IngestDocumentResponse.t).

#[local] Abbreviation ingested :=
  (Forall2 (λ f d, ingest_file f = Some (Returned d))).

Lemma ingestMultiple_from_all total files :
  ∀ i results new,
    ingested files new →
    ingestMultiple_from ingest_file total files i results
    = (progress_calls total i files, Some (Returned (results ++ new))).
Proof.
  induction files as [|f files IH]; intros i results new Hall.
  - apply Forall2_nil_inv_l in Hall as ->. simpl. by rewrite app_nil_r.
  - apply Forall2_cons_inv_l in Hall as (d & new' & Hd & Hall & ->).
    simpl. rewrite Hd, (IH (S i) (results ++ [d]) new' Hall).
    by rewrite <- app_assoc.
Qed.

Lemma ingestMultiple_from_stops total before f after e :
  ∀ i results new,
    ingested before new →
    ingest_file f = Some (Threw e) →
    ingestMultiple_from ingest_file total (before ++ f :: after) i results
    = (progress_calls total i before
       ++ [Progress.mk (i + length before) total f],
       Some (Threw e)).
Proof.
  induction before as [|f0 before IH]; intros i results new Hall He.
  - simpl. rewrite He. by rewrite Nat.add_0_r.
  - apply Forall2_cons_inv_l in Hall as (d & new' & Hd & Hall & ->).
    simpl. rewrite Hd, (IH (S i) (results ++ [d]) new' Hall He).
    by rewrite Nat.add_succ_r.
Qed.

End MultipleFacts.

(** X23.  [ingestMultiple] ingests the files one after the other, in
    the order given.  When every file is ingested, the responses are
    returned in the order of the files, and [onProgress] was called
    before and after each file, with the index of the file and with that
    index plus one.  When a file fails, the call throws its error: the
    responses of the files before it are not returned, and the last
    [onProgress] call is the one made before the file that failed, no
    file after it being touched. *)
Theorem ingestMultiple_in_order
    (ingest_file : File.t → option (Settled IngestDocumentResponse.t))
    (files : list File.t) :
  (∀ results,
     Forall2 (λ f d, ingest_file f = Some (Returned d)) files results →
     ingestMultiple ingest_file files
     = (progress_calls (length files) 0 files, Some (Returned results)))
  ∧ (∀ before f after results e,
       files = before ++ f :: after →
       Forall2 (λ f d, ingest_file f = Some (Returned d)) before results →
       ingest_file f = Some (Threw e) →
       ingestMultiple ingest_file files
       = (progress_calls (length files) 0 before
          ++ [Progress.mk (length before) (length files) f],
          Some (Threw e))).
Proof.
  split.
  - intros results Hall. unfold ingestMultiple.
    by rewrite (ingestMultiple_from_all ingest_file _ files 0 [] results).
  - intros before f after results e -> Hall He. unfold ingestMultiple.
    by rewrite (ingestMultiple_from_stops ingest_file _ before f after e 0 []
                  results).
Qed.

(** A small file and the 12 MiB file, each ingested by [ingest] without
    options. *)
Lemma ingestMultiple_in_order_witness :
  (ingestMultiple (λ f, snd <$> ingest accepts_all f 4 None)
     [small_note; twelve_MiB]).2
  = Some (Returned [part_reply success; part_reply success]).
Proof.
  refine (f_equal snd
            (proj1 (ingestMultiple_in_order
                      (λ f, snd <$> ingest accepts_all f 4 None)
                      [small_note; twelve_MiB])
               [part_reply success; part_reply success] _)).
  constructor; [reflexivity|]. constructor; [reflexivity|]. constructor.
Defined.

(** ** The chat hook *)

Import UseChat.

Section HookFacts.

Variable extractConversationTitle : string → string.

#[local] Abbreviation addMessage' := (addMessage extractConversationTitle).



Lemma updateMessage_touch now cid messageId updates s i c j m :
  find_conversation cid (conversations s) = Some (i, c) →
  find_message messageId (Conversation.messages c) = Some (j, m) →
  updateMessage now cid messageId updates s
  = set_conversations
      (<[i := Conversation.mk (Conversation.id c) (Conversation.title c)
                (Conversation.userId c)
                (<[j := assign_message m updates]> (Conversation.messages c))
                (Conversation.createdAt c) now]> (conversations s)) s.
Proof. intros Hf Hm. unfold updateMessage. by rewrite Hf, Hm. Qed.



End HookFacts.






(** [updateMessage] on a message the conversation holds, as seen by the
    readers of the store. *)
Lemma getMessages_updateMessage now cid mid updates s c j m :
  getConversation cid s = Some c →
  find_message mid (Conversation.messages c) = Some (j, m) →
  let s' := updateMessage now cid mid updates s in
  getMessages cid s' = <[j := assign_message m updates]> (Conversation.messages c)
  ∧ isSending s' = isSending s
  ∧ ChatState.error s' = ChatState.error s
  ∧ pendingJobs s' = pendingJobs s
  ∧ activeConversationId s' = activeConversationId s.
Proof.
  intros Hc Hm s'. apply getConversation_find in Hc as [i Hf].
  pose proof (find_conversation_Some _ _ _ _ Hf) as [_ Hid].
  subst s'. rewrite (updateMessage_touch now cid mid updates s i c j m Hf Hm).
  split_and!; try done.
  unfold getMessages.
  rewrite (getConversation_touch cid cid s i c) by done.
  by rewrite decide_True.
Qed.

(** X26.  [pollForResponse], once the polling has settled, for a
    placeholder the conversation holds.  The job is no longer tracked,
    however the polling ended, and the other jobs are.  A finished job
    with a result text puts that text in the placeholder, with status
    ['sent'] and the job id and the processing time as metadata; the time
    is counted from the start instant of the job when it is tracked.  A
    finished job whose result is absent or empty changes no message: the
    placeholder keeps its content and its status ['sending'], though no
    job is tracked for it any more.  A polling that threw puts
    ["Error: "] and the message of the error in the placeholder, with
    status ['error'], and sets the error of the store. *)
Theorem pollForResponse_settles_placeholder
    (jobId cid mid : string) (settled : Settled JobStatusResponse.t)
    (now1 now2 now : Z) (s : ChatState.t) (c : Conversation.t) (j : nat)
    (m : Message.t) :
  let s' := pollForResponse_settled jobId cid mid settled now1 now2 now s in
  getConversation cid s = Some c →
  find_message mid (Conversation.messages c) = Some (j, m) →
  pendingJobs s' = delete jobId (pendingJobs s)
  ∧ (∀ r reply,
       settled = Returned r →
       JobStatusResponse.result r = Some reply →
       reply ≠ "" →
       ∃ processingTime,
         getMessages cid s'
         = <[j := Message.mk (Message.id m) (Message.role m) reply
                    (Message.timestamp m) (Some sent)
                    (Some {[ "jobId" := JsStr jobId;
                             "processingTime" :=
                               JsNum (inject_Z processingTime) ]})]>
             (Conversation.messages c)
         ∧ (∀ job, pendingJobs s !! jobId = Some job →
              PendingJob.startedAt job ≠ 0 →
              processingTime = now1 - PendingJob.startedAt job)
         ∧ ChatState.error s' = ChatState.error s)
  ∧ (∀ r,
       settled = Returned r →
       JobStatusResponse.result r = None
       ∨ JobStatusResponse.result r = Some "" →
       conversations s' = conversations s
       ∧ ChatState.error s' = ChatState.error s)
  ∧ (∀ err,
       settled = Threw err →
       getMessages cid s'
       = <[j := Message.mk (Message.id m) (Message.role m)
                  ("Error: " ++ message_of err) (Message.timestamp m)
                  (Some Types.error) (Message.metadata m)]>
           (Conversation.messages c)
       ∧ ChatState.error s' = Some (message_of err)).
Proof.
  intros s' Hc Hm. subst s'. unfold pollForResponse_settled. split_and!.
  - destruct settled as [r|err].
    + destruct (truthy_opt (JobStatusResponse.result r)); [|done].
      match goal with
      | |- context [updateMessage ?t cid mid ?u s] =>
          destruct (getMessages_updateMessage t cid mid u s c j m Hc Hm)
            as (_ & _ & _ & Hjobs & _)
      end.
      simpl. by rewrite Hjobs.
    + destruct (getMessages_updateMessage now cid mid
                  (error_patch (message_of err)) s c j m Hc Hm)
        as (_ & _ & _ & Hjobs & _).
      simpl. by rewrite Hjobs.
  - intros r reply -> Hres Hreply. rewrite Hres. simpl.
    rewrite (proj2 (truthy_true reply) Hreply).
    match goal with
    | |- context [updateMessage ?t cid mid ?u s] =>
        destruct (getMessages_updateMessage t cid mid u s c j m Hc Hm)
          as (Hmsgs & _ & Herr & _ & _)
    end.
    eexists. split; [exact Hmsgs|]. split; [|exact Herr].
    intros job Hjob Hstart. unfold getPendingJob. rewrite Hjob. simpl.
    by rewrite (proj2 (Z.eqb_neq _ _) Hstart).
  - intros r -> Hres.
    assert (truthy_opt (JobStatusResponse.result r) = false) as ->
      by (destruct Hres as [-> | ->]; reflexivity).
    done.
  - intros err ->.
    destruct (getMessages_updateMessage now cid mid
                (error_patch (message_of err)) s c j m Hc Hm)
      as (Hmsgs & _ & _ & _ & _).
    split; [exact Hmsgs|done].
Qed.

(** The job of ["m9"] is reported finished without a result: the
    placeholder stays as it is, and the job is gone. *)
Lemma pollForResponse_settles_placeholder_witness :
  conversations
    (pollForResponse_settled "job-1" "c1" "m9"
       (Returned (JobStatusResponse.mk finished None None)) 9 9 9
       (addPendingJob job_of_m9 asked))
  = conversations asked.
Proof.
  refine (proj1 (proj1 (proj2 (proj2 (pollForResponse_settles_placeholder
                                        "job-1" "c1" "m9"
                                        (Returned (JobStatusResponse.mk
                                                     finished None None))
                                        9 9 9 (addPendingJob job_of_m9 asked)
                                        _ 1%nat _ eq_refl eq_refl)))
                   _ eq_refl _)).
  by left.
Defined.

(** X27.  [cancelJob] stops tracking the job and changes no message: it
    looks the job up after it has removed it, so the message of the job
    is never set to ["Request cancelled"] and keeps its content and
    status. *)
Theorem cancelJob_never_marks (now : Z) (jobId : string) (s : ChatState.t) :
  cancelJob now jobId s = removePendingJob jobId s
  ∧ conversations (cancelJob now jobId s) = conversations s
  ∧ getPendingJob jobId (cancelJob now jobId s) = None
  ∧ ChatState.error (cancelJob now jobId s) = ChatState.error s.
Proof.
  assert (cancelJob now jobId s = removePendingJob jobId s) as ->.
  { unfold cancelJob, getPendingJob, removePendingJob. simpl.
    by rewrite lookup_delete_eq. }
  split_and!; try done.
  unfold getPendingJob, removePendingJob. simpl. apply lookup_delete_eq.
Qed.

(** The active conversation is held under its own id. *)
Lemma getActiveConversation_held s c :
  getActiveConversation s = Some c →
  getConversation (Conversation.id c) s = Some c.
Proof.
  unfold getActiveConversation.
  destruct (activeConversationId s) as [a|]; [|done].
  destruct (truthy a); [|done]. intros Hc.
  apply getConversation_find in Hc as Hf. destruct Hf as [i Hf].
  apply find_conversation_Some in Hf as [_ ->]. done.
Qed.

(** X28.  [retryMessage] on a user message of the active conversation
    that an assistant message follows resends the content of the user
    message and resets the assistant message to the placeholder (content
    ["..."], status ['sending']), whatever its status and content were:
    the code does not ask for it to be in error.  When it resends
    nothing, it changes no message. *)
Theorem retryMessage_resends (now : Z) (messageId : string) (s : ChatState.t) :
  (∀ c i m p,
     let out := retryMessage_begin true now messageId s in
     getActiveConversation s = Some c →
     find_message messageId (Conversation.messages c) = Some (i, m) →
     Message.role m = Types.user →
     Conversation.messages c !! S i = Some p →
     Message.role p = assistant →
     find_message (Message.id p) (Conversation.messages c) = Some (S i, p) →
     out.1
     = Some (Turn.mk (Conversation.id c) (Message.id m) (Message.id p)
               (Message.content m))
     ∧ getMessages (Conversation.id c) out.2
       = <[S i := Message.mk (Message.id p) assistant "..."
                    (Message.timestamp p) (Some sending)
                    (Message.metadata p)]> (Conversation.messages c)
     ∧ isSending out.2 = true
     ∧ ChatState.error out.2 = None)
  ∧ (∀ isAuthenticated,
       let out := retryMessage_begin isAuthenticated now messageId s in
       out.1 = None →
       conversations out.2 = conversations s
       ∧ isSending out.2 = isSending s
       ∧ pendingJobs out.2 = pendingJobs s).
Proof.
  split.
  - intros c i m p out Hactive Hm Hrole Hp Hprole Hfp.
    pose proof (getActiveConversation_held s c Hactive) as Hc.
    destruct (getMessages_updateMessage now (Conversation.id c) (Message.id p)
                sending_patch s c (S i) p Hc Hfp)
      as (Hmsgs & _ & _ & _ & _).
    assert (out
            = (Some (Turn.mk (Conversation.id c) (Message.id m) (Message.id p)
                       (Message.content m)),
               clearError
                 (setSending true
                    (updateMessage now (Conversation.id c) (Message.id p)
                       sending_patch s)))) as ->.
    { subst out. unfold retryMessage_begin.
      by rewrite Hactive, Hm, Hrole, Hp, Hprole. }
    cbn [fst snd]. split_and!; try done.
    change (getMessages (Conversation.id c)
              (updateMessage now (Conversation.id c) (Message.id p)
                 sending_patch s)
            = <[S i := Message.mk (Message.id p) assistant "..."
                         (Message.timestamp p) (Some sending)
                         (Message.metadata p)]> (Conversation.messages c)).
    rewrite Hmsgs. unfold assign_message. simpl. by rewrite Hprole.
  - intros isAuthenticated out Hnone. subst out. revert Hnone.
    unfold retryMessage_begin.
    destruct (getActiveConversation s) as [c|]; [|done].
    destruct isAuthenticated; [|done]. simpl.
    destruct (find_message messageId (Conversation.messages c)) as [[i m]|];
      [|done].
    destruct (bool_decide (Message.role m = Types.user)); [|done]. simpl.
    destruct (Conversation.messages c !! S i) as [p|]; [|done].
    destruct (bool_decide (Message.role p = assistant)); [|done]. simpl.
    discriminate.
Qed.

(** The answer to the first question of ["c1"] is asked for again,
    though it did not fail. *)
Lemma retryMessage_resends_witness :
  (retryMessage_begin true 9 "m1" asked).1
  = Some (Turn.mk "c1" "m1" "m9" "first question").
Proof.
  refine (proj1 (proj1 (retryMessage_resends 9 "m1" asked) _ 0%nat _ _
                   eq_refl eq_refl eq_refl eq_refl eq_refl eq_refl)).
Defined.




